(** * kitty/freetype.c: compositing of shaped glyph runs and cell trimming

    A shallow embedding of the pixel code of [kitty/freetype.c]:
    [ensure_space], [apply_bitmap], [draw_complex_glyph] and
    [trim_to_width], together with the C data they work on.

    Conventions of the embedding.
    - The data model is LP64: [unsigned int] and [int] are 32 bits wide,
      [size_t], [unsigned long] and [long] are 64 bits wide.  A machine
      integer is a [Z]; every operation that can wrap is followed by the
      conversion to its type ([to_uint], [to_size_t], [to_ulong], [to_long]).
    - A block of memory is a [list Z] of byte values (0..255).  An access
      outside a block is undefined behaviour in C; the embedding reports it
      as the outcome [Undefined] instead of guessing at a result.
    - [float] is IEEE-754 binary32 and [double] binary64, rounding to
      nearest even, both taken from the standard library's [SpecFloat].
    - FreeType (the rasterizer), HarfBuzz (the shaper) and the allocator are
      outside the file; they enter as variables of a section.  The
      rasterizer is a function of the glyph id: a failure of
      [FT_Load_Glyph], which [draw_complex_glyph] does not look at, is not
      modelled. *)

From Stdlib Require Import ZArith List Bool Lia.
From Stdlib Require Import Floats.SpecFloat.
From Equations Require Import Equations.
Import ListNotations.

Local Open Scope Z_scope.

(** ** Machine integers *)

Module CInt.

Definition UINT_WIDTH : Z := 32.
Definition SIZE_WIDTH : Z := 64.

Definition to_uint (z : Z) : Z := z mod 2 ^ UINT_WIDTH.
Definition to_size_t (z : Z) : Z := z mod 2 ^ SIZE_WIDTH.
Definition to_ulong (z : Z) : Z := z mod 2 ^ SIZE_WIDTH.

(** Conversion to [long]: the value modulo 2^64 read as two's complement. *)
Definition to_long (z : Z) : Z :=
  let u := z mod 2 ^ SIZE_WIDTH in
  if u <? 2 ^ (SIZE_WIDTH - 1) then u else u - 2 ^ SIZE_WIDTH.

Definition is_uint (z : Z) : Prop := 0 <= z < 2 ^ UINT_WIDTH.
Definition is_size_t (z : Z) : Prop := 0 <= z < 2 ^ SIZE_WIDTH.
Definition is_ulong (z : Z) : Prop := 0 <= z < 2 ^ SIZE_WIDTH.

End CInt.
Import CInt.

(** Modelled from the spec: [MIN] and [MAX] are macros of [data-types.h],
    which is not among the sources; the spec reads them as the minimum and
    the maximum of their two arguments ("clipped to min(...)", "grow the
    running bounding box"). *)
Definition MIN (a b : Z) : Z := if b <? a then b else a.
Definition MAX (a b : Z) : Z := if b <? a then a else b.

(** [#define ZERO_SUB(a, b) ((a) <= (b) ? 0 : (a) - (b))], local to
    [apply_bitmap]; its operands are [size_t]. *)
Definition ZERO_SUB (a b : Z) : Z := if a <=? b then 0 else to_size_t (a - b).

(** ** Outcomes of a C function called from Python *)

(** The Python exceptions the file raises.  The spec calls them
    AllocationFailure, UnsupportedPixelFormat, EmptyShapeResult and
    TrimOverflow, in this order. *)
Inductive PyErr : Type :=
| PyErr_NoMemory
| ValueError_unsupported_pixel_mode (mode : Z)
| ValueError_no_glyphs_found
| FreeType_Exception_too_large.

Inductive outcome (A : Type) : Type :=
| Returns (a : A)          (* the call returns normally *)
| Raises (e : PyErr)       (* the call returns NULL with an exception set *)
| Undefined                (* the C code reaches undefined behaviour *)
| OutOfFuel.               (* a loop of the model was cut short *)

Arguments Returns {A} a.
Arguments Raises {A} e.
Arguments Undefined {A}.
Arguments OutOfFuel {A}.

Definition bind {A B : Type} (m : outcome A) (k : A -> outcome B) : outcome B :=
  match m with
  | Returns a => k a
  | Raises e => Raises e
  | Undefined => Undefined
  | OutOfFuel => OutOfFuel
  end.

Definition defined {A : Type} (o : option A) : outcome A :=
  match o with
  | Some a => Returns a
  | None => Undefined
  end.

Declare Scope outcome_scope.
Delimit Scope outcome_scope with outcome.
Notation "x <- m ;; k" := (bind m (fun x => k))
  (at level 61, m at next level, right associativity) : outcome_scope.
Notation "' p <- m ;; k" := (bind m (fun x => let p := x in k))
  (at level 61, p pattern, m at next level, right associativity) : outcome_scope.
Local Open Scope outcome_scope.

(** ** Memory blocks *)

Module Mem.

Definition bytes : Type := list Z.

Definition len (b : bytes) : Z := Z.of_nat (length b).

(** The bytes of [b] from offset [off], [n] of them. *)
Definition slice (b : bytes) (off n : Z) : bytes :=
  firstn (Z.to_nat n) (skipn (Z.to_nat off) b).

(** [p[i]] for an [unsigned char *p]. *)
Definition load (b : bytes) (i : Z) : option Z :=
  if (0 <=? i) && (i <? len b) then nth_error b (Z.to_nat i) else None.

(** [memcpy(dst + doff, src + soff, n)].  A copy of no bytes touches
    nothing; a copy of [n > 0] bytes must stay inside both blocks. *)
Definition memcpy (dst : bytes) (doff : Z) (src : bytes) (soff : Z) (n : Z)
  : option bytes :=
  if n <=? 0 then Some dst
  else if (0 <=? doff) && (doff + n <=? len dst)
          && (0 <=? soff) && (soff + n <=? len src)
  then Some (firstn (Z.to_nat doff) dst ++ slice src soff n
             ++ skipn (Z.to_nat (doff + n)) dst)
  else None.

(** A zero-filled block, as [calloc] hands it out. *)
Definition zeros (n : Z) : bytes := repeat 0 (Z.to_nat n).

End Mem.
Import Mem.

(** ** IEEE-754 arithmetic of the cursor *)

Module CFloat.

Definition float : Type := spec_float.
Definition double : Type := spec_float.

Definition f32_prec : Z := 24.
Definition f32_emax : Z := 128.
Definition f64_prec : Z := 53.
Definition f64_emax : Z := 1024.

(** [(float)n] for an integer [n]. *)
Definition float_of_int (n : Z) : float :=
  binary_normalize f32_prec f32_emax n 0 false.

(** [(double)n] for an integer [n]. *)
Definition double_of_int (n : Z) : double :=
  binary_normalize f64_prec f64_emax n 0 false.

(** Promotion of a [float] to [double] is exact. *)
Definition double_of_float (f : float) : double := f.

(** Conversion of a [double] to [float] rounds. *)
Definition float_of_double (d : double) : float :=
  match d with
  | S754_finite s m e => binary_round f32_prec f32_emax s m e
  | _ => d
  end.

Definition fadd (a b : float) : float := SFadd f32_prec f32_emax a b.
Definition dadd (a b : double) : double := SFadd f64_prec f64_emax a b.
Definition dsub (a b : double) : double := SFsub f64_prec f64_emax a b.
Definition ddiv (a b : double) : double := SFdiv f64_prec f64_emax a b.
Definition fneg (a : float) : float := SFopp a.
Definition flt (a b : float) : bool := SFltb a b.

Definition fzero : float := S754_zero false.

(** The integer a finite float is rounded to, towards plus infinity. *)
Definition Zceil (s : bool) (m : positive) (e : Z) : Z :=
  let n := cond_Zopp s (Zpos m) in
  if 0 <=? e then n * 2 ^ e else - ((- n) / 2 ^ (- e)).

(** ... towards zero. *)
Definition Ztrunc (s : bool) (m : positive) (e : Z) : Z :=
  cond_Zopp s (if 0 <=? e then Zpos m * 2 ^ e else Zpos m / 2 ^ (- e)).

(** ... to nearest, halfway cases away from zero. *)
Definition Zround (s : bool) (m : positive) (e : Z) : Z :=
  cond_Zopp s (if 0 <=? e then Zpos m * 2 ^ e
               else (Zpos m + 2 ^ (- e - 1)) / 2 ^ (- e)).

(** [ceilf] and [roundf] return floats; an integer of magnitude below
    2^24 or a float that is already integral is represented exactly. *)
Definition ceilf (f : float) : float :=
  match f with
  | S754_finite s m e => binary_normalize f32_prec f32_emax (Zceil s m e) 0 s
  | _ => f
  end.

Definition roundf (f : float) : float :=
  match f with
  | S754_finite s m e => binary_normalize f32_prec f32_emax (Zround s m e) 0 s
  | _ => f
  end.

(** Conversion of a float to an unsigned integer type of [w] bits drops
    the fraction; the behaviour is undefined when the integral part is
    not a value of the type (C11 6.3.1.4). *)
Definition float_to_unsigned (w : Z) (f : float) : option Z :=
  match f with
  | S754_zero _ => Some 0
  | S754_finite s m e =>
      let n := Ztrunc s m e in
      if (0 <=? n) && (n <? 2 ^ w) then Some n else None
  | _ => None
  end.

Definition float_to_uint : float -> option Z := float_to_unsigned UINT_WIDTH.
Definition float_to_size_t : float -> option Z := float_to_unsigned SIZE_WIDTH.

End CFloat.
Import CFloat.

(** ** FreeType and HarfBuzz data *)

(** [FT_Glyph_Metrics]: eight [FT_Pos] fields. *)
Record FT_Glyph_Metrics : Type := {
  gm_width : Z;
  gm_height : Z;
  horiBearingX : Z;
  horiBearingY : Z;
  horiAdvance : Z;
  vertBearingX : Z;
  vertBearingY : Z;
  vertAdvance : Z
}.

(** [FT_Bitmap]; the Python [Bitmap] struct sequence built by [bitmap()]
    has the same seven fields in the same order ([bm_fields]). *)
Record FT_Bitmap : Type := {
  bm_rows : Z;          (* unsigned int *)
  bm_width : Z;         (* unsigned int *)
  bm_pitch : Z;         (* int *)
  bm_buffer : bytes;
  bm_num_grays : Z;
  bm_pixel_mode : Z;    (* unsigned char *)
  bm_palette_mode : Z
}.

(** The part of [FT_GlyphSlotRec] the file reads: [face->glyph->metrics]
    and [face->glyph->bitmap]. *)
Record FT_GlyphSlotRec : Type := {
  slot_metrics : FT_Glyph_Metrics;
  slot_bitmap : FT_Bitmap
}.

(** The value of FreeType's enumerator [FT_PIXEL_MODE_GRAY]. *)
Definition FT_PIXEL_MODE_GRAY : Z := 2.

Record hb_glyph_info_t : Type := {
  codepoint : Z;        (* after shaping: the glyph id *)
  mask : Z;
  cluster : Z
}.

(** Positions are [hb_position_t], 32-bit integers in 1/64 pixel. *)
Record hb_glyph_position_t : Type := {
  x_advance : Z;
  y_advance : Z;
  x_offset : Z;
  y_offset : Z
}.

(** [ShapeData]: two arrays read at the same index below
    [length = MIN(info_length, positions_length)], that is the list of
    pairs ([combine] stops at the shorter array). *)
Definition ShapeData : Type := list (hb_glyph_info_t * hb_glyph_position_t).

(** [GlyphBuffer]; [buf] is [None] for the NULL pointer. *)
Record GlyphBuffer : Type := {
  buf : option bytes;
  gb_width : Z;         (* unsigned int *)
  gb_height : Z;        (* unsigned int *)
  gb_metrics : FT_Glyph_Metrics
}.

Record BitmapPoint : Type := {
  pt_x : Z;             (* size_t *)
  pt_y : Z              (* size_t *)
}.

Definition zero_metrics : FT_Glyph_Metrics :=
  {| gm_width := 0; gm_height := 0; horiBearingX := 0; horiBearingY := 0;
     horiAdvance := 0; vertBearingX := 0; vertBearingY := 0; vertAdvance := 0 |}.

(** [GlyphBuffer g = {0};] *)
Definition empty_GlyphBuffer : GlyphBuffer :=
  {| buf := None; gb_width := 0; gb_height := 0; gb_metrics := zero_metrics |}.

(** The block behind a pointer; NULL has no byte that may be accessed. *)
Definition block (p : option bytes) : bytes :=
  match p with
  | Some b => b
  | None => []
  end.

(** The pixel of a canvas at column [x] of row [y]. *)
Definition pixel (g : GlyphBuffer) (x y : Z) : option Z :=
  load (block (buf g)) (y * gb_width g + x).

(** A canvas whose buffer holds [width * height] bytes. *)
Definition wf_GlyphBuffer (g : GlyphBuffer) : Prop :=
  is_uint (gb_width g) /\ is_uint (gb_height g) /\
  len (block (buf g)) = gb_width g * gb_height g.

(** ** The calls of [memcpy] a loop makes *)

(** One call [memcpy(dst + mc_dst, src + mc_src, mc_n)]. *)
Record memcpy_call : Type := {
  mc_dst : Z;
  mc_src : Z;
  mc_n : Z
}.

(** The calls of a loop, run in order on the destination block. *)
Fixpoint run_memcpys (dst src : bytes) (calls : list memcpy_call) : option bytes :=
  match calls with
  | [] => Some dst
  | c :: rest =>
      match memcpy dst (mc_dst c) src (mc_src c) (mc_n c) with
      | Some dst' => run_memcpys dst' src rest
      | None => None
      end
  end.

(** The offsets of the destination block a call writes to. *)
Definition written (c : memcpy_call) (p : Z) : Prop :=
  mc_dst c <= p < mc_dst c + mc_n c.

(** A call that stays inside the two blocks it is given. *)
Definition in_bounds (dst src : bytes) (c : memcpy_call) : Prop :=
  mc_n c <= 0 \/
  (0 <= mc_dst c /\ mc_dst c + mc_n c <= len dst /\
   0 <= mc_src c /\ mc_src c + mc_n c <= len src).

(** No call writes where an earlier call of the list has written. *)
Fixpoint no_overwrite (calls : list memcpy_call) : Prop :=
  match calls with
  | [] => True
  | c :: rest =>
      (forall c' p, In c' rest -> written c p -> ~ written c' p) /\
      no_overwrite rest
  end.

(** ** [ensure_space] *)

(** [for (unsigned int r = 0; r < g->height; r++)
       memcpy(newbuf + r * width, g->buf + r * g->width, g->width);]
    The products are [unsigned int]; [r++] cannot wrap below [g->height]. *)
Equations? ensure_space_copies (g_width g_height width : Z) (r : Z)
  : list memcpy_call by wf (Z.to_nat (g_height - r)) lt :=
  ensure_space_copies g_width g_height width r with Z_lt_dec r g_height := {
    | left _ =>
        {| mc_dst := to_uint (r * width);
           mc_src := to_uint (r * g_width);
           mc_n := g_width |}
        :: ensure_space_copies g_width g_height width (r + 1)
    | right _ => [] }.
Proof. lia. Qed.

(** ** [apply_bitmap] *)

(** [for (size_t sy = src_start.y, dy = dest_start.y;
          sy < src_height && dy < dest->height; sy++, dy++)
       memcpy(dest->buf + dest_start.x + dy * dest->width,
              src + sy * src_width, width);]
    The products are [size_t]; [sy++] and [dy++] cannot wrap below their
    bounds.  The source offset has no [src_start.x] in it. *)
Equations? apply_bitmap_copies (dest_width dest_height src_width src_height : Z)
  (dest_start_x width : Z) (sy dy : Z)
  : list memcpy_call by wf (Z.to_nat (src_height - sy)) lt :=
  apply_bitmap_copies dest_width dest_height src_width src_height
                      dest_start_x width sy dy
    with Z_lt_dec sy src_height := {
    | left _ with Z_lt_dec dy dest_height := {
        | left _ =>
            {| mc_dst := dest_start_x + to_size_t (dy * dest_width);
               mc_src := to_size_t (sy * src_width);
               mc_n := width |}
            :: apply_bitmap_copies dest_width dest_height src_width src_height
                                   dest_start_x width (sy + 1) (dy + 1)
        | right _ => [] }
    | right _ => [] }.
Proof. lia. Qed.

(** The clipped number of columns of [apply_bitmap]. *)
Definition apply_bitmap_width (dest : GlyphBuffer) (bitmap : FT_Bitmap)
  (src_start dest_start : BitmapPoint) : Z :=
  let src_width := to_size_t (bm_pitch bitmap) in
  MIN (ZERO_SUB (gb_width dest) (pt_x dest_start))
      (ZERO_SUB src_width (pt_x src_start)).

(** The calls of [memcpy] one call of [apply_bitmap] makes. *)
Definition apply_bitmap_calls (dest : GlyphBuffer) (bitmap : FT_Bitmap)
  (src_start dest_start : BitmapPoint) : list memcpy_call :=
  let src_height := bm_rows bitmap in
  let src_width := to_size_t (bm_pitch bitmap) in
  let width := apply_bitmap_width dest bitmap src_start dest_start in
  apply_bitmap_copies (gb_width dest) (gb_height dest) src_width src_height
                      (pt_x dest_start) width (pt_y src_start) (pt_y dest_start).

(** The bytes of a canvas replaced; the pointer itself stays as it is. *)
Definition with_block (g : GlyphBuffer) (b : bytes) : GlyphBuffer :=
  {| buf := match buf g with
            | Some _ => Some b
            | None => None
            end;
     gb_width := gb_width g;
     gb_height := gb_height g;
     gb_metrics := gb_metrics g |}.

(** [apply_bitmap]: the canvas after the calls of [memcpy] have run. *)
Definition apply_bitmap (dest : GlyphBuffer) (bitmap : FT_Bitmap)
  (src_start dest_start : BitmapPoint) : outcome GlyphBuffer :=
  newbuf <- defined (run_memcpys (block (buf dest)) (bm_buffer bitmap)
                       (apply_bitmap_calls dest bitmap src_start dest_start)) ;;
  Returns (with_block dest newbuf).

(** ** [trim_to_width]: the scan for blank columns *)

(** [for (unsigned long y = 0; y < rows * width; y += width)
       if (src[x + y] > 200) { column_has_text = true; break; }]
    The result is the value of [column_has_text] after the loop.  [y] is an
    [unsigned long] that may wrap, so the loop is given [fuel]: one unit for
    each pass through its body. *)
Fixpoint column_scan (fuel : nat) (src : bytes) (rows width : Z) (x y : Z)
  : outcome bool :=
  if y <? to_ulong (rows * width) then
    match fuel with
    | O => OutOfFuel
    | S fuel' =>
        match load src (to_ulong (x + y)) with
        | None => Undefined
        | Some v =>
            if 200 <? v then Returns true
            else column_scan fuel' src rows width x (to_ulong (y + width))
        end
    end
  else Returns false.

(** [for (long x = width - 1; !column_has_text && x > -1 && rtrim < extra; x--) {
       ... inner loop ...
       if (!column_has_text) rtrim++;
     }]
    The result is the value of [rtrim] after the loop.  The inner loop
    passes through its body at most [rows] times. *)
Equations? trim_scan (src : bytes) (rows width extra : Z)
  (x rtrim : Z) (column_has_text : bool)
  : outcome Z by wf (Z.to_nat (x + 1)) lt :=
  trim_scan src rows width extra x rtrim true := Returns rtrim;
  trim_scan src rows width extra x rtrim false with Z_lt_dec (-1) x := {
    | right _ => Returns rtrim
    | left _ with Z_lt_dec rtrim extra := {
        | right _ => Returns rtrim
        | left _ with column_scan (Z.to_nat rows) src rows width x 0 := {
            | Returns true => trim_scan src rows width extra (x - 1) rtrim true
            | Returns false =>
                trim_scan src rows width extra (x - 1) (to_ulong (rtrim + 1)) false
            | Raises e => Raises e
            | Undefined => Undefined
            | OutOfFuel => OutOfFuel } } }.
Proof. all: lia. Qed.

(** [for (unsigned long y = 0; y < rows; y++)
       memcpy(dest + y*cell_width, src + ltrim + y*width, cell_width);] *)
Equations? trim_copies (rows width cell_width ltrim : Z) (y : Z)
  : list memcpy_call by wf (Z.to_nat (rows - y)) lt :=
  trim_copies rows width cell_width ltrim y with Z_lt_dec y rows := {
    | left _ =>
        {| mc_dst := to_ulong (y * cell_width);
           mc_src := ltrim + to_ulong (y * width);
           mc_n := cell_width |}
        :: trim_copies rows width cell_width ltrim (y + 1)
    | right _ => [] }.
Proof. lia. Qed.

(** [rtrim] and [ltrim] as [trim_to_width] has them before it copies:
    the scan, then [rtrim = MIN(extra, rtrim); ltrim = extra - rtrim;]. *)
Definition trim_amounts (src : bytes) (rows width cell_width : Z)
  : outcome (Z * Z) :=
  let extra := to_ulong (width - cell_width) in
  rtrim <- trim_scan src rows width extra (to_long (width - 1)) 0 false ;;
  let rtrim := MIN extra rtrim in
  let ltrim := to_ulong (extra - rtrim) in
  Returns (rtrim, ltrim).

Section Face.

(** The allocator: whether a request for [n] bytes is granted.  It
    stands for [calloc] and for [PyByteArray_FromStringAndSize]. *)
Variable alloc_ok : Z -> bool.

(** The rasterizer: the glyph slot of the face after
    [_load_char(self, codepoint)], with the face's hinting flags. *)
Variable _load_char : Z -> FT_GlyphSlotRec.

(** [calloc(n, sizeof(char))] *)
Definition calloc (n : Z) : option bytes :=
  if alloc_ok n then Some (zeros n) else None.

(** [ensure_space]: the [bool] it returns and the canvas it leaves. *)
Definition ensure_space (g : GlyphBuffer) (width height : Z)
  : outcome (bool * GlyphBuffer) :=
  if (width <=? gb_width g) && (height <=? gb_height g) then Returns (true, g)
  else
    match calloc (to_uint (width * height)) with
    | None =>
        Returns (false, {| buf := None; gb_width := 0; gb_height := 0;
                           gb_metrics := gb_metrics g |})
    | Some zeroed =>
        newbuf <- defined (run_memcpys zeroed (block (buf g))
                             (ensure_space_copies (gb_width g) (gb_height g)
                                                  width 0)) ;;
        Returns (true, {| buf := Some newbuf; gb_width := width;
                          gb_height := height; gb_metrics := gb_metrics g |})
    end.

(** The locals of [draw_complex_glyph] that live across iterations. *)
Record DrawState : Type := {
  ds_x : float;
  ds_y : float;
  ds_width : Z;       (* unsigned int *)
  ds_height : Z;      (* unsigned int *)
  ds_g : GlyphBuffer
}.

Definition draw_init : DrawState :=
  {| ds_x := fzero; ds_y := fzero; ds_width := 0; ds_height := 0;
     ds_g := empty_GlyphBuffer |}.

(** [(float)v / 64.0]: the division is done in [double]. *)
Definition pos_to_pixels (v : Z) : double :=
  ddiv (double_of_float (float_of_int v)) (double_of_int 64).

(** [x += (float)v / 64.0;] and [y -= (float)v / 64.0;] *)
Definition cursor_add (x : float) (v : Z) : float :=
  float_of_double (dadd (double_of_float x) (pos_to_pixels v)).
Definition cursor_sub (y : float) (v : Z) : float :=
  float_of_double (dsub (double_of_float y) (pos_to_pixels v)).

(** [(unsigned int)ceilf(x + n)] for an integer [n]. *)
Definition extent (x : float) (n : Z) : option Z :=
  float_to_uint (ceilf (fadd x (float_of_int n))).

(** [(size_t)(x < 0 ? ceilf(-x) : 0)] *)
Definition src_origin (x : float) : option Z :=
  float_to_size_t (if flt x fzero then ceilf (fneg x) else float_of_int 0).

(** [(size_t)(x < 0 ? 0 : roundf(x))] *)
Definition dest_origin (x : float) : option Z :=
  float_to_size_t (if flt x fzero then float_of_int 0 else roundf x).

(** The body of the loop of [draw_complex_glyph] at index [i]. *)
Definition draw_glyph (i : Z) (info : hb_glyph_info_t)
  (pos : hb_glyph_position_t) (st : DrawState) : outcome DrawState :=
  if codepoint info =? 0 then Returns st                       (* continue *)
  else
    let glyph := _load_char (codepoint info) in
    let g := if i =? 0
             then {| buf := buf (ds_g st); gb_width := gb_width (ds_g st);
                     gb_height := gb_height (ds_g st);
                     gb_metrics := slot_metrics glyph |}
             else ds_g st in
    let x := cursor_add (ds_x st) (x_offset pos) in
    let y := cursor_sub (ds_y st) (y_offset pos) in
    w <- defined (extent x (bm_pitch (slot_bitmap glyph))) ;;
    let width := MAX (ds_width st) w in
    h <- defined (extent y (bm_rows (slot_bitmap glyph))) ;;
    let height := MAX (ds_height st) h in
    '(ok, g) <- ensure_space g width height ;;
    if negb ok then Raises PyErr_NoMemory
    else
      src_x <- defined (src_origin x) ;;
      src_y <- defined (src_origin y) ;;
      dest_x <- defined (dest_origin x) ;;
      dest_y <- defined (dest_origin y) ;;
      if negb (bm_pixel_mode (slot_bitmap glyph) =? FT_PIXEL_MODE_GRAY)
      then Raises (ValueError_unsupported_pixel_mode
                     (bm_pixel_mode (slot_bitmap glyph)))
      else
        g <- apply_bitmap g (slot_bitmap glyph)
               {| pt_x := src_x; pt_y := src_y |}
               {| pt_x := dest_x; pt_y := dest_y |} ;;
        Returns {| ds_x := cursor_add x (x_advance pos);
                   ds_y := float_of_int 0;
                   ds_width := width; ds_height := height; ds_g := g |}.

(** [for (unsigned i = 0; i < sd.length; i++) { ... }], from index [i]. *)
Fixpoint draw_loop (i : Z) (sd : ShapeData) (st : DrawState)
  : outcome DrawState :=
  match sd with
  | [] => Returns st
  | (info, pos) :: rest =>
      st' <- draw_glyph i info pos st ;;
      draw_loop (i + 1) rest st'
  end.

(** What [draw_complex_glyph] hands to Python with
    [Py_BuildValue("NNII", t, gm_to_py(&g.metrics), g.width, g.height)]. *)
Record Composite : Type := {
  c_pixels : bytes;
  c_metrics : FT_Glyph_Metrics;
  c_width : Z;
  c_height : Z
}.

(** [draw_complex_glyph], after [_shape] has filled [sd]. *)
Definition draw_complex_glyph (sd : ShapeData) : outcome Composite :=
  st <- draw_loop 0 sd draw_init ;;
  let g := ds_g st in
  match buf g with
  | None => Raises ValueError_no_glyphs_found
  | Some b =>
      let n := to_uint (gb_width g * gb_height g) in
      if n <=? len b
      then Returns {| c_pixels := slice b 0 n; c_metrics := gb_metrics g;
                      c_width := gb_width g; c_height := gb_height g |}
      else Undefined
  end.

(** [trim_to_width] on a [Bitmap] and a cell width ([unsigned long]). *)
Definition trim_to_width (bitmap : FT_Bitmap) (cell_width : Z)
  : outcome FT_Bitmap :=
  let rows := bm_rows bitmap in
  let width := bm_width bitmap in
  let extra := to_ulong (width - cell_width) in
  if cell_width <=? extra then Raises FreeType_Exception_too_large
  else
    let src := bm_buffer bitmap in
    let size := to_ulong (cell_width * rows) in
    if negb (alloc_ok size) then Raises PyErr_NoMemory
    else
      let dest := zeros size in
      '(_, ltrim) <- trim_amounts src rows width cell_width ;;
      abuf <- defined (run_memcpys dest src
                         (trim_copies rows width cell_width ltrim 0)) ;;
      Returns {| bm_rows := rows; bm_width := cell_width;
                 bm_pitch := cell_width; bm_buffer := abuf;
                 bm_num_grays := bm_num_grays bitmap;
                 bm_pixel_mode := bm_pixel_mode bitmap;
                 bm_palette_mode := bm_palette_mode bitmap |}.

End Face.

(** ** Notions the statements use *)

(** The integers [lo], [lo + 1], ..., [n] of them. *)
Fixpoint Zrange (lo : Z) (n : nat) : list Z :=
  match n with
  | O => []
  | S n' => lo :: Zrange (lo + 1) n'
  end.

(** The spec of the cell fitter, in its words: a pixel is blank when its
    intensity is at most 200; a column is blank when every pixel of it,
    across all rows, is blank. *)
Definition blank_pixel (src : bytes) (width x y : Z) : bool :=
  match load src (y * width + x) with
  | Some v => v <=? 200
  | None => false
  end.

Definition blank_column (src : bytes) (rows width x : Z) : bool :=
  forallb (blank_pixel src width x) (Zrange 0 (Z.to_nat rows)).

(** The number of consecutive blank columns counted from column [n - 1]
    leftward, stopping at the first column that is not blank. *)
Fixpoint blank_columns_from_right (src : bytes) (rows width : Z) (n : nat) : Z :=
  match n with
  | O => 0
  | S k =>
      if blank_column src rows width (Z.of_nat k)
      then 1 + blank_columns_from_right src rows width k
      else 0
  end.

(** One canvas is at least as wide and as high as another. *)
Definition dims_le (g g' : GlyphBuffer) : Prop :=
  gb_width g <= gb_width g' /\ gb_height g <= gb_height g'.

(** The locals [width] and [height] are the dimensions of the canvas. *)
Definition tracks_canvas (st : DrawState) : Prop :=
  gb_width (ds_g st) = ds_width st /\ gb_height (ds_g st) = ds_height st.

(** A rendered glyph of one pixel of intensity 255. *)
Definition dot_bitmap (b : FT_Bitmap) : Prop :=
  bm_rows b = 1 /\ bm_width b = 1 /\ bm_pitch b = 1 /\ bm_buffer b = [255] /\
  bm_pixel_mode b = FT_PIXEL_MODE_GRAY.

(** A shaped glyph with no offsets. *)
Definition glyph_at (id adv : Z) : hb_glyph_info_t * hb_glyph_position_t :=
  ({| codepoint := id; mask := 0; cluster := 0 |},
   {| x_advance := adv; y_advance := 0; x_offset := 0; y_offset := 0 |}).

(** A canvas whose buffer has the bytes [calloc] was asked for: the
    product of its dimensions as an [unsigned int]. *)
Definition canvas_sized (g : GlyphBuffer) : Prop :=
  len (block (buf g)) = to_uint (gb_width g * gb_height g).

(** ** Exact values of the cursor *)

(** [m * 2^e] and [n * 2^f] are the same number. *)
Definition same_dyadic (m e n f : Z) : Prop :=
  m * 2 ^ (e - Z.min e f) = n * 2 ^ (f - Z.min e f).

(** The float [x] is exactly [k * 2^c]. *)
Definition has_value (x : spec_float) (k c : Z) : Prop :=
  match x with
  | S754_zero _ => k = 0
  | S754_finite s m e => same_dyadic (cond_Zopp s (Zpos m)) e k c
  | _ => False
  end.

(** The cursor [x] is exactly [k / 64] pixels: a whole number [k] of the
    26.6 fixed-point units the shaper counts in. *)
Definition is_64ths (x : float) (k : Z) : Prop := has_value x k (- 6).

(** [ceil(k / 64)], and [round(k / 64)] for [0 <= k], halves upwards. *)
Definition ceil64 (k : Z) : Z := - ((- k) / 64).
Definition round64 (k : Z) : Z := (k + 32) / 64.

(** Step 2.e of the spec at a cursor of [k / 64] pixels: "if x < 0, the
    source x-origin is ceil(-x) and destination x-origin is 0; otherwise
    source x-origin is 0 and destination x-origin is round(x)". *)
Definition src_column (k : Z) : Z := if k <? 0 then ceil64 (- k) else 0.
Definition dest_column (k : Z) : Z := if k <? 0 then 0 else round64 k.

(** The integer part, rounded down, of [m * 2^e]. *)
Definition Zfloor2 (m e : Z) : Z :=
  if 0 <=? e then m * 2 ^ e else m / 2 ^ (- e).

(** A number of 64ths that single precision has: below 2^24 in
    magnitude, that is 2^18 pixels. *)
Definition in_24_bits (z : Z) : Prop := - 2 ^ 24 < z < 2 ^ 24.

(** The pen after a run, in 64ths of a pixel, when it starts at [k]:
    every glyph with an id other than 0 moves it by its offset and then
    by its advance (steps 2.c and 2.h of the spec). *)
Fixpoint pen_after (k : Z) (sd : ShapeData) : Z :=
  match sd with
  | [] => k
  | (info, pos) :: rest =>
      if codepoint info =? 0 then pen_after k rest
      else pen_after (k + x_offset pos + x_advance pos) rest
  end.

(** The offsets and advances of the run, and every position the pen
    passes through from [k] on, are numbers single precision has. *)
Fixpoint pen_in_range (k : Z) (sd : ShapeData) : Prop :=
  match sd with
  | [] => True
  | (info, pos) :: rest =>
      if codepoint info =? 0 then pen_in_range k rest
      else in_24_bits (x_offset pos) /\ in_24_bits (x_advance pos) /\
           in_24_bits (y_offset pos) /\
           in_24_bits (k + x_offset pos) /\
           in_24_bits (k + x_offset pos + x_advance pos) /\
           pen_in_range (k + x_offset pos + x_advance pos) rest
  end.

(** The dimensions [draw_complex_glyph] returns, when it returns. *)
Definition returned_size (o : outcome Composite) : option (Z * Z) :=
  match o with
  | Returns c => Some (c_width c, c_height c)
  | _ => None
  end.

(** ** [get_load_flags] *)

(** The values of FreeType's load flags ([freetype.h]). *)
Definition FT_LOAD_DEFAULT : Z := 0.
Definition FT_LOAD_NO_HINTING : Z := 2.         (* 1L << 1 *)
Definition FT_LOAD_RENDER : Z := 4.             (* 1L << 2 *)
Definition FT_LOAD_TARGET_NORMAL : Z := 0.      (* (0 & 15) << 16 *)
Definition FT_LOAD_TARGET_LIGHT : Z := 65536.   (* (1 & 15) << 16 *)

(** [get_load_flags]: [|=] on an [int] is [Z.lor]. *)
Definition get_load_flags (hinting hintstyle base : Z) : Z :=
  let flags := base in
  if negb (hinting =? 0) then
    if 3 <=? hintstyle then Z.lor flags FT_LOAD_TARGET_NORMAL
    else if (0 <? hintstyle) && (hintstyle <? 3)
         then Z.lor flags FT_LOAD_TARGET_LIGHT
         else flags
  else Z.lor flags FT_LOAD_NO_HINTING.

(** The flags [_load_char] passes to [FT_Load_Glyph]. *)
Definition _load_char_flags (hinting hintstyle : Z) : Z :=
  get_load_flags hinting hintstyle FT_LOAD_RENDER.

(** The flags [_shape] hands to HarfBuzz with [hb_ft_font_set_load_flags]
    (under [HARBUZZ_HAS_LOAD_FLAGS]). *)
Definition _shape_load_flags (hinting hintstyle : Z) : Z :=
  get_load_flags hinting hintstyle FT_LOAD_DEFAULT.

(** ** Sample data *)

Definition gray_bitmap (rows width : Z) (pixels : bytes) : FT_Bitmap :=
  {| bm_rows := rows; bm_width := width; bm_pitch := width;
     bm_buffer := pixels; bm_num_grays := 256;
     bm_pixel_mode := FT_PIXEL_MODE_GRAY; bm_palette_mode := 0 |}.

Definition sample_metrics : FT_Glyph_Metrics :=
  {| gm_width := 64; gm_height := 64; horiBearingX := 0; horiBearingY := 64;
     horiAdvance := 512; vertBearingX := 0; vertBearingY := 0;
     vertAdvance := 64 |}.

(** A rasterizer that renders every glyph as the same bitmap. *)
Definition render_as (b : FT_Bitmap) (id : Z) : FT_GlyphSlotRec :=
  {| slot_metrics := sample_metrics; slot_bitmap := b |}.

(** An allocator that grants every request. *)
Definition always_ok (n : Z) : bool := true.

(** An allocator that grants the two requests of the scenario and
    otherwise answers as [alloc_ok] does. *)
Definition grant_1_and_9 (alloc_ok : Z -> bool) (n : Z) : bool :=
  if n =? 1 then true else if n =? 9 then true else alloc_ok n.

Definition dot : FT_Bitmap := gray_bitmap 1 1 [255].

(** One row of three pixels that differ. *)
Definition ramp : FT_Bitmap := gray_bitmap 1 3 [10; 20; 30].

(** Scenarios B and C of the spec: one row of ten pixels. *)
Definition scenario_B : FT_Bitmap :=
  gray_bitmap 1 10 [0; 0; 0; 255; 0; 0; 0; 0; 0; 0].
Definition scenario_C : FT_Bitmap :=
  gray_bitmap 1 10 [0; 0; 0; 255; 0; 0; 0; 0; 0; 255].

Definition canvas (width height : Z) (pixels : bytes) : GlyphBuffer :=
  {| buf := Some pixels; gb_width := width; gb_height := height;
     gb_metrics := zero_metrics |}.

Definition dot_canvas : GlyphBuffer := canvas 1 1 [255].
Definition wide_canvas : GlyphBuffer := canvas 9 1 [255; 0; 0; 0; 0; 0; 0; 0; 0].

Definition point (x y : Z) : BitmapPoint := {| pt_x := x; pt_y := y |}.

(** A shaped glyph drawn one pixel to the left of the cursor. *)
Definition glyph_shifted_left (id : Z) : hb_glyph_info_t * hb_glyph_position_t :=
  ({| codepoint := id; mask := 0; cluster := 0 |},
   {| x_advance := 3 * 64; y_advance := 0; x_offset := - 64; y_offset := 0 |}).

(** An allocator that refuses every request. *)
Definition never_ok (n : Z) : bool := false.

(** The bitmap of a glyph without ink, a space. *)
Definition blank : FT_Bitmap := gray_bitmap 0 0 [].

(** The locals of [draw_complex_glyph] after a dot with an advance of 8
    pixels, and after a second dot. *)
Definition state_one_dot : DrawState :=
  {| ds_x := cursor_add fzero (8 * 64); ds_y := float_of_int 0;
     ds_width := 1; ds_height := 1;
     ds_g := {| buf := Some [255]; gb_width := 1; gb_height := 1;
                gb_metrics := sample_metrics |} |}.

Definition state_two_dots : DrawState :=
  {| ds_x := cursor_add (cursor_add (ds_x state_one_dot) 0) 0;
     ds_y := float_of_int 0;
     ds_width := 9; ds_height := 1;
     ds_g := {| buf := Some [255; 0; 0; 0; 0; 0; 0; 0; 255];
                gb_width := 9; gb_height := 1;
                gb_metrics := sample_metrics |} |}.

Definition two_dots : Composite :=
  {| c_pixels := [255; 0; 0; 0; 0; 0; 0; 0; 255];
     c_metrics := sample_metrics; c_width := 9; c_height := 1 |}.

(** One row of 262144 pixels of ink, and a shaped glyph drawn 1/64 of a
    pixel to the right of the cursor. *)
Definition wide_row : FT_Bitmap :=
  gray_bitmap 1 262144 (repeat 255 (Z.to_nat 262144)).

Definition glyph_nudged_right (id : Z) : hb_glyph_info_t * hb_glyph_position_t :=
  ({| codepoint := id; mask := 0; cluster := 0 |},
   {| x_advance := 0; y_advance := 0; x_offset := 1; y_offset := 0 |}).

(** The locals of [draw_complex_glyph] after a dot with an advance of 8.5
    pixels. *)
Definition state_dot_and_a_half : DrawState :=
  {| ds_x := cursor_add fzero (8 * 64 + 32); ds_y := float_of_int 0;
     ds_width := 1; ds_height := 1;
     ds_g := {| buf := Some [255]; gb_width := 1; gb_height := 1;
                gb_metrics := sample_metrics |} |}.

(** ** Tactics *)

(** Closes a goal about sample data by evaluating both sides. *)
Ltac by_evaluation :=
  repeat split; vm_compute; first [ reflexivity | discriminate ].

(** * Facts *)

(** ** Machine integers *)

Lemma to_uint_small z : is_uint z -> to_uint z = z.
Proof. unfold is_uint, to_uint. intros H. apply Z.mod_small. exact H. Qed.

Lemma to_size_t_small z : is_size_t z -> to_size_t z = z.
Proof. unfold is_size_t, to_size_t. intros H. apply Z.mod_small. exact H. Qed.

Lemma to_ulong_small z : is_ulong z -> to_ulong z = z.
Proof. unfold is_ulong, to_ulong. intros H. apply Z.mod_small. exact H. Qed.

Lemma to_long_small z :
  - 2 ^ (SIZE_WIDTH - 1) <= z < 2 ^ (SIZE_WIDTH - 1) -> to_long z = z.
Proof.
  unfold to_long, SIZE_WIDTH.
  change (64 - 1) with 63.
  change (2 ^ 63) with 9223372036854775808 in *.
  change (2 ^ 64) with 18446744073709551616 in *.
  intros H. cbv zeta.
  destruct (Z_lt_le_dec z 0) as [Hn | Hp].
  - replace (z mod 18446744073709551616) with (z + 18446744073709551616).
    + destruct (Z.ltb_spec (z + 18446744073709551616) 9223372036854775808); lia.
    + apply Z.mod_unique with (q := -1); lia.
  - rewrite Z.mod_small by lia.
    destruct (Z.ltb_spec z 9223372036854775808); lia.
Qed.

Lemma to_uint_range z : is_uint (to_uint z).
Proof. unfold is_uint, to_uint. apply Z.mod_pos_bound. reflexivity. Qed.

Lemma to_ulong_range z : is_ulong (to_ulong z).
Proof. unfold is_ulong, to_ulong. apply Z.mod_pos_bound. reflexivity. Qed.

Lemma MIN_spec a b : MIN a b = Z.min a b.
Proof. unfold MIN. destruct (Z.ltb_spec b a); lia. Qed.

Lemma MAX_spec a b : MAX a b = Z.max a b.
Proof. unfold MAX. destruct (Z.ltb_spec b a); lia. Qed.

(** ** Conversions of floats *)

Lemma float_to_unsigned_range w f n :
  float_to_unsigned w f = Some n -> 0 <= n < 2 ^ w \/ n = 0.
Proof.
  destruct f as [s | s | | s m e]; simpl; try discriminate.
  - intros H. injection H as <-. right. reflexivity.
  - destruct (Z.leb_spec 0 (Ztrunc s m e)); simpl; try discriminate.
    destruct (Z.ltb_spec (Ztrunc s m e) (2 ^ w)); try discriminate.
    intros H'. injection H' as <-. left. lia.
Qed.

Lemma float_to_uint_range f n : float_to_uint f = Some n -> is_uint n.
Proof.
  intros H. apply float_to_unsigned_range in H.
  unfold is_uint. destruct H as [H | ->]; [exact H | ].
  split; [lia | reflexivity].
Qed.

(** ** Single precision on the numbers it has exactly *)

Lemma pow2_gt0 n : 0 <= n -> 0 < 2 ^ n.
Proof. intros H. apply Z.pow_pos_nonneg; lia. Qed.

Lemma pow2_split a b : 0 <= a -> 0 <= b -> 2 ^ (a + b) = 2 ^ a * 2 ^ b.
Proof. intros. apply Z.pow_add_r; assumption. Qed.

(** The two can be compared at any exponent below both. *)
Lemma same_dyadic_at c m e n f :
  c <= e -> c <= f ->
  same_dyadic m e n f <-> m * 2 ^ (e - c) = n * 2 ^ (f - c).
Proof.
  intros He Hf. unfold same_dyadic.
  set (d := Z.min e f).
  assert (Hd : c <= d) by (unfold d; lia).
  assert (Hde : d <= e) by (unfold d; lia).
  assert (Hdf : d <= f) by (unfold d; lia).
  replace (e - c) with ((e - d) + (d - c)) by lia.
  replace (f - c) with ((f - d) + (d - c)) by lia.
  rewrite !pow2_split by lia.
  pose proof (pow2_gt0 (d - c) ltac:(lia)) as Hp.
  rewrite !Z.mul_assoc.
  split; intros H.
  - rewrite H. reflexivity.
  - apply Z.mul_cancel_r in H; [ exact H | lia ].
Qed.

Lemma same_dyadic_sym m e n f : same_dyadic m e n f -> same_dyadic n f m e.
Proof.
  unfold same_dyadic. rewrite (Z.min_comm f e). intros H. symmetry. exact H.
Qed.

Lemma same_dyadic_trans m e n f k g :
  same_dyadic m e n f -> same_dyadic n f k g -> same_dyadic m e k g.
Proof.
  intros H1 H2.
  set (c := Z.min e (Z.min f g)).
  apply (same_dyadic_at c) in H1; [ | unfold c; lia .. ].
  apply (same_dyadic_at c) in H2; [ | unfold c; lia .. ].
  apply (same_dyadic_at c); [ unfold c; lia .. | ].
  congruence.
Qed.

(** ** The arithmetic of [SpecFloat] on numbers it represents exactly *)

Lemma digits2_pos_bounds p :
  2 ^ (Zpos (digits2_pos p) - 1) <= Zpos p < 2 ^ Zpos (digits2_pos p).
Proof.
  induction p as [p IH | p IH | ]; cbn [digits2_pos].
  - rewrite Pos2Z.inj_succ.
    replace (Z.succ (Zpos (digits2_pos p)) - 1) with (Z.succ (Zpos (digits2_pos p) - 1)) by lia.
    rewrite !Z.pow_succ_r by lia. lia.
  - rewrite Pos2Z.inj_succ.
    replace (Z.succ (Zpos (digits2_pos p)) - 1) with (Z.succ (Zpos (digits2_pos p) - 1)) by lia.
    rewrite !Z.pow_succ_r by lia. lia.
  - cbn. lia.
Qed.

Lemma digits2_pos_unique p d :
  2 ^ (d - 1) <= Zpos p < 2 ^ d -> Zpos (digits2_pos p) = d.
Proof.
  intros H. pose proof (digits2_pos_bounds p) as B.
  set (d' := Zpos (digits2_pos p)) in *.
  assert (Hd' : 0 < d') by (unfold d'; lia).
  assert (Hd : 0 < d).
  { destruct (Z_lt_le_dec 0 d) as [ | Hle]; [ assumption | ].
    destruct (Z.eq_dec d 0) as [-> | ]; [ cbn in H; lia | ].
    rewrite (Z.pow_neg_r 2 d) in H by lia. lia. }
  destruct (Z.lt_trichotomy d d') as [Hlt | [Heq | Hgt]]; [ | symmetry; exact Heq | ].
  - assert (2 ^ d <= 2 ^ (d' - 1)) by (apply Z.pow_le_mono_r; lia). lia.
  - assert (2 ^ d' <= 2 ^ (d - 1)) by (apply Z.pow_le_mono_r; lia). lia.
Qed.

(** Numbers that are the same have their leading bit at the same place. *)
Lemma same_dyadic_digits m e n f :
  same_dyadic (Zpos m) e (Zpos n) f ->
  Zpos (digits2_pos m) + e = Zpos (digits2_pos n) + f.
Proof.
  unfold same_dyadic. set (c := Z.min e f). intros H.
  assert (He : 0 <= e - c) by (unfold c; lia).
  assert (Hf : 0 <= f - c) by (unfold c; lia).
  pose proof (digits2_pos_bounds m) as Bm.
  pose proof (digits2_pos_bounds n) as Bn.
  set (dm := Zpos (digits2_pos m)) in *. set (dn := Zpos (digits2_pos n)) in *.
  assert (Hdm : 0 < dm) by (unfold dm; lia).
  assert (Hdn : 0 < dn) by (unfold dn; lia).
  pose proof (pow2_gt0 (e - c) He) as Pe.
  pose proof (pow2_gt0 (f - c) Hf) as Pf.
  assert (L1 : 2 ^ (dm - 1 + (e - c)) <= Zpos m * 2 ^ (e - c)).
  { rewrite pow2_split by lia. apply Z.mul_le_mono_nonneg_r; lia. }
  assert (U1 : Zpos m * 2 ^ (e - c) < 2 ^ (dm + (e - c))).
  { rewrite pow2_split by lia. apply Z.mul_lt_mono_pos_r; lia. }
  assert (L2 : 2 ^ (dn - 1 + (f - c)) <= Zpos n * 2 ^ (f - c)).
  { rewrite pow2_split by lia. apply Z.mul_le_mono_nonneg_r; lia. }
  assert (U2 : Zpos n * 2 ^ (f - c) < 2 ^ (dn + (f - c))).
  { rewrite pow2_split by lia. apply Z.mul_lt_mono_pos_r; lia. }
  rewrite H in L1, U1.
  destruct (Z.lt_trichotomy (dm + (e - c)) (dn + (f - c))) as [Hlt | [Heq | Hgt]];
    [ | lia | ].
  - assert (2 ^ (dm + (e - c)) <= 2 ^ (dn - 1 + (f - c)))
      by (apply Z.pow_le_mono_r; lia). lia.
  - assert (2 ^ (dn + (f - c)) <= 2 ^ (dm - 1 + (e - c)))
      by (apply Z.pow_le_mono_r; lia). lia.
Qed.

Lemma iter_xO m d : Zpos (Pos.iter xO m d) = Zpos m * 2 ^ Zpos d.
Proof.
  induction d as [ | d IH] using Pos.peano_ind.
  - cbn. lia.
  - rewrite Pos.iter_succ, Pos2Z.inj_succ, Z.pow_succ_r by lia.
    rewrite Pos2Z.inj_xO, IH. lia.
Qed.

Lemma iter_pos_nat {A : Type} (f : A -> A) n : forall x,
  iter_pos f n x = Nat.iter (Pos.to_nat n) f x.
Proof.
  induction n as [n IH | n IH | ]; intros x; cbn [iter_pos].
  - rewrite !IH, Pos2Nat.inj_xI.
    replace (S (2 * Pos.to_nat n))%nat with (Pos.to_nat n + (Pos.to_nat n + 1))%nat by lia.
    rewrite !Nat.iter_add. reflexivity.
  - rewrite !IH, Pos2Nat.inj_xO.
    replace (2 * Pos.to_nat n)%nat with (Pos.to_nat n + Pos.to_nat n)%nat by lia.
    rewrite Nat.iter_add. reflexivity.
  - reflexivity.
Qed.

Lemma shr_1_even a :
  shr_1 {| shr_m := 2 * a; shr_r := false; shr_s := false |}
  = {| shr_m := a; shr_r := false; shr_s := false |}.
Proof. destruct a; reflexivity. Qed.

(** Shifting out [n] bits that are all 0 loses nothing. *)
Lemma shr_exact n : forall a,
  Nat.iter n shr_1 {| shr_m := a * 2 ^ Z.of_nat n; shr_r := false; shr_s := false |}
  = {| shr_m := a; shr_r := false; shr_s := false |}.
Proof.
  induction n as [ | n IH]; intros a.
  - cbn [Nat.iter]. change (Z.of_nat 0) with 0.
    rewrite Z.pow_0_r, Z.mul_1_r. reflexivity.
  - rewrite Nat.iter_succ_r.
    replace (a * 2 ^ Z.of_nat (S n)) with (2 * (a * 2 ^ Z.of_nat n)).
    + rewrite shr_1_even. apply IH.
    + rewrite Nat2Z.inj_succ, Z.pow_succ_r by lia. lia.
Qed.

Section Exact.

Variables prec emax : Z.

(** A mantissa in canonical position is left as it is by the rounding. *)
Lemma binary_round_aux_canonical sx m e :
  canonical_mantissa prec emax m e = true -> e <= emax - prec ->
  binary_round_aux prec emax sx (Zpos m) e loc_Exact = S754_finite sx m e.
Proof.
  intros Hc He. unfold canonical_mantissa in Hc. apply Z.eqb_eq in Hc.
  unfold binary_round_aux, shr_fexp. cbn [Zdigits2 shr_record_of_loc].
  rewrite Hc, Z.sub_diag. cbn [shr loc_of_shr_record shr_m round_nearest_even].
  cbn [Zdigits2 shr_record_of_loc]. rewrite Hc, Z.sub_diag. cbn [shr shr_m].
  destruct (Z.leb_spec e (emax - prec)); [ reflexivity | lia ].
Qed.

(** A mantissa with bits below its canonical position loses nothing when
    they are all 0. *)
Lemma binary_round_aux_exact sx mx ex m e :
  same_dyadic (Zpos mx) ex (Zpos m) e ->
  canonical_mantissa prec emax m e = true -> e <= emax - prec -> ex <= e ->
  binary_round_aux prec emax sx (Zpos mx) ex loc_Exact = S754_finite sx m e.
Proof.
  intros Hv Hc He Hle.
  pose proof (same_dyadic_digits _ _ _ _ Hv) as Hd.
  pose proof Hc as Hc'. unfold canonical_mantissa in Hc'. apply Z.eqb_eq in Hc'.
  apply (same_dyadic_at ex) in Hv; [ | lia .. ].
  rewrite Z.sub_diag in Hv. cbn [Z.pow] in Hv. rewrite Z.mul_1_r in Hv.
  destruct (e - ex) as [ | q | q] eqn:Hq; [ | | lia ].
  - assert (ex = e) by lia. subst ex.
    cbn [Z.pow] in Hv. assert (mx = m) by lia. subst mx.
    apply binary_round_aux_canonical; assumption.
  - unfold binary_round_aux, shr_fexp. cbn [Zdigits2 shr_record_of_loc].
    rewrite Hd, Hc', Hq. cbn [shr]. rewrite iter_pos_nat.
    replace (Zpos mx) with (Zpos m * 2 ^ Z.of_nat (Pos.to_nat q))
      by (rewrite positive_nat_Z; lia).
    rewrite shr_exact. cbn [loc_of_shr_record shr_m round_nearest_even].
    cbn [Zdigits2 shr_record_of_loc].
    replace (ex + Zpos q) with e by lia.
    rewrite Hc', Z.sub_diag. cbn [shr shr_m].
    destruct (Z.leb_spec e (emax - prec)); [ reflexivity | lia ].
Qed.

(** A number that has a canonical representation is rounded to it. *)
Lemma binary_round_canonical sx mx ex m e :
  same_dyadic (Zpos mx) ex (Zpos m) e ->
  canonical_mantissa prec emax m e = true -> e <= emax - prec ->
  binary_round prec emax sx mx ex = S754_finite sx m e.
Proof.
  intros Hv Hc He.
  pose proof (same_dyadic_digits _ _ _ _ Hv) as Hd.
  pose proof Hc as Hc'. unfold canonical_mantissa in Hc'. apply Z.eqb_eq in Hc'.
  unfold binary_round. rewrite Hd, Hc'.
  unfold shl_align.
  destruct (e - ex) as [ | q | q] eqn:Hq.
  - apply binary_round_aux_exact; [ assumption .. | lia ].
  - apply binary_round_aux_exact; [ assumption .. | lia ].
  - (* the mantissa is shifted left to [e] *)
    apply (same_dyadic_at e) in Hv; [ | lia .. ].
    rewrite Z.sub_diag in Hv. cbn [Z.pow] in Hv. rewrite Z.mul_1_r in Hv.
    replace (ex - e) with (Zpos q) in Hv by lia.
    rewrite <- iter_xO in Hv. injection Hv as Hv. rewrite Hv.
    apply binary_round_aux_canonical; assumption.
Qed.

End Exact.

Lemma same_dyadic_refl m e : same_dyadic m e m e.
Proof. reflexivity. Qed.

Lemma same_dyadic_opp m e n f :
  same_dyadic m e n f -> same_dyadic (- m) e (- n) f.
Proof. unfold same_dyadic. intros H. rewrite !Z.mul_opp_l, H. reflexivity. Qed.

Lemma same_dyadic_sign m e n f :
  same_dyadic m e n f -> (0 < m <-> 0 < n) /\ (m < 0 <-> n < 0).
Proof.
  unfold same_dyadic. intros H.
  pose proof (pow2_gt0 (e - Z.min e f) ltac:(lia)) as Pe.
  pose proof (pow2_gt0 (f - Z.min e f) ltac:(lia)) as Pf.
  nia.
Qed.

Lemma same_dyadic_shift k c p :
  0 <= p -> same_dyadic k c (k * 2 ^ p) (c - p).
Proof.
  intros Hp. apply (same_dyadic_at (c - p)); [ lia .. | ].
  rewrite Z.sub_diag, Z.mul_1_r. f_equal. f_equal. lia.
Qed.

Lemma same_dyadic_add m1 m2 e k1 k2 c :
  same_dyadic m1 e k1 c -> same_dyadic m2 e k2 c ->
  same_dyadic (m1 + m2) e (k1 + k2) c.
Proof.
  unfold same_dyadic. intros H1 H2. rewrite !Z.mul_add_distr_r. congruence.
Qed.

Lemma cond_Zopp_mul s a b : cond_Zopp s (a * b) = cond_Zopp s a * b.
Proof. destruct s; cbn [cond_Zopp]; lia. Qed.

Section ExactOps.

Variables prec emax : Z.
Hypothesis prec_pos : 0 < prec.

(** A number of at most [prec] bits at an exponent in range has a
    canonical representation. *)
Lemma canonical_repr k c :
  0 < k < 2 ^ prec -> emin prec emax + prec - 1 <= c <= emax - prec ->
  exists m e, same_dyadic k c (Zpos m) e /\
    canonical_mantissa prec emax m e = true /\ e <= emax - prec.
Proof.
  intros Hk Hc. destruct k as [ | q | q]; try lia.
  pose proof (digits2_pos_bounds q) as B.
  set (d := Zpos (digits2_pos q)) in *.
  assert (Hd1 : 0 < d) by (unfold d; lia).
  assert (Hd : d <= prec).
  { destruct (Z_le_gt_dec d prec) as [ | Hgt]; [ assumption | ].
    assert (2 ^ prec <= 2 ^ (d - 1)) by (apply Z.pow_le_mono_r; lia). lia. }
  set (s := prec - d).
  pose proof (pow2_gt0 s ltac:(unfold s; lia)) as Ps.
  assert (Hm : Zpos (Z.to_pos (Zpos q * 2 ^ s)) = Zpos q * 2 ^ s)
    by (apply Z2Pos.id; lia).
  exists (Z.to_pos (Zpos q * 2 ^ s)), (c - s). split; [ | split ].
  - rewrite Hm. apply same_dyadic_shift. unfold s; lia.
  - unfold canonical_mantissa. apply Z.eqb_eq.
    rewrite (digits2_pos_unique _ prec).
    + unfold fexp. unfold s in *. lia.
    + rewrite Hm. replace prec with (d + s) at 2 by (unfold s; lia).
      replace (prec - 1) with (d - 1 + s) by (unfold s; lia).
      rewrite !pow2_split by (unfold s; lia). nia.
  - unfold s. lia.
Qed.

(** [binary_normalize] is exact on such a number. *)
Lemma binary_normalize_exact a ea k c sz :
  same_dyadic a ea k c -> - 2 ^ prec < k < 2 ^ prec ->
  emin prec emax + prec - 1 <= c <= emax - prec ->
  has_value (binary_normalize prec emax a ea sz) k c.
Proof.
  intros Hv Hk Hc. pose proof (same_dyadic_sign _ _ _ _ Hv) as (Hp & Hn).
  destruct a as [ | mx | mx]; cbn [binary_normalize].
  - cbn [has_value]. lia.
  - destruct (canonical_repr k c) as (m & e & Hr & Hcan & He); [ lia | lia | ].
    rewrite (binary_round_canonical prec emax false mx ea m e);
      [ | eapply same_dyadic_trans; eassumption | assumption | assumption ].
    cbn [has_value cond_Zopp]. apply same_dyadic_sym. exact Hr.
  - destruct (canonical_repr (- k) c) as (m & e & Hr & Hcan & He); [ lia | lia | ].
    apply same_dyadic_opp in Hv. cbn [Z.opp] in Hv.
    rewrite (binary_round_canonical prec emax true mx ea m e);
      [ | eapply same_dyadic_trans; eassumption | assumption | assumption ].
    cbn [has_value cond_Zopp]. apply same_dyadic_sym in Hr.
    apply same_dyadic_opp in Hr. rewrite Z.opp_involutive in Hr. exact Hr.
Qed.

Lemma shl_align_fst mx ex ez :
  ez <= ex -> Zpos (fst (shl_align mx ex ez)) = Zpos mx * 2 ^ (ex - ez).
Proof.
  intros H. unfold shl_align. destruct (ez - ex) as [ | q | q] eqn:Hq; cbn [fst].
  - replace (ex - ez) with 0 by lia. lia.
  - lia.
  - rewrite iter_xO. f_equal. f_equal. lia.
Qed.

(** A sum that fits in [prec] bits at the exponent of its terms is exact. *)
Lemma SFadd_exact x y k1 k2 c :
  has_value x k1 c -> has_value y k2 c ->
  - 2 ^ prec < k1 + k2 < 2 ^ prec ->
  emin prec emax + prec - 1 <= c <= emax - prec ->
  has_value (SFadd prec emax x y) (k1 + k2) c.
Proof.
  intros Hx Hy Hk Hc.
  destruct x as [sx | sx | | sx mx ex]; cbn [has_value] in Hx; try contradiction;
    destruct y as [sy | sy | | sy my ey]; cbn [has_value] in Hy; try contradiction;
    cbn [SFadd].
  - subst. destruct sx, sy; cbn [has_value]; reflexivity.
  - subst. cbn [has_value]. exact Hy.
  - subst. cbn [has_value]. rewrite Z.add_0_r. exact Hx.
  - apply binary_normalize_exact; [ | assumption | assumption ].
    set (ez := Z.min ex ey).
    rewrite !shl_align_fst by (unfold ez; lia).
    rewrite !cond_Zopp_mul.
    apply same_dyadic_add.
    + eapply same_dyadic_trans; [ | exact Hx ].
      apply same_dyadic_sym.
      replace ez with (ex - (ex - ez)) at 2 by lia.
      apply same_dyadic_shift. unfold ez; lia.
    + eapply same_dyadic_trans; [ | exact Hy ].
      apply same_dyadic_sym.
      replace ez with (ey - (ey - ez)) at 2 by lia.
      apply same_dyadic_shift. unfold ez; lia.
Qed.

End ExactOps.

(** ** Integer parts *)

Lemma Zfloor2_value m e k c :
  same_dyadic m e k c -> c <= 0 -> Zfloor2 m e = k / 2 ^ (- c).
Proof.
  intros Hv Hc. unfold Zfloor2.
  destruct (Z.leb_spec 0 e) as [He | He].
  - apply (same_dyadic_at c) in Hv; [ | lia .. ].
    rewrite Z.sub_diag, Z.mul_1_r in Hv. subst k.
    replace (e - c) with (e + - c) by lia. rewrite pow2_split by lia.
    rewrite Z.mul_assoc, Z.div_mul; [ reflexivity | ].
    pose proof (pow2_gt0 (- c) ltac:(lia)). lia.
  - unfold same_dyadic in Hv. set (c0 := Z.min e c) in *.
    pose proof (pow2_gt0 (- e) ltac:(lia)) as Pe.
    pose proof (pow2_gt0 (- c) ltac:(lia)) as Pc.
    pose proof (pow2_gt0 (e - c0) ltac:(unfold c0; lia)) as Pe0.
    pose proof (pow2_gt0 (c - c0) ltac:(unfold c0; lia)) as Pc0.
    rewrite <- (Z.div_mul_cancel_r m (2 ^ (- e)) (2 ^ (e - c0))) by lia.
    rewrite <- (Z.div_mul_cancel_r k (2 ^ (- c)) (2 ^ (c - c0))) by lia.
    rewrite <- !pow2_split by (unfold c0; lia).
    rewrite Hv. f_equal. f_equal. lia.
Qed.

Lemma Zceil_Zfloor2 s m e :
  Zceil s m e = - Zfloor2 (- cond_Zopp s (Zpos m)) e.
Proof.
  unfold Zceil, Zfloor2. destruct (0 <=? e); lia.
Qed.

Lemma Ztrunc_Zfloor2 s m e :
  Ztrunc s m e = cond_Zopp s (Zfloor2 (Zpos m) e).
Proof. unfold Ztrunc, Zfloor2. destruct (0 <=? e); reflexivity. Qed.

Lemma Zceil_value s m e k c :
  same_dyadic (cond_Zopp s (Zpos m)) e k c -> c <= 0 ->
  Zceil s m e = - ((- k) / 2 ^ (- c)).
Proof.
  intros Hv Hc. rewrite Zceil_Zfloor2. f_equal.
  apply Zfloor2_value; [ | exact Hc ]. apply same_dyadic_opp. exact Hv.
Qed.

(** An integer value is its own integer part. *)
Lemma Ztrunc_integer s m e k :
  same_dyadic (cond_Zopp s (Zpos m)) e k 0 -> Ztrunc s m e = k.
Proof.
  intros Hv. rewrite Ztrunc_Zfloor2. destruct s; cbn [cond_Zopp] in *.
  - apply same_dyadic_opp in Hv. rewrite Z.opp_involutive in Hv.
    rewrite (Zfloor2_value _ _ (- k) 0 Hv) by lia.
    cbn. rewrite Z.div_1_r. lia.
  - rewrite (Zfloor2_value _ _ k 0 Hv) by lia. cbn. apply Z.div_1_r.
Qed.

Lemma Zround_value m e k c :
  same_dyadic (Zpos m) e k c -> c < 0 ->
  Zround false m e = (k + 2 ^ (- c - 1)) / 2 ^ (- c).
Proof.
  intros Hv Hc. unfold Zround. cbn [cond_Zopp].
  pose proof (pow2_gt0 (- c) ltac:(lia)) as Pc.
  pose proof (pow2_gt0 (- c - 1) ltac:(lia)) as Pc1.
  assert (Hhalf : 2 ^ (- c) = 2 * 2 ^ (- c - 1)).
  { rewrite <- Z.pow_succ_r by lia. f_equal. lia. }
  destruct (Z.leb_spec 0 e) as [He | He].
  - apply (same_dyadic_at c) in Hv; [ | lia .. ].
    rewrite Z.sub_diag, Z.mul_1_r in Hv. subst k.
    replace (e - c) with (e + - c) by lia. rewrite pow2_split by lia.
    rewrite Z.mul_assoc, Z.div_add_l by lia.
    rewrite Z.div_small by lia. lia.
  - rewrite <- (Zfloor2_value (Zpos m + 2 ^ (- e - 1)) e (k + 2 ^ (- c - 1)) c).
    + unfold Zfloor2. destruct (Z.leb_spec 0 e); [ lia | reflexivity ].
    + apply same_dyadic_add; [ exact Hv | ].
      unfold same_dyadic. set (c0 := Z.min e c).
      rewrite <- !pow2_split by (unfold c0; lia). f_equal. lia.
    + lia.
Qed.

(** ** The integer conversions of the cursor, on exact values *)

Lemma float_of_int_exact n :
  - 2 ^ 24 < n < 2 ^ 24 -> has_value (float_of_int n) n 0.
Proof.
  intros Hn. unfold float_of_int.
  apply binary_normalize_exact; [ reflexivity | apply same_dyadic_refl | exact Hn | ].
  unfold emin, f32_prec, f32_emax. lia.
Qed.

Lemma has_value_rescale x k p :
  0 <= p -> has_value x k 0 -> has_value x (k * 2 ^ p) (- p).
Proof.
  intros Hp. destruct x as [sx | sx | | sx mx ex]; cbn [has_value]; try tauto.
  - intros ->. reflexivity.
  - intros H. eapply same_dyadic_trans; [ exact H | ].
    change (- p) with (0 - p). apply same_dyadic_shift. exact Hp.
Qed.

Lemma float_to_unsigned_integer w x k :
  0 <= w -> has_value x k 0 ->
  float_to_unsigned w x = if (0 <=? k) && (k <? 2 ^ w) then Some k else None.
Proof.
  intros Hw. pose proof (pow2_gt0 w Hw) as Pw.
  destruct x as [sx | sx | | sx mx ex]; cbn [has_value]; try tauto.
  - intros ->. cbn [float_to_unsigned].
    destruct (Z.ltb_spec 0 (2 ^ w)); [ reflexivity | lia ].
  - intros H. cbn [float_to_unsigned]. rewrite (Ztrunc_integer _ _ _ _ H).
    reflexivity.
Qed.

Lemma fadd_exact x y k1 k2 c :
  has_value x k1 c -> has_value y k2 c ->
  - 2 ^ 24 < k1 + k2 < 2 ^ 24 -> - 126 <= c <= 104 ->
  has_value (fadd x y) (k1 + k2) c.
Proof.
  intros Hx Hy Hk Hc. unfold fadd.
  apply SFadd_exact; try assumption; unfold emin, f32_prec, f32_emax; lia.
Qed.

Lemma has_value_fneg x k c : has_value x k c -> has_value (fneg x) (- k) c.
Proof.
  destruct x as [sx | sx | | sx mx ex]; cbn [has_value fneg SFopp]; try tauto.
  - intros ->. reflexivity.
  - intros H. apply same_dyadic_opp in H. destruct sx; exact H.
Qed.

(** [x < 0] looks at the sign alone. *)
Lemma flt_zero x k c : has_value x k c -> flt x fzero = (k <? 0).
Proof.
  destruct x as [sx | sx | | sx mx ex]; cbn [has_value]; try tauto.
  - intros ->. reflexivity.
  - intros H. apply same_dyadic_sign in H. destruct H as (Hp & Hn).
    unfold flt, fzero, SFltb. cbn [SFcompare].
    destruct sx; cbn [cond_Zopp] in *.
    + destruct (Z.ltb_spec k 0); [ reflexivity | lia ].
    + destruct (Z.ltb_spec k 0); [ lia | reflexivity ].
Qed.

Lemma ceilf_exact x k c :
  has_value x k c -> c <= 0 ->
  - 2 ^ 24 < - ((- k) / 2 ^ (- c)) < 2 ^ 24 ->
  has_value (ceilf x) (- ((- k) / 2 ^ (- c))) 0.
Proof.
  intros Hx Hc Hb.
  destruct x as [sx | sx | | sx mx ex]; cbn [has_value] in Hx; try contradiction.
  - subst k. cbn [ceilf has_value]. cbn [Z.opp]. rewrite Z.div_0_l; [ reflexivity | ].
    pose proof (pow2_gt0 (- c) ltac:(lia)). lia.
  - cbn [ceilf]. rewrite (Zceil_value _ _ _ _ _ Hx Hc).
    apply binary_normalize_exact;
      [ reflexivity | apply same_dyadic_refl | exact Hb | ].
    unfold emin, f32_prec, f32_emax. lia.
Qed.

Lemma roundf_exact x k c :
  has_value x k c -> c < 0 -> 0 <= k ->
  (k + 2 ^ (- c - 1)) / 2 ^ (- c) < 2 ^ 24 ->
  has_value (roundf x) ((k + 2 ^ (- c - 1)) / 2 ^ (- c)) 0.
Proof.
  intros Hx Hc Hk Hb.
  pose proof (pow2_gt0 (- c) ltac:(lia)) as Pc.
  pose proof (pow2_gt0 (- c - 1) ltac:(lia)) as Pc1.
  assert (Hhalf : 2 ^ (- c) = 2 * 2 ^ (- c - 1)).
  { rewrite <- Z.pow_succ_r by lia. f_equal. lia. }
  destruct x as [sx | sx | | sx mx ex]; cbn [has_value] in Hx; try contradiction.
  - subst k. cbn [roundf has_value]. apply Z.div_small. lia.
  - cbn [roundf]. destruct sx; cbn [cond_Zopp] in Hx.
    + apply same_dyadic_sign in Hx. lia.
    + rewrite (Zround_value _ _ _ _ Hx Hc).
      apply binary_normalize_exact;
        [ reflexivity | apply same_dyadic_refl | | ].
      * split; [ | exact Hb ].
        assert (0 <= (k + 2 ^ (- c - 1)) / 2 ^ (- c))
          by (apply Z.div_pos; lia).
        unfold f32_prec. pose proof (pow2_gt0 24 ltac:(lia)). lia.
      * unfold emin, f32_prec, f32_emax. lia.
Qed.

(** [(unsigned int)ceilf(x + n)] where [x + n] is a number of 64ths
    that single precision has. *)
Lemma extent_exact x k n :
  is_64ths x k -> - 2 ^ 24 < n < 2 ^ 24 -> - 2 ^ 24 < k + 64 * n < 2 ^ 24 ->
  extent x n = if 0 <=? ceil64 k + n then Some (ceil64 k + n) else None.
Proof.
  unfold is_64ths. intros Hx Hn Hs.
  pose proof (float_of_int_exact n Hn) as Hf.
  apply (has_value_rescale _ _ 6) in Hf; [ | lia ].
  change (2 ^ 6) with 64 in Hf.
  pose proof (fadd_exact x (float_of_int n) k (n * 64) (- 6) Hx Hf
                ltac:(lia) ltac:(lia)) as Ha.
  assert (Hc : - ((- (k + n * 64)) / 2 ^ (- - 6)) = ceil64 k + n).
  { unfold ceil64. change (2 ^ (- - 6)) with 64.
    replace (- (k + n * 64)) with (- k + (- n) * 64) by lia.
    rewrite Z.div_add by lia. lia. }
  assert (Hb : - 2 ^ 24 < ceil64 k + n < 2 ^ 24).
  { rewrite <- Hc. clear Hc Hf Ha. change (2 ^ (- - 6)) with 64.
    change (2 ^ 24) with 16777216 in *. Z.to_euclidean_division_equations; lia. }
  apply ceilf_exact in Ha; [ | lia | rewrite Hc; exact Hb ].
  rewrite Hc in Ha.
  unfold extent, float_to_uint.
  rewrite (float_to_unsigned_integer UINT_WIDTH _ _ ltac:(unfold UINT_WIDTH; lia) Ha).
  destruct (Z.leb_spec 0 (ceil64 k + n)); cbn [andb]; [ | reflexivity ].
  destruct (Z.ltb_spec (ceil64 k + n) (2 ^ UINT_WIDTH)) as [ | Hge];
    [ reflexivity | ].
  unfold UINT_WIDTH in Hge. change (2 ^ 32) with 4294967296 in Hge.
  change (2 ^ 24) with 16777216 in Hb. lia.
Qed.

(** [(size_t)(x < 0 ? 0 : roundf(x))] *)
Lemma dest_origin_exact x k :
  is_64ths x k -> k < 2 ^ 24 ->
  dest_origin x = Some (if k <? 0 then 0 else round64 k).
Proof.
  unfold is_64ths. intros Hx Hk. unfold dest_origin.
  rewrite (flt_zero _ _ _ Hx).
  destruct (Z.ltb_spec k 0) as [Hneg | Hpos]; [ reflexivity | ].
  assert (Hr : (k + 2 ^ (- - 6 - 1)) / 2 ^ (- - 6) = round64 k) by reflexivity.
  assert (Hb : 0 <= round64 k < 2 ^ 24).
  { unfold round64. change (2 ^ 24) with 16777216 in *.
    Z.to_euclidean_division_equations; lia. }
  pose proof (roundf_exact x k (- 6) Hx ltac:(lia) Hpos
                ltac:(rewrite Hr; lia)) as Ha.
  rewrite Hr in Ha. unfold float_to_size_t.
  rewrite (float_to_unsigned_integer SIZE_WIDTH _ _ ltac:(unfold SIZE_WIDTH; lia) Ha).
  destruct (Z.leb_spec 0 (round64 k)); cbn [andb]; [ | lia ].
  destruct (Z.ltb_spec (round64 k) (2 ^ SIZE_WIDTH)) as [ | Hge];
    [ reflexivity | ].
  unfold SIZE_WIDTH in Hge. change (2 ^ 64) with 18446744073709551616 in Hge.
  change (2 ^ 24) with 16777216 in Hb. lia.
Qed.

(** [(size_t)(x < 0 ? ceilf(-x) : 0)] *)
Lemma src_origin_exact x k :
  is_64ths x k -> - 2 ^ 24 < k ->
  src_origin x = Some (if k <? 0 then ceil64 (- k) else 0).
Proof.
  unfold is_64ths. intros Hx Hk. unfold src_origin.
  rewrite (flt_zero _ _ _ Hx).
  destruct (Z.ltb_spec k 0) as [Hneg | Hpos]; [ | reflexivity ].
  assert (Hc : - ((- - k) / 2 ^ (- - 6)) = ceil64 (- k)) by reflexivity.
  assert (Hb : 0 <= ceil64 (- k) < 2 ^ 24).
  { unfold ceil64. change (2 ^ 24) with 16777216 in *.
    Z.to_euclidean_division_equations; lia. }
  pose proof (ceilf_exact _ _ _ (has_value_fneg _ _ _ Hx) ltac:(lia)
                ltac:(rewrite Hc; lia)) as Ha.
  rewrite Hc in Ha. unfold float_to_size_t.
  rewrite (float_to_unsigned_integer SIZE_WIDTH _ _ ltac:(unfold SIZE_WIDTH; lia) Ha).
  destruct (Z.leb_spec 0 (ceil64 (- k))); cbn [andb]; [ | lia ].
  destruct (Z.ltb_spec (ceil64 (- k)) (2 ^ SIZE_WIDTH)) as [ | Hge];
    [ reflexivity | ].
  unfold SIZE_WIDTH in Hge. change (2 ^ 64) with 18446744073709551616 in Hge.
  change (2 ^ 24) with 16777216 in Hb. lia.
Qed.

(** Where the cursor and the far edge of the glyph are numbers of 64ths
    that single precision has, the extent and the origins are the exact
    ones, and the glyph ends inside the extent. *)
Lemma exact_placement x n w k :
  extent x n = Some w -> is_64ths x k ->
  0 <= n -> - 2 ^ 24 < k -> k + 64 * n < 2 ^ 24 ->
  w = ceil64 k + n /\
  src_origin x = Some (src_column k) /\
  dest_origin x = Some (dest_column k) /\
  dest_column k + (n - src_column k) <= w.
Proof.
  intros Ew Hx Hn Hk Hs.
  assert (H24 : 2 ^ 24 = 16777216) by reflexivity.
  rewrite (extent_exact x k n Hx) in Ew by lia.
  destruct (0 <=? ceil64 k + n); [ | discriminate ].
  injection Ew as Ew.
  rewrite (src_origin_exact x k Hx Hk).
  rewrite (dest_origin_exact x k Hx) by lia.
  repeat split; [ lia | ].
  subst w. unfold src_column, dest_column, ceil64, round64.
  destruct (k <? 0); Z.to_euclidean_division_equations; lia.
Qed.


Section ExactOps2.

Variables prec emax : Z.
Hypothesis prec_pos : 0 < prec.

(** On a number other than 0 the result is a finite float in canonical
    form. *)
Lemma binary_normalize_finite a ea k c sz :
  a <> 0 -> same_dyadic a ea k c -> - 2 ^ prec < k < 2 ^ prec ->
  emin prec emax + prec - 1 <= c <= emax - prec ->
  exists s m e,
    binary_normalize prec emax a ea sz = S754_finite s m e /\
    canonical_mantissa prec emax m e = true /\
    same_dyadic (cond_Zopp s (Zpos m)) e k c.
Proof.
  intros Ha Hv Hk Hc. pose proof (same_dyadic_sign _ _ _ _ Hv) as (Hp & Hn).
  destruct a as [ | mx | mx]; cbn [binary_normalize]; [ contradiction | | ].
  - destruct (canonical_repr prec emax prec_pos k c) as (m & e & Hr & Hcan & He);
      [ lia | lia | ].
    exists false, m, e. split; [ | split ].
    + apply binary_round_canonical;
        [ eapply same_dyadic_trans; eassumption | assumption | assumption ].
    + exact Hcan.
    + cbn [cond_Zopp]. apply same_dyadic_sym. exact Hr.
  - destruct (canonical_repr prec emax prec_pos (- k) c)
      as (m & e & Hr & Hcan & He); [ lia | lia | ].
    apply same_dyadic_opp in Hv. cbn [Z.opp] in Hv.
    exists true, m, e. split; [ | split ].
    + apply binary_round_canonical;
        [ eapply same_dyadic_trans; eassumption | assumption | assumption ].
    + exact Hcan.
    + cbn [cond_Zopp]. apply same_dyadic_sym in Hr.
      apply same_dyadic_opp in Hr. rewrite Z.opp_involutive in Hr. exact Hr.
Qed.

(** A difference that fits in [prec] bits at the exponent of its terms is
    exact. *)
Lemma SFsub_exact x y k1 k2 c :
  has_value x k1 c -> has_value y k2 c ->
  - 2 ^ prec < k1 - k2 < 2 ^ prec ->
  emin prec emax + prec - 1 <= c <= emax - prec ->
  has_value (SFsub prec emax x y) (k1 - k2) c.
Proof.
  intros Hx Hy Hk Hc.
  destruct x as [sx | sx | | sx mx ex]; cbn [has_value] in Hx; try contradiction;
    destruct y as [sy | sy | | sy my ey]; cbn [has_value] in Hy; try contradiction;
    cbn [SFsub].
  - subst. destruct sx, sy; cbn [has_value]; reflexivity.
  - subst. cbn [has_value]. apply same_dyadic_opp in Hy.
    destruct sy; exact Hy.
  - subst. cbn [has_value]. rewrite Z.sub_0_r. exact Hx.
  - apply binary_normalize_exact; [ assumption | | assumption | assumption ].
    set (ez := Z.min ex ey).
    rewrite !shl_align_fst by (unfold ez; lia).
    rewrite !cond_Zopp_mul.
    rewrite <- !Z.add_opp_r. rewrite <- Z.mul_opp_l.
    apply same_dyadic_add.
    + eapply same_dyadic_trans; [ | exact Hx ].
      apply same_dyadic_sym.
      replace ez with (ex - (ex - ez)) at 2 by lia.
      apply same_dyadic_shift. unfold ez; lia.
    + eapply same_dyadic_trans; [ | apply same_dyadic_opp; exact Hy ].
      apply same_dyadic_sym.
      replace ez with (ey - (ey - ez)) at 2 by lia.
      apply same_dyadic_shift. unfold ez; lia.
Qed.

End ExactOps2.

(** ** The cursor: [x += (float)v / 64.0] *)

Lemma div_eucl_div_mod a b : Z.div_eucl a b = (a / b, a mod b).
Proof. unfold Z.div, Z.modulo. destruct (Z.div_eucl a b). reflexivity. Qed.

(** The quotient of a 24-bit mantissa by 64, as [SFdiv] computes it in
    double precision. *)
Lemma SFdiv_core_by_64 m e :
  Zpos (digits2_pos m) = 24 -> - 1000 <= e ->
  SFdiv_core_binary f64_prec f64_emax (Zpos m) e (Zpos 4503599627370496) (- 46)
  = (Zpos (m * 1073741824), e - 36, loc_Exact).
Proof.
  intros Hd He. unfold SFdiv_core_binary. cbn [Zdigits2]. rewrite Hd.
  change (Zpos (digits2_pos 4503599627370496)) with 53.
  assert (E : Z.min (fexp f64_prec f64_emax (24 + e - (53 + - 46))) (e - - 46)
              = e - 36)
    by (unfold fexp, emin, f64_prec, f64_emax; lia).
  rewrite E. replace (e - - 46 - (e - 36)) with 82 by lia.
  cbv beta iota zeta.
  rewrite Z.shiftl_mul_pow2 by lia.
  rewrite div_eucl_div_mod.
  replace (Zpos m * 2 ^ 82)
    with (Zpos (m * 1073741824) * Zpos 4503599627370496)
    by (rewrite Pos2Z.inj_mul, <- Z.mul_assoc; reflexivity).
  rewrite Z.div_mul, Z.mod_mul by lia.
  reflexivity.
Qed.

Lemma double_of_int_64 :
  double_of_int 64 = S754_finite false 4503599627370496 (- 46).
Proof. vm_compute. reflexivity. Qed.

(** [(float)v / 64.0] is [v / 64] exactly. *)
Lemma pos_to_pixels_exact v :
  - 2 ^ 24 < v < 2 ^ 24 -> has_value (pos_to_pixels v) v (- 6).
Proof.
  intros Hv. unfold pos_to_pixels, double_of_float, ddiv.
  rewrite double_of_int_64.
  destruct (Z.eq_dec v 0) as [-> | Hnz]; [ reflexivity | ].
  destruct (binary_normalize_finite f32_prec f32_emax ltac:(reflexivity)
              v 0 v 0 false Hnz (same_dyadic_refl _ _) Hv
              ltac:(unfold emin, f32_prec, f32_emax; lia))
    as (s & m & e & Ef & Hcan & Hval).
  unfold float_of_int. rewrite Ef. cbn [SFdiv].
  (* the mantissa has 24 bits and [-23 <= e <= 0] *)
  assert (Habs : same_dyadic (Zpos m) e (Z.abs v) 0).
  { destruct s; cbn [cond_Zopp] in Hval.
    - apply same_dyadic_opp in Hval. rewrite Z.opp_involutive in Hval.
      pose proof (same_dyadic_sign _ _ _ _ Hval) as (Hp & _).
      replace (Z.abs v) with (- v) by lia. exact Hval.
    - pose proof (same_dyadic_sign _ _ _ _ Hval) as (Hp & _).
      replace (Z.abs v) with v by lia. exact Hval. }
  assert (Hpos : 0 < Z.abs v < 2 ^ 24) by lia.
  destruct (Z.abs v) as [ | a | a] eqn:Ea; try lia.
  pose proof (same_dyadic_digits _ _ _ _ Habs) as Hdig.
  pose proof (digits2_pos_bounds a) as Ba.
  assert (Hda : 1 <= Zpos (digits2_pos a) <= 24).
  { split; [ lia | ].
    destruct (Z_le_gt_dec (Zpos (digits2_pos a)) 24) as [ | Hgt]; [ assumption | ].
    assert (2 ^ 24 <= 2 ^ (Zpos (digits2_pos a) - 1))
      by (apply Z.pow_le_mono_r; lia).
    lia. }
  unfold canonical_mantissa in Hcan. apply Z.eqb_eq in Hcan.
  unfold fexp, emin, f32_prec, f32_emax in Hcan.
  assert (Hd : Zpos (digits2_pos m) = 24) by lia.
  assert (He : - 23 <= e <= 0) by lia.
  rewrite (SFdiv_core_by_64 m e Hd) by lia.
  rewrite xorb_false_r.
  assert (Hm : 2 ^ 23 <= Zpos m < 2 ^ 24).
  { pose proof (digits2_pos_bounds m) as Bm. rewrite Hd in Bm. exact Bm. }
  rewrite (binary_round_aux_exact f64_prec f64_emax s (m * 1073741824) (e - 36)
             (m * 536870912) (e - 35)).
  - (* the value *)
    cbn [has_value].
    apply (same_dyadic_at (e - 35)); [ lia | lia | ].
    apply (same_dyadic_at e) in Hval; [ | lia .. ].
    rewrite Z.sub_diag, Z.mul_1_r in Hval. rewrite Z.sub_diag, Z.mul_1_r.
    rewrite Pos2Z.inj_mul, cond_Zopp_mul, Hval.
    replace (- 6 - (e - 35)) with ((0 - e) + 29) by lia.
    rewrite pow2_split by lia. change (2 ^ 29) with 536870912. lia.
  - apply (same_dyadic_at (e - 36)); [ lia | lia | ].
    rewrite Z.sub_diag, !Pos2Z.inj_mul.
    replace (e - 35 - (e - 36)) with 1 by lia. lia.
  - unfold canonical_mantissa. apply Z.eqb_eq.
    rewrite (digits2_pos_unique _ 53).
    + unfold fexp, emin, f64_prec, f64_emax. lia.
    + rewrite Pos2Z.inj_mul.
      change (2 ^ (53 - 1)) with (2 ^ 23 * 536870912).
      change (2 ^ 53) with (2 ^ 24 * 536870912). lia.
  - unfold f64_prec, f64_emax. lia.
  - lia.
Qed.

(** The conversion of a [double] to [float] loses nothing on a number
    [float] has. *)
Lemma float_of_double_exact d k c :
  has_value d k c -> - 2 ^ 24 < k < 2 ^ 24 -> - 126 <= c <= 104 ->
  has_value (float_of_double d) k c.
Proof.
  intros Hd Hk Hc.
  destruct d as [sd | sd | | sd md ed]; cbn [has_value] in Hd; try contradiction.
  - exact Hd.
  - cbn [float_of_double].
    replace (binary_round f32_prec f32_emax sd md ed)
      with (binary_normalize f32_prec f32_emax (cond_Zopp sd (Zpos md)) ed false)
      by (destruct sd; reflexivity).
    apply binary_normalize_exact; [ reflexivity | exact Hd | exact Hk | ].
    unfold emin, f32_prec, f32_emax. lia.
Qed.

(** [x += (float)v / 64.0] adds [v] 64ths exactly. *)
Lemma cursor_add_exact x v k :
  is_64ths x k -> - 2 ^ 24 < v < 2 ^ 24 -> - 2 ^ 24 < k + v < 2 ^ 24 ->
  is_64ths (cursor_add x v) (k + v).
Proof.
  unfold is_64ths. intros Hx Hv Hs. unfold cursor_add, double_of_float, dadd.
  apply float_of_double_exact; [ | exact Hs | lia ].
  apply SFadd_exact;
    [ reflexivity | exact Hx | apply pos_to_pixels_exact; exact Hv | | ].
  - unfold f64_prec. change (2 ^ 24) with 16777216 in Hs.
    change (2 ^ 53) with 9007199254740992. lia.
  - unfold emin, f64_prec, f64_emax. lia.
Qed.

(** [y -= (float)v / 64.0] takes [v] 64ths away exactly. *)
Lemma cursor_sub_exact y v k :
  is_64ths y k -> - 2 ^ 24 < v < 2 ^ 24 -> - 2 ^ 24 < k - v < 2 ^ 24 ->
  is_64ths (cursor_sub y v) (k - v).
Proof.
  unfold is_64ths. intros Hy Hv Hs. unfold cursor_sub, double_of_float, dsub.
  apply float_of_double_exact; [ | exact Hs | lia ].
  apply SFsub_exact;
    [ reflexivity | exact Hy | apply pos_to_pixels_exact; exact Hv | | ].
  - unfold f64_prec. change (2 ^ 24) with 16777216 in Hs.
    change (2 ^ 53) with 9007199254740992. lia.
  - unfold emin, f64_prec, f64_emax. lia.
Qed.

(** ** Memory blocks *)

Lemma len_nonneg b : 0 <= len b.
Proof. unfold len. lia. Qed.

Lemma load_nth_error b i : 0 <= i -> load b i = nth_error b (Z.to_nat i).
Proof.
  intros Hi. unfold load, len.
  destruct (Z.leb_spec 0 i); [ | lia ].
  destruct (Z.ltb_spec i (Z.of_nat (length b))); simpl; [ reflexivity | ].
  symmetry. apply nth_error_None. lia.
Qed.

Lemma load_neg b i : i < 0 -> load b i = None.
Proof. intros Hi. unfold load. destruct (Z.leb_spec 0 i); [ lia | reflexivity ]. Qed.

Lemma load_Some b i v : load b i = Some v -> 0 <= i < len b.
Proof.
  unfold load. destruct (Z.leb_spec 0 i); simpl; [ | discriminate ].
  destruct (Z.ltb_spec i (len b)); [ lia | discriminate ].
Qed.

Lemma load_in_range b i : 0 <= i < len b -> exists v, load b i = Some v.
Proof.
  intros Hi. rewrite load_nth_error by lia.
  destruct (nth_error b (Z.to_nat i)) as [v | ] eqn:E; [ eauto | ].
  apply nth_error_None in E. unfold len in Hi. lia.
Qed.

Lemma load_ext a b :
  len a = len b -> (forall i, 0 <= i < len a -> load a i = load b i) -> a = b.
Proof.
  intros Hl He. apply nth_error_ext. intros k.
  destruct (Nat.lt_ge_cases k (length a)) as [Hk | Hk].
  - specialize (He (Z.of_nat k)). rewrite !load_nth_error in He by lia.
    rewrite Nat2Z.id in He. apply He. unfold len. lia.
  - unfold len in Hl.
    rewrite (proj2 (nth_error_None a k)) by lia.
    rewrite (proj2 (nth_error_None b k)) by lia. reflexivity.
Qed.

Lemma len_zeros n : 0 <= n -> len (zeros n) = n.
Proof. intros Hn. unfold len, zeros. rewrite repeat_length. lia. Qed.

Lemma load_zeros n i : 0 <= i < n -> load (zeros n) i = Some 0.
Proof.
  intros Hi. rewrite load_nth_error by lia. unfold zeros.
  rewrite nth_error_repeat by lia. reflexivity.
Qed.

Lemma len_slice b off n :
  0 <= off -> 0 <= n -> off + n <= len b -> len (slice b off n) = n.
Proof.
  intros Ho Hn Hb. unfold len, slice in *.
  rewrite length_firstn, length_skipn. lia.
Qed.

Lemma load_slice b off n i :
  0 <= off -> 0 <= i < n -> load (slice b off n) i = load b (off + i).
Proof.
  intros Ho Hi. rewrite !load_nth_error by lia. unfold slice.
  rewrite nth_error_firstn.
  destruct (Nat.ltb_spec (Z.to_nat i) (Z.to_nat n)); [ | lia ].
  rewrite nth_error_skipn. f_equal. lia.
Qed.

Lemma memcpy_len dst doff src soff n d' :
  memcpy dst doff src soff n = Some d' -> len d' = len dst.
Proof.
  unfold memcpy. destruct (Z.leb_spec n 0).
  - intros H'. injection H' as <-. reflexivity.
  - destruct (Z.leb_spec 0 doff); simpl; [ | discriminate ].
    destruct (Z.leb_spec (doff + n) (len dst)); simpl; [ | discriminate ].
    destruct (Z.leb_spec 0 soff); simpl; [ | discriminate ].
    destruct (Z.leb_spec (soff + n) (len src)); simpl; [ | discriminate ].
    intros H'. injection H' as <-.
    pose proof (len_slice src soff n) as Hs.
    unfold len in *. rewrite !length_app, length_firstn, length_skipn.
    lia.
Qed.

Lemma memcpy_load dst doff src soff n d' i :
  memcpy dst doff src soff n = Some d' ->
  load d' i = if (doff <=? i) && (i <? doff + n)
              then load src (soff + (i - doff)) else load dst i.
Proof.
  unfold memcpy. destruct (Z.leb_spec n 0).
  - intros H'. injection H' as <-.
    destruct (Z.leb_spec doff i); simpl; [ | reflexivity ].
    destruct (Z.ltb_spec i (doff + n)); [ lia | reflexivity ].
  - destruct (Z.leb_spec 0 doff); simpl; [ | discriminate ].
    destruct (Z.leb_spec (doff + n) (len dst)); simpl; [ | discriminate ].
    destruct (Z.leb_spec 0 soff); simpl; [ | discriminate ].
    destruct (Z.leb_spec (soff + n) (len src)); simpl; [ | discriminate ].
    intros H'. injection H' as <-.
    destruct (Z.ltb_spec i 0) as [Hneg | Hpos].
    { rewrite (load_neg _ i Hneg).
      destruct (Z.leb_spec doff i); simpl; [ lia | ].
      rewrite load_neg by lia. reflexivity. }
    pose proof (len_slice src soff n) as Hs.
    unfold len in *.
    destruct (Z.leb_spec doff i); simpl.
    + destruct (Z.ltb_spec i (doff + n)).
      * rewrite load_nth_error by lia.
        rewrite nth_error_app2 by (rewrite length_firstn; lia).
        rewrite length_firstn.
        rewrite nth_error_app1 by lia.
        rewrite <- (load_slice src soff n (i - doff)) by lia.
        rewrite load_nth_error by lia. f_equal. lia.
      * rewrite !load_nth_error by lia.
        rewrite nth_error_app2 by (rewrite length_firstn; lia).
        rewrite length_firstn.
        rewrite nth_error_app2 by lia.
        rewrite nth_error_skipn. f_equal. lia.
    + rewrite !load_nth_error by lia.
      rewrite nth_error_app1 by (rewrite length_firstn; lia).
      rewrite nth_error_firstn.
      destruct (Nat.ltb_spec (Z.to_nat i) (Z.to_nat doff)); [ reflexivity | lia ].
Qed.

(** ** Runs of [memcpy] calls *)

Lemma memcpy_in_bounds dst src c :
  in_bounds dst src c ->
  exists d', memcpy dst (mc_dst c) src (mc_src c) (mc_n c) = Some d'.
Proof.
  unfold in_bounds, memcpy. intros H.
  destruct (Z.leb_spec (mc_n c) 0); [ eauto | ].
  destruct H as [H | (H1 & H2 & H3 & H4)]; [ lia | ].
  destruct (Z.leb_spec 0 (mc_dst c)); [ | lia ].
  destruct (Z.leb_spec (mc_dst c + mc_n c) (len dst)); [ | lia ].
  destruct (Z.leb_spec 0 (mc_src c)); [ | lia ].
  destruct (Z.leb_spec (mc_src c + mc_n c) (len src)); [ | lia ].
  simpl. eauto.
Qed.

Lemma run_memcpys_len calls : forall dst src d',
  run_memcpys dst src calls = Some d' -> len d' = len dst.
Proof.
  induction calls as [ | c rest IH]; simpl; intros dst src d' H.
  - injection H as <-. reflexivity.
  - destruct (memcpy dst (mc_dst c) src (mc_src c) (mc_n c)) as [d1 | ] eqn:E;
      [ | discriminate ].
    rewrite (IH _ _ _ H). eapply memcpy_len; eassumption.
Qed.

Lemma run_memcpys_succeeds calls : forall dst src,
  Forall (in_bounds dst src) calls ->
  exists d', run_memcpys dst src calls = Some d'.
Proof.
  induction calls as [ | c rest IH]; simpl; intros dst src H.
  - eauto.
  - inversion H as [ | ? ? Hc Hrest ]; subst.
    destruct (memcpy_in_bounds _ _ _ Hc) as [d1 E]. rewrite E.
    apply IH. apply memcpy_len in E.
    revert Hrest. apply Forall_impl. unfold in_bounds. rewrite E. tauto.
Qed.

Lemma run_memcpys_untouched calls : forall dst src d' i,
  run_memcpys dst src calls = Some d' ->
  (forall c, In c calls -> ~ written c i) ->
  load d' i = load dst i.
Proof.
  induction calls as [ | c rest IH]; simpl; intros dst src d' i H Hw.
  - injection H as <-. reflexivity.
  - destruct (memcpy dst (mc_dst c) src (mc_src c) (mc_n c)) as [d1 | ] eqn:E;
      [ | discriminate ].
    rewrite (IH _ _ _ i H) by (intros c' Hc'; apply Hw; right; exact Hc').
    rewrite (memcpy_load _ _ _ _ _ _ i E).
    assert (Hc : ~ written c i) by (apply Hw; left; reflexivity).
    unfold written in Hc.
    destruct (Z.leb_spec (mc_dst c) i); simpl; [ | reflexivity ].
    destruct (Z.ltb_spec i (mc_dst c + mc_n c)); [ lia | reflexivity ].
Qed.

Lemma run_memcpys_written calls : forall dst src d' c i,
  run_memcpys dst src calls = Some d' ->
  no_overwrite calls -> In c calls -> written c i ->
  load d' i = load src (mc_src c + (i - mc_dst c)).
Proof.
  induction calls as [ | c0 rest IH]; simpl; intros dst src d' c i H Hno Hin Hw.
  - contradiction.
  - destruct (memcpy dst (mc_dst c0) src (mc_src c0) (mc_n c0)) as [d1 | ] eqn:E;
      [ | discriminate ].
    destruct Hno as [Hhead Hrest].
    destruct Hin as [-> | Hin].
    + rewrite (run_memcpys_untouched _ _ _ _ i H)
        by (intros c' Hc'; apply (Hhead c' i Hc' Hw)).
      rewrite (memcpy_load _ _ _ _ _ _ i E).
      unfold written in Hw.
      destruct (Z.leb_spec (mc_dst c) i); [ | lia ].
      destruct (Z.ltb_spec i (mc_dst c + mc_n c)); [ reflexivity | lia ].
    + eapply IH; eassumption.
Qed.

(** ** [ensure_space] *)

Lemma ensure_space_copies_In gw gh w r c :
  In c (ensure_space_copies gw gh w r) <->
  exists r', r <= r' < gh /\
    c = {| mc_dst := to_uint (r' * w); mc_src := to_uint (r' * gw); mc_n := gw |}.
Proof.
  funelim (ensure_space_copies gw gh w r).
  - simpl. rewrite H. split.
    + intros [<- | (r' & Hr & ->)].
      * exists r. split; [ lia | reflexivity ].
      * exists r'. split; [ lia | reflexivity ].
    + intros (r' & Hr & ->).
      destruct (Z.eq_dec r' r) as [-> | Hne]; [ left; reflexivity | ].
      right. exists r'. split; [ lia | reflexivity ].
  - simpl. split; [ contradiction | ]. intros (r' & Hr & _). lia.
Qed.

Lemma same_row w r y x n :
  0 <= x < w -> 0 <= n <= w -> r * w <= y * w + x < r * w + n ->
  y = r /\ x < n.
Proof.
  intros Hx Hn H.
  assert (y = r) as ->; [ | lia ].
  destruct (Z.lt_trichotomy y r) as [Hlt | [Heq | Hgt]]; [ | exact Heq | ].
  - assert ((y + 1) * w <= r * w) by (apply Z.mul_le_mono_nonneg_r; lia). lia.
  - assert ((r + 1) * w <= y * w) by (apply Z.mul_le_mono_nonneg_r; lia). lia.
Qed.

Lemma row_offset_bound w h y x :
  0 <= y < h -> 0 <= x < w -> 0 <= y * w + x < w * h.
Proof.
  intros Hy Hx.
  assert ((y + 1) * w <= h * w) by (apply Z.mul_le_mono_nonneg_r; lia).
  assert (0 <= y * w) by (apply Z.mul_nonneg_nonneg; lia).
  lia.
Qed.

Lemma to_uint_row w h r :
  0 <= w -> 0 <= r < h -> w * h < 2 ^ UINT_WIDTH -> to_uint (r * w) = r * w.
Proof.
  intros Hw Hr Hb. apply to_uint_small. unfold is_uint.
  destruct (Z.eq_dec w 0) as [-> | Hne]; [ rewrite Z.mul_0_r; split; [lia | reflexivity] | ].
  pose proof (row_offset_bound w h r 0 Hr). lia.
Qed.

Lemma ensure_space_copies_no_overwrite g_width g_height width r :
  0 <= r -> 0 <= g_width <= width -> width * g_height < 2 ^ UINT_WIDTH ->
  no_overwrite (ensure_space_copies g_width g_height width r).
Proof.
  funelim (ensure_space_copies g_width g_height width r);
    intros Hr Hgw Hb; simpl; [ | exact I ].
  split; [ | apply H; lia ].
  intros c' p Hin Hw Hw'.
  apply ensure_space_copies_In in Hin. destruct Hin as (r' & Hr' & ->).
  unfold written in *. cbn [mc_dst mc_n mc_src] in *.
  rewrite (to_uint_row width g_height) in Hw, Hw' by lia.
  assert ((r + 1) * width <= r' * width)
    by (apply Z.mul_le_mono_nonneg_r; lia).
  lia.
Qed.

Lemma ensure_space_copies_in_bounds gw gh w h r dst src :
  0 <= r -> 0 <= gw <= w -> gh <= h -> w * h < 2 ^ UINT_WIDTH ->
  len dst = w * h -> len src = gw * gh ->
  Forall (in_bounds dst src) (ensure_space_copies gw gh w r).
Proof.
  intros Hr Hgw Hgh Hb Hd Hs. apply Forall_forall. intros c Hin.
  apply ensure_space_copies_In in Hin. destruct Hin as (r' & Hr' & ->).
  unfold in_bounds. cbn [mc_dst mc_n mc_src].
  destruct (Z.eq_dec gw 0) as [-> | Hne]; [ left; lia | right ].
  rewrite (to_uint_row w h) by lia.
  assert (gw * h <= w * h) by (apply Z.mul_le_mono_nonneg_r; lia).
  rewrite (to_uint_row gw h) by lia.
  rewrite Hd, Hs.
  pose proof (row_offset_bound w h r' (gw - 1)).
  pose proof (row_offset_bound gw gh r' (gw - 1)).
  assert (0 <= r' * w) by (apply Z.mul_nonneg_nonneg; lia).
  assert (0 <= r' * gw) by (apply Z.mul_nonneg_nonneg; lia).
  lia.
Qed.

Section EnsureSpaceFacts.
Variable alloc_ok : Z -> bool.

Lemma ensure_space_succeeds g width height :
  wf_GlyphBuffer g -> gb_width g <= width -> gb_height g <= height ->
  width * height < 2 ^ UINT_WIDTH ->
  alloc_ok (width * height) = true ->
  exists g', ensure_space alloc_ok g width height = Returns (true, g').
Proof.
  intros (Hw & Hh & Hlen) Hgw Hgh Hb Hal. unfold ensure_space.
  destruct ((width <=? gb_width g) && (height <=? gb_height g)); [ eauto | ].
  unfold is_uint in *.
  assert (0 <= width * height) by (apply Z.mul_nonneg_nonneg; lia).
  rewrite to_uint_small by (unfold is_uint; lia).
  unfold calloc. rewrite Hal.
  destruct (run_memcpys_succeeds
              (ensure_space_copies (gb_width g) (gb_height g) width 0)
              (zeros (width * height)) (block (buf g))) as [d' E].
  { apply ensure_space_copies_in_bounds with (h := height); try lia.
    apply len_zeros. lia. }
  rewrite E. simpl. eauto.
Qed.

End EnsureSpaceFacts.

(** ** [apply_bitmap] *)

Lemma apply_bitmap_copies_In dest_width dest_height src_width src_height
  dest_start_x width sy dy c :
  In c (apply_bitmap_copies dest_width dest_height src_width src_height
          dest_start_x width sy dy) <->
  exists k, 0 <= k /\ sy + k < src_height /\ dy + k < dest_height /\
    c = {| mc_dst := dest_start_x + to_size_t ((dy + k) * dest_width);
           mc_src := to_size_t ((sy + k) * src_width);
           mc_n := width |}.
Proof.
  funelim (apply_bitmap_copies dest_width dest_height src_width src_height
             dest_start_x width sy dy); simpl.
  all: try (split; [ contradiction | intros (k & Hk & Hs & Hd & _); lia ]).
  rewrite H. split.
  - intros [<- | (k & Hk & Hs & Hd & ->)].
    + exists 0. rewrite !Z.add_0_r. repeat split; try lia.
    + exists (k + 1). rewrite !Z.add_assoc.
      replace (sy + k + 1) with (sy + 1 + k) by lia.
      replace (dy + k + 1) with (dy + 1 + k) by lia.
      repeat split; try lia.
  - intros (k & Hk & Hs & Hd & ->).
    destruct (Z.eq_dec k 0) as [-> | Hne].
    + left. rewrite !Z.add_0_r. reflexivity.
    + right. exists (k - 1).
      replace (sy + 1 + (k - 1)) with (sy + k) by lia.
      replace (dy + 1 + (k - 1)) with (dy + k) by lia.
      repeat split; try lia.
Qed.

Lemma run_memcpys_nothing calls : forall dst src,
  (forall c, In c calls -> mc_n c <= 0) ->
  run_memcpys dst src calls = Some dst.
Proof.
  induction calls as [ | c rest IH]; simpl; intros dst src Hn; [ reflexivity | ].
  unfold memcpy.
  destruct (Z.leb_spec (mc_n c) 0) as [ _ | Hpos ].
  - apply IH. intros c' Hc'. apply Hn. right. exact Hc'.
  - specialize (Hn c (or_introl eq_refl)). lia.
Qed.

Lemma with_block_same g : with_block g (block (buf g)) = g.
Proof. destruct g as [[b | ] w h m]; reflexivity. Qed.

Lemma block_with_block g b :
  len b = len (block (buf g)) -> block (buf (with_block g b)) = b.
Proof.
  destruct g as [[b0 | ] w h m]; simpl; intros H; [ reflexivity | ].
  destruct b; [ reflexivity | ]. unfold len in H. simpl in H. lia.
Qed.

Lemma ZERO_SUB_range a b : 0 <= ZERO_SUB a b.
Proof.
  unfold ZERO_SUB. destruct (Z.leb_spec a b); [ lia | ].
  unfold to_size_t. apply Z.mod_pos_bound. reflexivity.
Qed.

Lemma ZERO_SUB_pos a b :
  is_size_t a -> is_size_t b -> 0 < ZERO_SUB a b -> b < a /\ ZERO_SUB a b = a - b.
Proof.
  unfold ZERO_SUB, is_size_t. intros Ha Hb.
  destruct (Z.leb_spec a b); [ lia | ].
  intros _. split; [ lia | ]. apply to_size_t_small. unfold is_size_t. lia.
Qed.

Lemma is_uint_size_t z : is_uint z -> is_size_t z.
Proof.
  unfold is_uint, is_size_t, UINT_WIDTH, SIZE_WIDTH.
  change (2 ^ 32) with 4294967296. change (2 ^ 64) with 18446744073709551616.
  lia.
Qed.

Lemma uint_mul_size_t a b : is_uint a -> is_uint b -> is_size_t (a * b).
Proof.
  unfold is_uint, is_size_t, UINT_WIDTH, SIZE_WIDTH.
  change (2 ^ 32) with 4294967296. change (2 ^ 64) with 18446744073709551616.
  intros Ha Hb. split; [ apply Z.mul_nonneg_nonneg; lia | ].
  assert (a * b <= 4294967295 * 4294967295)
    by (apply Z.mul_le_mono_nonneg; lia).
  lia.
Qed.

(** Every call reads its source row from the first byte of the row:
    [src + sy * src_width], whatever [src_start.x] is. *)
Lemma apply_bitmap_calls_source dest bitmap src_start dest_start c :
  In c (apply_bitmap_calls dest bitmap src_start dest_start) ->
  exists sy, pt_y src_start <= sy < bm_rows bitmap /\
    mc_src c = to_size_t (sy * to_size_t (bm_pitch bitmap)).
Proof.
  unfold apply_bitmap_calls. intros Hin.
  apply apply_bitmap_copies_In in Hin.
  destruct Hin as (k & Hk & Hs & Hd & ->).
  exists (pt_y src_start + k). split; [ lia | reflexivity ].
Qed.

Lemma apply_bitmap_result dest bitmap src_start dest_start g' :
  apply_bitmap dest bitmap src_start dest_start = Returns g' ->
  exists newbuf,
    run_memcpys (block (buf dest)) (bm_buffer bitmap)
      (apply_bitmap_calls dest bitmap src_start dest_start) = Some newbuf /\
    g' = with_block dest newbuf.
Proof.
  unfold apply_bitmap.
  destruct (run_memcpys _ _ _) as [newbuf | ]; [ | discriminate ].
  simpl. intros H. injection H as <-. eauto.
Qed.

(** X1.  On a canvas and a bitmap whose buffers have the size their
    dimensions announce, no call of [memcpy] that [apply_bitmap] makes
    leaves its blocks, neither the one it reads nor the one it writes:
    the call returns. *)
Lemma apply_bitmap_defined dest bitmap src_start dest_start :
  wf_GlyphBuffer dest ->
  is_uint (bm_rows bitmap) -> 0 <= bm_pitch bitmap < 2 ^ (UINT_WIDTH - 1) ->
  len (bm_buffer bitmap) = bm_rows bitmap * bm_pitch bitmap ->
  is_size_t (pt_x src_start) -> is_size_t (pt_y src_start) ->
  is_size_t (pt_x dest_start) -> is_size_t (pt_y dest_start) ->
  exists g', apply_bitmap dest bitmap src_start dest_start = Returns g'.
Proof.
  intros (HW & HH & Hlen) Hrows Hpitch Hsrc Hsx Hsy Hdx Hdy.
  assert (Hp : is_uint (bm_pitch bitmap)).
  { unfold is_uint, UINT_WIDTH in *. change (2 ^ (32 - 1)) with 2147483648 in Hpitch.
    change (2 ^ 32) with 4294967296. lia. }
  unfold apply_bitmap.
  destruct (run_memcpys_succeeds
              (apply_bitmap_calls dest bitmap src_start dest_start)
              (block (buf dest)) (bm_buffer bitmap)) as [newbuf E].
  2:{ rewrite E. cbn [defined bind]. eauto. }
  apply Forall_forall. intros c Hin. unfold apply_bitmap_calls in Hin.
  apply apply_bitmap_copies_In in Hin. destruct Hin as (k & Hk & Hs & Hd & ->).
  unfold in_bounds. cbn [mc_dst mc_src mc_n].
  destruct (Z_le_gt_dec (apply_bitmap_width dest bitmap src_start dest_start) 0)
    as [Hz | Hn]; [ left; exact Hz | right ].
  unfold apply_bitmap_width in *. rewrite MIN_spec in *.
  rewrite (to_size_t_small (bm_pitch bitmap)) in *
    by (apply is_uint_size_t; exact Hp).
  destruct (ZERO_SUB_pos (gb_width dest) (pt_x dest_start)) as [Hltd Heqd];
    [ apply is_uint_size_t; exact HW | exact Hdx | lia | ].
  destruct (ZERO_SUB_pos (bm_pitch bitmap) (pt_x src_start)) as [Hlts Heqs];
    [ apply is_uint_size_t; exact Hp | exact Hsx | lia | ].
  rewrite Heqd, Heqs, Hlen, Hsrc.
  unfold is_size_t in Hsx, Hsy, Hdx, Hdy.
  rewrite (to_size_t_small ((pt_y dest_start + k) * gb_width dest))
    by (apply uint_mul_size_t; unfold is_uint in *; lia).
  rewrite (to_size_t_small ((pt_y src_start + k) * bm_pitch bitmap))
    by (apply uint_mul_size_t; unfold is_uint in *; lia).
  unfold is_uint in HW, HH, Hrows, Hp.
  pose proof (row_offset_bound (gb_width dest) (gb_height dest)
                (pt_y dest_start + k) (gb_width dest - 1)).
  pose proof (row_offset_bound (bm_pitch bitmap) (bm_rows bitmap)
                (pt_y src_start + k) (bm_pitch bitmap - 1)).
  assert (0 <= (pt_y dest_start + k) * gb_width dest)
    by (apply Z.mul_nonneg_nonneg; lia).
  assert (0 <= (pt_y src_start + k) * bm_pitch bitmap)
    by (apply Z.mul_nonneg_nonneg; lia).
  rewrite (Z.mul_comm (bm_rows bitmap) (bm_pitch bitmap)).
  lia.
Qed.

(** C9.  [apply_bitmap] writes only inside the canvas, each call of
    [memcpy] inside the row it is made for; with a clipped width of zero
    or no row to copy it writes nothing and leaves the canvas as it is;
    the bytes no call writes to keep their values. *)
Theorem apply_bitmap_writes_inside dest bitmap src_start dest_start :
  is_uint (gb_width dest) -> is_uint (gb_height dest) ->
  is_size_t (pt_x dest_start) -> is_size_t (pt_y dest_start) ->
  let calls := apply_bitmap_calls dest bitmap src_start dest_start in
  (forall c p, In c calls -> written c p ->
     exists dy, pt_y dest_start <= dy < gb_height dest /\
       mc_dst c = pt_x dest_start + dy * gb_width dest /\
       dy * gb_width dest <= p < (dy + 1) * gb_width dest /\
       0 <= p < gb_width dest * gb_height dest) /\
  (apply_bitmap_width dest bitmap src_start dest_start = 0 \/
   ~ (pt_y src_start < bm_rows bitmap /\ pt_y dest_start < gb_height dest) ->
     (forall c p, In c calls -> ~ written c p) /\
     apply_bitmap dest bitmap src_start dest_start = Returns dest) /\
  (forall g', apply_bitmap dest bitmap src_start dest_start = Returns g' ->
     gb_width g' = gb_width dest /\ gb_height g' = gb_height dest /\
     len (block (buf g')) = len (block (buf dest)) /\
     forall p, (forall c, In c calls -> ~ written c p) ->
       load (block (buf g')) p = load (block (buf dest)) p).
Proof.
  intros HW HH Hdx Hdy calls. subst calls.
  split; [ | split ].
  - intros c p Hin Hw. unfold apply_bitmap_calls in Hin.
    apply apply_bitmap_copies_In in Hin. destruct Hin as (k & Hk & Hs & Hd & ->).
    unfold written in Hw. cbn [mc_dst mc_n] in Hw.
    exists (pt_y dest_start + k).
    assert (Hn : 0 < apply_bitmap_width dest bitmap src_start dest_start) by lia.
    unfold apply_bitmap_width in Hn, Hw. rewrite MIN_spec in Hn, Hw.
    pose proof (ZERO_SUB_range (to_size_t (bm_pitch bitmap)) (pt_x src_start)).
    destruct (ZERO_SUB_pos (gb_width dest) (pt_x dest_start)) as [Hlt Heq];
      [ apply is_uint_size_t; exact HW | exact Hdx | lia | ].
    rewrite Heq in Hw.
    unfold is_size_t in Hdx, Hdy. unfold is_uint in HW, HH.
    assert (Hrow : to_size_t ((pt_y dest_start + k) * gb_width dest)
                   = (pt_y dest_start + k) * gb_width dest).
    { apply to_size_t_small. apply uint_mul_size_t; unfold is_uint; lia. }
    rewrite Hrow in Hw. cbn [mc_dst]. rewrite Hrow.
    pose proof (row_offset_bound (gb_width dest) (gb_height dest)
                  (pt_y dest_start + k)
                  (p - (pt_y dest_start + k) * gb_width dest)).
    lia.
  - intros Hempty.
    assert (Hnone : forall c,
              In c (apply_bitmap_calls dest bitmap src_start dest_start) ->
              mc_n c <= 0).
    { intros c Hin. unfold apply_bitmap_calls in Hin.
      apply apply_bitmap_copies_In in Hin.
      destruct Hin as (k & Hk & Hs & Hd & ->). cbn [mc_n].
      unfold is_size_t in Hdy. destruct Hempty as [H0 | Hrows]; lia. }
    split.
    + intros c p Hin Hw. specialize (Hnone c Hin). unfold written in Hw. lia.
    + unfold apply_bitmap. rewrite run_memcpys_nothing by exact Hnone.
      simpl. rewrite with_block_same. reflexivity.
  - intros g' Hret. apply apply_bitmap_result in Hret.
    destruct Hret as (newbuf & Erun & ->).
    pose proof (run_memcpys_len _ _ _ _ Erun) as Hlen.
    rewrite block_with_block by exact Hlen.
    split; [ reflexivity | ]. split; [ reflexivity | ].
    split; [ exact Hlen | ].
    intros p Hp. eapply run_memcpys_untouched; [ exact Erun | exact Hp ].
Qed.

(** ** [trim_to_width] *)

Lemma blank_columns_from_right_nonneg src rows width n :
  0 <= blank_columns_from_right src rows width n.
Proof.
  induction n as [ | k IH]; cbn [blank_columns_from_right]; [ lia | ].
  destruct (blank_column src rows width (Z.of_nat k)); lia.
Qed.

Lemma column_scan_blank src rows width x : forall fuel k,
  0 <= x < width -> 0 <= k -> k + Z.of_nat fuel = rows ->
  rows * width < 2 ^ SIZE_WIDTH -> rows * width <= len src ->
  column_scan fuel src rows width x (k * width)
  = Returns (negb (forallb (blank_pixel src width x) (Zrange k fuel))).
Proof.
  induction fuel as [ | fuel IH]; intros k Hx Hk Hrows Hb Hlen.
  - assert (k = rows) as -> by lia. simpl.
    destruct (Z.ltb_spec (rows * width) (to_ulong (rows * width))) as [Hlt | _];
      [ | reflexivity ].
    pose proof (to_ulong_range (rows * width)) as Hr.
    rewrite to_ulong_small in Hlt; [ lia | ].
    unfold is_ulong. split; [ apply Z.mul_nonneg_nonneg; lia | exact Hb ].
  - cbn [column_scan Zrange forallb].
    assert (Hrw : 0 <= rows * width) by (apply Z.mul_nonneg_nonneg; lia).
    rewrite (to_ulong_small (rows * width)) by (unfold is_ulong; lia).
    pose proof (row_offset_bound width rows k x) as Hoff.
    rewrite (Z.mul_comm width rows) in Hoff.
    assert (Hkw : 0 <= k * width) by (apply Z.mul_nonneg_nonneg; lia).
    destruct (Z.ltb_spec (k * width) (rows * width)) as [_ | Hge]; [ | lia ].
    rewrite (to_ulong_small (x + k * width)) by (unfold is_ulong; lia).
    unfold blank_pixel at 1. rewrite (Z.add_comm x (k * width)).
    destruct (load_in_range src (k * width + x)) as [v Hv]; [ lia | ].
    rewrite Hv.
    destruct (Z.ltb_spec 200 v) as [Hink | Hblank].
    + destruct (Z.leb_spec v 200); [ lia | reflexivity ].
    + destruct (Z.leb_spec v 200); [ | lia ]. simpl.
      assert ((k + 1) * width <= rows * width)
        by (apply Z.mul_le_mono_nonneg_r; lia).
      rewrite (to_ulong_small (k * width + width)) by (unfold is_ulong; lia).
      replace (k * width + width) with ((k + 1) * width) by lia.
      apply IH; lia.
Qed.

Lemma trim_scan_done src rows width extra x rtrim :
  trim_scan src rows width extra x rtrim true = Returns rtrim.
Proof. simp trim_scan. reflexivity. Qed.

Lemma trim_scan_blank_columns src rows width extra x rtrim b :
  b = false ->
  0 <= rows -> -1 <= x < width -> 0 <= rtrim <= extra ->
  extra < 2 ^ SIZE_WIDTH ->
  rows * width < 2 ^ SIZE_WIDTH -> rows * width <= len src ->
  trim_scan src rows width extra x rtrim b
  = Returns (Z.min extra
               (rtrim + blank_columns_from_right src rows width (Z.to_nat (x + 1)))).
Proof.
  funelim (trim_scan src rows width extra x rtrim b);
    intros Hb Hrows Hx Hrt Hex Hov Hlen; try discriminate.
  all: pose proof (blank_columns_from_right_nonneg src rows width (Z.to_nat (x + 1))).
  all: try (f_equal; (assert (x = -1) as -> by lia; simpl; lia) || lia).
  all: replace (Z.to_nat (x + 1)) with (S (Z.to_nat x)) in * by lia;
       cbn [blank_columns_from_right] in *; rewrite Z2Nat.id in * by lia.
  all: pose proof (column_scan_blank src rows width x (Z.to_nat rows) 0) as Hcol;
       rewrite Z.mul_0_l in Hcol; rewrite Hcol in Heq by lia;
       fold (blank_column src rows width x) in Heq.
  all: try discriminate.
  all: injection Heq as Hbl; apply (f_equal negb) in Hbl;
       rewrite negb_involutive in Hbl; simpl in Hbl; rewrite Hbl in *.
  - rewrite trim_scan_done. f_equal. lia.
  - rewrite H by (try reflexivity; try lia;
                  rewrite to_ulong_small by (unfold is_ulong; lia); lia).
    rewrite to_ulong_small by (unfold is_ulong; lia).
    replace (x - 1 + 1) with x by lia. f_equal. lia.
Qed.

Lemma to_ulong_row w h r :
  0 <= w -> 0 <= r < h -> w * h < 2 ^ SIZE_WIDTH -> to_ulong (r * w) = r * w.
Proof.
  intros Hw Hr Hb. apply to_ulong_small. unfold is_ulong.
  destruct (Z.eq_dec w 0) as [-> | Hne];
    [ rewrite Z.mul_0_r; split; [lia | reflexivity] | ].
  pose proof (row_offset_bound w h r 0 Hr). lia.
Qed.

Lemma trim_copies_In rows width cell_width ltrim y c :
  In c (trim_copies rows width cell_width ltrim y) <->
  exists y', y <= y' < rows /\
    c = {| mc_dst := to_ulong (y' * cell_width);
           mc_src := ltrim + to_ulong (y' * width);
           mc_n := cell_width |}.
Proof.
  funelim (trim_copies rows width cell_width ltrim y); simpl.
  - rewrite H. split.
    + intros [<- | (y' & Hy & ->)].
      * exists y. split; [ lia | reflexivity ].
      * exists y'. split; [ lia | reflexivity ].
    + intros (y' & Hy & ->).
      destruct (Z.eq_dec y' y) as [-> | Hne]; [ left; reflexivity | ].
      right. exists y'. split; [ lia | reflexivity ].
  - split; [ contradiction | ]. intros (y' & Hy & _). lia.
Qed.

Lemma trim_copies_no_overwrite rows width cell_width ltrim y :
  0 <= y -> 0 <= cell_width -> cell_width * rows < 2 ^ SIZE_WIDTH ->
  no_overwrite (trim_copies rows width cell_width ltrim y).
Proof.
  funelim (trim_copies rows width cell_width ltrim y);
    intros Hy Hcw Hb; simpl; [ | exact I ].
  split; [ | apply H; lia ].
  intros c' p Hin Hw Hw'.
  apply trim_copies_In in Hin. destruct Hin as (y' & Hy' & ->).
  unfold written in *. cbn [mc_dst mc_n mc_src] in *.
  rewrite (to_ulong_row cell_width rows) in Hw, Hw' by lia.
  assert ((y + 1) * cell_width <= y' * cell_width)
    by (apply Z.mul_le_mono_nonneg_r; lia).
  lia.
Qed.

Lemma trim_copies_in_bounds rows width cell_width ltrim dst src :
  0 <= cell_width -> 0 <= ltrim -> ltrim + cell_width <= width ->
  rows * width < 2 ^ SIZE_WIDTH ->
  len dst = rows * cell_width -> rows * width <= len src ->
  Forall (in_bounds dst src) (trim_copies rows width cell_width ltrim 0).
Proof.
  intros Hcw Hl Hfit Hb Hd Hs. apply Forall_forall. intros c Hin.
  apply trim_copies_In in Hin. destruct Hin as (y' & Hy' & ->).
  unfold in_bounds. cbn [mc_dst mc_n mc_src].
  destruct (Z.eq_dec cell_width 0) as [-> | Hne]; [ left; lia | right ].
  assert (cell_width * rows <= width * rows)
    by (apply Z.mul_le_mono_nonneg_r; lia).
  rewrite (to_ulong_row cell_width rows) by lia.
  rewrite (to_ulong_row width rows) by lia.
  rewrite Hd.
  pose proof (row_offset_bound cell_width rows y' (cell_width - 1)).
  pose proof (row_offset_bound width rows y' (ltrim + cell_width - 1)).
  assert (0 <= y' * cell_width) by (apply Z.mul_nonneg_nonneg; lia).
  assert (0 <= y' * width) by (apply Z.mul_nonneg_nonneg; lia).
  lia.
Qed.

Lemma trim_copies_result rows width cell_width ltrim dst src :
  0 <= rows -> 0 <= cell_width -> 0 <= ltrim -> ltrim + cell_width <= width ->
  rows * width < 2 ^ SIZE_WIDTH ->
  len dst = rows * cell_width -> rows * width <= len src ->
  exists abuf,
    run_memcpys dst src (trim_copies rows width cell_width ltrim 0) = Some abuf /\
    len abuf = rows * cell_width /\
    forall y j, 0 <= y < rows -> 0 <= j < cell_width ->
      load abuf (y * cell_width + j) = load src (y * width + ltrim + j).
Proof.
  intros Hrows Hcw Hl Hfit Hb Hd Hs.
  destruct (run_memcpys_succeeds (trim_copies rows width cell_width ltrim 0)
              dst src) as [abuf E].
  { apply trim_copies_in_bounds; assumption. }
  exists abuf. split; [ exact E | ].
  split; [ rewrite (run_memcpys_len _ _ _ _ E); exact Hd | ].
  intros y j Hy Hj.
  assert (cell_width * rows <= width * rows)
    by (apply Z.mul_le_mono_nonneg_r; lia).
  rewrite (run_memcpys_written _ _ _ _
             {| mc_dst := to_ulong (y * cell_width);
                mc_src := ltrim + to_ulong (y * width);
                mc_n := cell_width |} _ E).
  - cbn [mc_dst mc_src].
    rewrite (to_ulong_row cell_width rows) by lia.
    rewrite (to_ulong_row width rows) by lia.
    f_equal. lia.
  - apply trim_copies_no_overwrite; lia.
  - apply trim_copies_In. exists y. split; [ lia | reflexivity ].
  - unfold written. cbn [mc_dst mc_n].
    rewrite (to_ulong_row cell_width rows) by lia. lia.
Qed.

Section TrimFacts.
Variable alloc_ok : Z -> bool.

(** C4.  For [cell_width < width < 2 * cell_width], [rtrim] is the number
    of consecutive blank columns from the right, capped at
    [extra = width - cell_width]; [ltrim] is [extra - rtrim]; and row [y]
    of the result is the [cell_width] bytes of source row [y] from column
    [ltrim] on, so the ink of source column [c] is at index [c - ltrim].
    The rows of the source are [width] bytes apart, as the code reads
    them. *)
Theorem trim_to_width_window bitmap cell_width :
  let rows := bm_rows bitmap in
  let width := bm_width bitmap in
  let src := bm_buffer bitmap in
  let extra := width - cell_width in
  let right_trim :=
    Z.min extra (blank_columns_from_right src rows width (Z.to_nat width)) in
  let left_trim := extra - right_trim in
  cell_width < width < 2 * cell_width ->
  0 <= rows -> width < 2 ^ (SIZE_WIDTH - 1) ->
  rows * width < 2 ^ SIZE_WIDTH -> rows * width <= len src ->
  alloc_ok (cell_width * rows) = true ->
  trim_amounts src rows width cell_width = Returns (right_trim, left_trim) /\
  exists out,
    trim_to_width alloc_ok bitmap cell_width = Returns out /\
    bm_rows out = rows /\ bm_width out = cell_width /\
    len (bm_buffer out) = rows * cell_width /\
    (forall y, 0 <= y < rows ->
       slice (bm_buffer out) (y * cell_width) cell_width
       = slice src (y * width + left_trim) cell_width) /\
    (forall y c, 0 <= y < rows -> left_trim <= c < left_trim + cell_width ->
       load (bm_buffer out) (y * cell_width + (c - left_trim))
       = load src (y * width + c)).
Proof.
  intros rows width src extra right_trim left_trim Hw Hrows Hlong Hov Hlen Hal.
  pose proof (blank_columns_from_right_nonneg src rows width (Z.to_nat width))
    as Hnn.
  assert (Hsz : 2 ^ (SIZE_WIDTH - 1) < 2 ^ SIZE_WIDTH) by reflexivity.
  assert (Hex : 0 < extra < cell_width) by (subst extra; lia).
  assert (Hrt : 0 <= right_trim <= extra) by (subst right_trim; lia).
  assert (Hlt : 0 <= left_trim /\ left_trim + cell_width <= width)
    by (subst left_trim extra; lia).
  assert (Hextra : to_ulong (width - cell_width) = extra).
  { apply to_ulong_small. unfold is_ulong. subst extra. lia. }
  assert (Hamounts :
    trim_amounts src rows width cell_width = Returns (right_trim, left_trim)).
  { unfold trim_amounts. rewrite Hextra.
    rewrite to_long_small by lia.
    rewrite trim_scan_blank_columns; try reflexivity; try lia.
    cbn [bind]. replace (width - 1 + 1) with width by lia.
    rewrite Z.add_0_l. fold right_trim.
    rewrite MIN_spec. rewrite (Z.min_r extra right_trim) by lia.
    rewrite to_ulong_small by (unfold is_ulong; subst left_trim; lia).
    reflexivity. }
  split; [ exact Hamounts | ].
  assert (Hcr : cell_width * rows <= width * rows)
    by (apply Z.mul_le_mono_nonneg_r; lia).
  assert (Hcr0 : 0 <= cell_width * rows) by (apply Z.mul_nonneg_nonneg; lia).
  assert (Hzl : len (zeros (cell_width * rows)) = rows * cell_width)
    by (rewrite len_zeros by lia; lia).
  destruct (trim_copies_result rows width cell_width left_trim
              (zeros (cell_width * rows)) src)
    as (abuf & Erun & Hlabuf & Hload);
    try lia.
  unfold trim_to_width. fold rows width src. rewrite Hextra.
  destruct (Z.leb_spec cell_width extra); [ lia | ].
  rewrite (to_ulong_small (cell_width * rows)) by (unfold is_ulong; lia).
  rewrite Hal. cbn [negb]. rewrite Hamounts. cbn [bind].
  rewrite Erun. cbn [defined bind].
  eexists. split; [ reflexivity | ]. cbn [bm_rows bm_width bm_buffer].
  repeat split; try assumption.
  - intros y Hy. apply load_ext.
    + pose proof (row_offset_bound cell_width rows y (cell_width - 1)).
      pose proof (row_offset_bound width rows y (left_trim + cell_width - 1)).
      assert (0 <= y * cell_width) by (apply Z.mul_nonneg_nonneg; lia).
      assert (0 <= y * width) by (apply Z.mul_nonneg_nonneg; lia).
      rewrite !len_slice; lia.
    + intros i Hi.
      pose proof (row_offset_bound cell_width rows y (cell_width - 1)).
      assert (0 <= y * cell_width) by (apply Z.mul_nonneg_nonneg; lia).
      assert (0 <= y * width) by (apply Z.mul_nonneg_nonneg; lia).
      rewrite len_slice in Hi by lia.
      rewrite !load_slice by lia.
      rewrite Hload by lia. f_equal; lia.
  - intros y c Hy Hc. rewrite Hload by lia. f_equal; lia.
Qed.

End TrimFacts.

Lemma trim_scan_no_budget src rows width extra x rtrim b :
  extra <= rtrim ->
  trim_scan src rows width extra x rtrim b = Returns rtrim.
Proof.
  funelim (trim_scan src rows width extra x rtrim b); intros Hle;
    try reflexivity; lia.
Qed.

Section SameWidthFacts.
Variable alloc_ok : Z -> bool.

(** C3, as the code has it.  With [width = cell_width] the excess is 0:
    the test [extra >= cell_width] lets the call pass unless
    [cell_width = 0], nothing is trimmed and the pixels come back
    unchanged. *)
Theorem trim_to_width_same_width bitmap cell_width :
  bm_width bitmap = cell_width ->
  (cell_width = 0 ->
   trim_to_width alloc_ok bitmap cell_width
   = Raises FreeType_Exception_too_large) /\
  (0 < cell_width -> 0 <= bm_rows bitmap ->
   bm_rows bitmap * cell_width < 2 ^ SIZE_WIDTH ->
   len (bm_buffer bitmap) = bm_rows bitmap * cell_width ->
   alloc_ok (cell_width * bm_rows bitmap) = true ->
   trim_amounts (bm_buffer bitmap) (bm_rows bitmap) cell_width cell_width
   = Returns (0, 0) /\
   trim_to_width alloc_ok bitmap cell_width
   = Returns {| bm_rows := bm_rows bitmap; bm_width := cell_width;
                bm_pitch := cell_width; bm_buffer := bm_buffer bitmap;
                bm_num_grays := bm_num_grays bitmap;
                bm_pixel_mode := bm_pixel_mode bitmap;
                bm_palette_mode := bm_palette_mode bitmap |}).
Proof.
  intros Hw. split.
  - intros ->. unfold trim_to_width. rewrite Hw. reflexivity.
  - intros Hcw Hrows Hov Hlen Hal.
    assert (Hamounts :
      trim_amounts (bm_buffer bitmap) (bm_rows bitmap) cell_width cell_width
      = Returns (0, 0)).
    { unfold trim_amounts. rewrite Z.sub_diag.
      change (to_ulong 0) with 0.
      rewrite trim_scan_no_budget by lia. reflexivity. }
    split; [ exact Hamounts | ].
    unfold trim_to_width. rewrite Hw, Z.sub_diag.
    change (to_ulong 0) with 0.
    destruct (Z.leb_spec cell_width 0); [ lia | ].
    assert (0 <= cell_width * bm_rows bitmap)
      by (apply Z.mul_nonneg_nonneg; lia).
    rewrite (to_ulong_small (cell_width * bm_rows bitmap))
      by (unfold is_ulong; lia).
    rewrite Hal. cbn [negb]. rewrite Hamounts. cbn [bind].
    destruct (trim_copies_result (bm_rows bitmap) cell_width cell_width 0
                (zeros (cell_width * bm_rows bitmap)) (bm_buffer bitmap))
      as (abuf & Erun & Hlabuf & Hload); try lia.
    { rewrite len_zeros by lia. lia. }
    rewrite Erun. cbn [defined bind]. do 2 f_equal.
    apply load_ext; [ lia | ].
    intros i Hi. rewrite Hlabuf in Hi.
    assert (Hdiv : i = (i / cell_width) * cell_width + i mod cell_width).
    { rewrite Z.mul_comm. apply Z.div_mod. lia. }
    pose proof (Z.mod_pos_bound i cell_width Hcw) as Hmod.
    assert (Hq : 0 <= i / cell_width < bm_rows bitmap).
    { split; [ apply Z.div_pos; lia | ].
      apply Z.div_lt_upper_bound; lia. }
    rewrite Hdiv at 1. rewrite Hload by lia.
    f_equal. lia.
Qed.

End SameWidthFacts.

(** ** [draw_complex_glyph] *)

Lemma bind_Returns {A B : Type} (m : outcome A) (k : A -> outcome B) b :
  bind m k = Returns b -> exists a, m = Returns a /\ k a = Returns b.
Proof. destruct m; simpl; try discriminate. eauto. Qed.

Lemma defined_Returns {A : Type} (o : option A) a :
  defined o = Returns a -> o = Some a.
Proof. destruct o; simpl; [ | discriminate ]. intros H. injection H as ->. reflexivity. Qed.

Section DrawFacts.
Variable alloc_ok : Z -> bool.
Variable _load_char : Z -> FT_GlyphSlotRec.

Lemma ensure_space_Returns g width height ok g' :
  ensure_space alloc_ok g width height = Returns (ok, g') ->
  gb_metrics g' = gb_metrics g /\
  (ok = true ->
   (g' = g /\ width <= gb_width g /\ height <= gb_height g) \/
   (gb_width g' = width /\ gb_height g' = height)).
Proof.
  unfold ensure_space.
  destruct ((width <=? gb_width g) && (height <=? gb_height g)) eqn:Hcov.
  - intros H. injection H as <- <-. split; [ reflexivity | ].
    intros _. left. apply andb_true_iff in Hcov. destruct Hcov as [Hw Hh].
    apply Z.leb_le in Hw, Hh. auto.
  - destruct (calloc alloc_ok (to_uint (width * height))) as [zeroed | ].
    + intros H. apply bind_Returns in H. destruct H as (newbuf & _ & H).
      injection H as <- <-. split; [ reflexivity | ]. intros _. right. split; reflexivity.
    + intros H. injection H as <- <-. split; [ reflexivity | discriminate ].
Qed.

Lemma apply_bitmap_Returns g bitmap src_start dest_start g' :
  apply_bitmap g bitmap src_start dest_start = Returns g' ->
  gb_width g' = gb_width g /\ gb_height g' = gb_height g /\
  gb_metrics g' = gb_metrics g.
Proof.
  unfold apply_bitmap. intros H. apply bind_Returns in H.
  destruct H as (newbuf & _ & H). injection H as <-.
  repeat split; reflexivity.
Qed.

(** What a glyph that is drawn leaves behind. *)
Lemma draw_glyph_Returns i info pos st st' :
  codepoint info <> 0 ->
  draw_glyph alloc_ok _load_char i info pos st = Returns st' ->
  let glyph := _load_char (codepoint info) in
  let x := cursor_add (ds_x st) (x_offset pos) in
  let y := cursor_sub (ds_y st) (y_offset pos) in
  exists w h,
    extent x (bm_pitch (slot_bitmap glyph)) = Some w /\
    extent y (bm_rows (slot_bitmap glyph)) = Some h /\
    ds_width st' = MAX (ds_width st) w /\
    ds_height st' = MAX (ds_height st) h /\
    gb_metrics (ds_g st') =
      (if i =? 0 then slot_metrics glyph else gb_metrics (ds_g st)) /\
    ((gb_width (ds_g st') = gb_width (ds_g st) /\
      gb_height (ds_g st') = gb_height (ds_g st) /\
      ds_width st' <= gb_width (ds_g st) /\ ds_height st' <= gb_height (ds_g st))
     \/ (gb_width (ds_g st') = ds_width st' /\
         gb_height (ds_g st') = ds_height st')).
Proof.
  intros Hid H glyph x y. unfold draw_glyph in H.
  destruct (Z.eqb_spec (codepoint info) 0) as [Hz | _]; [ contradiction | ].
  fold glyph x y in H.
  apply bind_Returns in H. destruct H as (w & Hw & H).
  apply defined_Returns in Hw.
  apply bind_Returns in H. destruct H as (h & Hh & H).
  apply defined_Returns in Hh.
  apply bind_Returns in H. destruct H as ([ok g1] & Hens & H).
  cbn beta iota zeta in H.
  destruct ok; cbn [negb] in H; [ | discriminate ].
  apply bind_Returns in H. destruct H as (sx & _ & H).
  apply bind_Returns in H. destruct H as (sy & _ & H).
  apply bind_Returns in H. destruct H as (dx & _ & H).
  apply bind_Returns in H. destruct H as (dy & _ & H).
  destruct (negb (bm_pixel_mode (slot_bitmap glyph) =? FT_PIXEL_MODE_GRAY));
    [ discriminate | ].
  apply bind_Returns in H. destruct H as (g2 & Happ & H).
  injection H as <-. cbn [ds_width ds_height ds_g].
  apply apply_bitmap_Returns in Happ. destruct Happ as (Ew & Eh & Em).
  apply ensure_space_Returns in Hens. destruct Hens as (Em1 & Hdims).
  specialize (Hdims eq_refl).
  exists w, h. repeat split; try assumption.
  - rewrite Em, Em1. destruct (i =? 0); reflexivity.
  - rewrite Ew, Eh.
    destruct Hdims as [(-> & Hcw & Hch) | (Hgw & Hgh)].
    + left. destruct (i =? 0); cbn [gb_width gb_height] in *; auto.
    + right. auto.
Qed.

Lemma draw_glyph_skip i info pos st :
  codepoint info = 0 ->
  draw_glyph alloc_ok _load_char i info pos st = Returns st.
Proof. intros H. unfold draw_glyph. rewrite H. reflexivity. Qed.

Lemma draw_glyph_tracks i info pos st st' :
  tracks_canvas st ->
  draw_glyph alloc_ok _load_char i info pos st = Returns st' ->
  tracks_canvas st' /\ dims_le (ds_g st) (ds_g st').
Proof.
  intros (Tw & Th) H. unfold tracks_canvas, dims_le.
  destruct (Z.eq_dec (codepoint info) 0) as [Hz | Hnz].
  - rewrite draw_glyph_skip in H by exact Hz. injection H as <-. lia.
  - apply draw_glyph_Returns in H; [ | exact Hnz ].
    destruct H as (w & h & _ & _ & Hw & Hh & _ & Hd).
    rewrite MAX_spec in Hw, Hh. lia.
Qed.

Lemma draw_loop_app sd1 : forall sd2 i st,
  draw_loop alloc_ok _load_char i (sd1 ++ sd2) st
  = bind (draw_loop alloc_ok _load_char i sd1 st)
         (draw_loop alloc_ok _load_char (i + Z.of_nat (length sd1)) sd2).
Proof.
  induction sd1 as [ | [info pos] rest IH]; intros sd2 i st.
  - simpl. rewrite Z.add_0_r. reflexivity.
  - cbn [app draw_loop length].
    destruct (draw_glyph alloc_ok _load_char i info pos st) as [st1 | e | | ];
      cbn [bind]; try reflexivity.
    rewrite IH. do 2 f_equal. lia.
Qed.

Lemma draw_loop_tracks sd : forall i st st',
  tracks_canvas st ->
  draw_loop alloc_ok _load_char i sd st = Returns st' ->
  tracks_canvas st' /\ dims_le (ds_g st) (ds_g st').
Proof.
  induction sd as [ | [info pos] rest IH]; intros i st st' T H.
  - simpl in H. injection H as <-. split; [ exact T | unfold dims_le; lia ].
  - cbn [draw_loop] in H. apply bind_Returns in H.
    destruct H as (st1 & H1 & H).
    destruct (draw_glyph_tracks _ _ _ _ _ T H1) as (T1 & D1).
    destruct (IH _ _ _ T1 H) as (T' & D').
    split; [ exact T' | unfold dims_le in *; lia ].
Qed.

Lemma tracks_canvas_init : tracks_canvas draw_init.
Proof. split; reflexivity. Qed.

(** C7.  When [draw_complex_glyph] returns, take any glyph it has drawn:
    the canvas before that glyph is no larger than the canvas after it,
    which is no larger than the canvas returned, and the canvas after it
    is at least [(unsigned int)ceilf(x + pitch)] wide and
    [(unsigned int)ceilf(y + rows)] high, for the cursor [(x, y)] the
    glyph is placed at.  Where [x] is a whole number [k] of 64ths of a
    pixel with [- 2^24 < k] and [k + 64 * pitch < 2^24], single precision
    is exact: that width is [ceil(k / 64 + pitch)], the origins are those
    of step 2.e of the spec, and the canvas reaches from the destination
    column to the end of the columns copied there.  The same holds of
    [y], the rows and the height. *)
Theorem draw_complex_glyph_covers pre info pos post c :
  codepoint info <> 0 ->
  draw_complex_glyph alloc_ok _load_char (pre ++ (info, pos) :: post)
  = Returns c ->
  exists before after w h,
    draw_loop alloc_ok _load_char 0 pre draw_init = Returns before /\
    draw_loop alloc_ok _load_char 0 (pre ++ [(info, pos)]) draw_init
    = Returns after /\
    let bitmap := slot_bitmap (_load_char (codepoint info)) in
    let x := cursor_add (ds_x before) (x_offset pos) in
    let y := cursor_sub (ds_y before) (y_offset pos) in
    extent x (bm_pitch bitmap) = Some w /\
    extent y (bm_rows bitmap) = Some h /\
    gb_width (ds_g before) <= gb_width (ds_g after) <= c_width c /\
    gb_height (ds_g before) <= gb_height (ds_g after) <= c_height c /\
    w <= gb_width (ds_g after) /\ h <= gb_height (ds_g after) /\
    (forall k,
       is_64ths x k -> 0 <= bm_pitch bitmap ->
       - 2 ^ 24 < k -> k + 64 * bm_pitch bitmap < 2 ^ 24 ->
       w = ceil64 k + bm_pitch bitmap /\
       ceil64 k + bm_pitch bitmap <= c_width c /\
       src_origin x = Some (src_column k) /\
       dest_origin x = Some (dest_column k) /\
       dest_column k + (bm_pitch bitmap - src_column k)
       <= gb_width (ds_g after)) /\
    (forall k,
       is_64ths y k -> 0 <= bm_rows bitmap ->
       - 2 ^ 24 < k -> k + 64 * bm_rows bitmap < 2 ^ 24 ->
       h = ceil64 k + bm_rows bitmap /\
       ceil64 k + bm_rows bitmap <= c_height c /\
       src_origin y = Some (src_column k) /\
       dest_origin y = Some (dest_column k) /\
       dest_column k + (bm_rows bitmap - src_column k)
       <= gb_height (ds_g after)).
Proof.
  intros Hid H. unfold draw_complex_glyph in H.
  apply bind_Returns in H. destruct H as (final & Hloop & H).
  assert (Hc : c_width c = gb_width (ds_g final) /\
               c_height c = gb_height (ds_g final)).
  { destruct (buf (ds_g final)); [ | discriminate ].
    destruct (_ <=? _); [ | discriminate ].
    injection H as <-. split; reflexivity. }
  destruct Hc as [-> ->]. clear H.
  rewrite draw_loop_app in Hloop. apply bind_Returns in Hloop.
  destruct Hloop as (before & Hpre & Hrest).
  cbn [draw_loop] in Hrest. apply bind_Returns in Hrest.
  destruct Hrest as (after & Hstep & Hpost).
  destruct (draw_loop_tracks _ _ _ _ tracks_canvas_init Hpre) as (Tb & _).
  destruct (draw_glyph_tracks _ _ _ _ _ Tb Hstep) as (Ta & Dstep).
  destruct (draw_loop_tracks _ _ _ _ Ta Hpost) as (_ & Dpost).
  pose proof (draw_glyph_Returns _ _ _ _ _ Hid Hstep) as Hglyph.
  cbv zeta in Hglyph.
  destruct Hglyph as (w & h & Ew & Eh & Hw & Hh & _ & _).
  exists before, after, w, h.
  split; [ exact Hpre | ].
  split.
  { rewrite draw_loop_app, Hpre. cbn [bind draw_loop]. rewrite Hstep.
    reflexivity. }
  cbv zeta. destruct Tb as (Tbw & Tbh). destruct Ta as (Taw & Tah).
  unfold dims_le in *. rewrite MAX_spec in Hw, Hh.
  assert (Hwa : w <= gb_width (ds_g after)) by lia.
  assert (Hha : h <= gb_height (ds_g after)) by lia.
  split; [ exact Ew | ]. split; [ exact Eh | ].
  split; [ lia | ]. split; [ lia | ].
  split; [ exact Hwa | ]. split; [ exact Hha | ].
  split.
  - intros k Hx Hn Hk Hs.
    destruct (exact_placement _ _ _ _ Ew Hx Hn Hk Hs) as (E1 & E2 & E3 & E4).
    repeat split; try assumption; lia.
  - intros k Hy Hn Hk Hs.
    destruct (exact_placement _ _ _ _ Eh Hy Hn Hk Hs) as (E1 & E2 & E3 & E4).
    repeat split; try assumption; lia.
Qed.



Lemma draw_loop_all_skipped sd : forall i st,
  Forall (fun g => codepoint (fst g) = 0) sd ->
  draw_loop alloc_ok _load_char i sd st = Returns st.
Proof.
  induction sd as [ | [info pos] rest IH]; intros i st Hall; [ reflexivity | ].
  inversion Hall as [ | ? ? Hhead Hrest ]; subst. simpl in Hhead.
  cbn [draw_loop]. rewrite draw_glyph_skip by exact Hhead. cbn [bind].
  apply IH. exact Hrest.
Qed.

(** C8.  A run whose glyph ids are all 0 raises "No glyphs found" and
    returns no bitmap. *)
Theorem draw_complex_glyph_no_glyphs sd :
  Forall (fun g => codepoint (fst g) = 0) sd ->
  draw_complex_glyph alloc_ok _load_char sd = Raises ValueError_no_glyphs_found.
Proof.
  intros Hall. unfold draw_complex_glyph.
  rewrite draw_loop_all_skipped by exact Hall. reflexivity.
Qed.

(** C10.  A glyph with id 0 leaves the whole state of the loop as it is
    (cursor, dimensions, canvas and metrics); the run up to and including
    it ends in the state of the run before it; and its offsets and
    advances have no effect on what is drawn. *)
Theorem zero_glyph_changes_nothing pre info pos post :
  codepoint info = 0 ->
  (forall i st, draw_glyph alloc_ok _load_char i info pos st = Returns st) /\
  draw_loop alloc_ok _load_char 0 (pre ++ [(info, pos)]) draw_init
  = draw_loop alloc_ok _load_char 0 pre draw_init /\
  (forall pos',
     draw_complex_glyph alloc_ok _load_char (pre ++ (info, pos') :: post)
     = draw_complex_glyph alloc_ok _load_char (pre ++ (info, pos) :: post)).
Proof.
  intros Hz. split; [ | split ].
  - intros i st. apply draw_glyph_skip. exact Hz.
  - rewrite draw_loop_app.
    destruct (draw_loop alloc_ok _load_char 0 pre draw_init) as [st | e | | ];
      cbn [bind]; try reflexivity.
    cbn [draw_loop]. rewrite draw_glyph_skip by exact Hz. reflexivity.
  - intros pos'. unfold draw_complex_glyph. rewrite !draw_loop_app.
    destruct (draw_loop alloc_ok _load_char 0 pre draw_init) as [st | e | | ];
      cbn [bind]; try reflexivity.
    cbn [draw_loop]. rewrite !draw_glyph_skip by exact Hz. reflexivity.
Qed.

Lemma draw_loop_keeps_metrics sd : forall i st st',
  0 < i ->
  draw_loop alloc_ok _load_char i sd st = Returns st' ->
  gb_metrics (ds_g st') = gb_metrics (ds_g st).
Proof.
  induction sd as [ | [info pos] rest IH]; intros i st st' Hi H.
  - simpl in H. injection H as <-. reflexivity.
  - cbn [draw_loop] in H. apply bind_Returns in H.
    destruct H as (st1 & H1 & H).
    assert (Hi' : 0 < i + 1) by lia.
    rewrite (IH _ _ _ Hi' H).
    destruct (Z.eq_dec (codepoint info) 0) as [Hz | Hnz].
    + rewrite draw_glyph_skip in H1 by exact Hz. injection H1 as <-. reflexivity.
    + apply draw_glyph_Returns in H1; [ | exact Hnz ].
      destruct H1 as (w & h & _ & _ & _ & _ & Hm & _).
      destruct (Z.eqb_spec i 0); [ lia | exact Hm ].
Qed.

Lemma skipped_first_glyph_zero_metrics info pos rest c :
  codepoint info = 0 ->
  draw_complex_glyph alloc_ok _load_char ((info, pos) :: rest) = Returns c ->
  c_metrics c = zero_metrics.
Proof.
  intros Hz H. unfold draw_complex_glyph in H.
  apply bind_Returns in H. destruct H as (final & Hloop & H).
  cbn [draw_loop] in Hloop. rewrite draw_glyph_skip in Hloop by exact Hz.
  cbn [bind] in Hloop.
  apply draw_loop_keeps_metrics in Hloop; [ | lia ].
  destruct (buf (ds_g final)); [ | discriminate ].
  destruct (_ <=? _); [ | discriminate ].
  injection H as <-. cbn [c_metrics]. rewrite Hloop. reflexivity.
Qed.

End DrawFacts.

(** The allocator matters only through its answers. *)
Lemma ensure_space_ext a a' g width height :
  (forall n, a n = a' n) ->
  ensure_space a g width height = ensure_space a' g width height.
Proof. intros H. unfold ensure_space, calloc. rewrite H. reflexivity. Qed.

Lemma draw_glyph_ext a a' render i info pos st :
  (forall n, a n = a' n) ->
  draw_glyph a render i info pos st = draw_glyph a' render i info pos st.
Proof.
  intros H. unfold draw_glyph.
  destruct (codepoint info =? 0); [ reflexivity | ].
  destruct (defined (extent _ _)) as [w | | | ]; cbn [bind]; try reflexivity.
  destruct (defined (extent _ _)) as [h | | | ]; cbn [bind]; try reflexivity.
  rewrite (ensure_space_ext a a') by exact H. reflexivity.
Qed.

Lemma draw_loop_ext a a' render sd : forall i st,
  (forall n, a n = a' n) ->
  draw_loop a render i sd st = draw_loop a' render i sd st.
Proof.
  induction sd as [ | [info pos] rest IH]; intros i st H; [ reflexivity | ].
  cbn [draw_loop]. rewrite (draw_glyph_ext a a') by exact H.
  destruct (draw_glyph a' render i info pos st); cbn [bind]; try reflexivity.
  apply IH. exact H.
Qed.

Lemma draw_complex_glyph_ext a a' render sd :
  (forall n, a n = a' n) ->
  draw_complex_glyph a render sd = draw_complex_glyph a' render sd.
Proof.
  intros H. unfold draw_complex_glyph.
  rewrite (draw_loop_ext a a') by exact H. reflexivity.
Qed.

(** C6.  Scenario A with the advances in the order the code needs: the
    first glyph carries the advance [8 * 64], the second [0 * 64].  The
    canvas is 9 columns wide, columns 0 and 8 are 255, the others 0. *)
Theorem scenario_A_advance_first alloc_ok _load_char id1 id2 :
  id1 <> 0 -> id2 <> 0 ->
  dot_bitmap (slot_bitmap (_load_char id1)) ->
  dot_bitmap (slot_bitmap (_load_char id2)) ->
  alloc_ok 1 = true -> alloc_ok 9 = true ->
  draw_complex_glyph alloc_ok _load_char
    [glyph_at id1 (8 * 64); glyph_at id2 (0 * 64)]
  = Returns {| c_pixels := [255; 0; 0; 0; 0; 0; 0; 0; 255];
               c_metrics := slot_metrics (_load_char id1);
               c_width := 9; c_height := 1 |}.
Proof.
  intros H1 H2 D1 D2 A1 A9.
  rewrite (draw_complex_glyph_ext alloc_ok (grant_1_and_9 alloc_ok)).
  2:{ intros n. unfold grant_1_and_9.
      destruct (Z.eqb_spec n 1) as [-> | _]; [ exact A1 | ].
      destruct (Z.eqb_spec n 9) as [-> | _]; [ exact A9 | reflexivity ]. }
  unfold draw_complex_glyph, glyph_at. cbn [draw_loop].
  unfold draw_glyph. cbn [codepoint x_offset y_offset x_advance].
  destruct (Z.eqb_spec id1 0); [ contradiction | ].
  destruct (Z.eqb_spec id2 0); [ contradiction | ].
  destruct (_load_char id1) as [m1 [r1 w1 p1 b1 g1 pm1 pl1]].
  destruct (_load_char id2) as [m2 [r2 w2 p2 b2 g2 pm2 pl2]].
  unfold dot_bitmap in D1, D2. cbn in D1, D2.
  destruct D1 as (-> & -> & -> & -> & ->).
  destruct D2 as (-> & -> & -> & -> & ->).
  vm_compute. reflexivity.
Qed.

(** ** The loops of [trim_to_width] always finish *)

Lemma column_scan_has_fuel src rows width x : forall fuel k,
  0 <= k -> k + Z.of_nat fuel = rows ->
  column_scan fuel src rows width x (to_ulong (k * width)) <> OutOfFuel.
Proof.
  induction fuel as [ | fuel IH]; intros k Hk Hrows.
  - assert (k = rows) as -> by lia. cbn [column_scan].
    rewrite Z.ltb_irrefl. discriminate.
  - cbn [column_scan].
    destruct (to_ulong (k * width) <? to_ulong (rows * width));
      [ | discriminate ].
    destruct (load src _) as [v | ]; [ | discriminate ].
    destruct (200 <? v); [ discriminate | ].
    replace (to_ulong (to_ulong (k * width) + width))
      with (to_ulong ((k + 1) * width)).
    + apply IH; lia.
    + unfold to_ulong. rewrite Zplus_mod_idemp_l. f_equal. lia.
Qed.

Lemma trim_scan_has_fuel src rows width extra x rtrim b :
  0 <= rows ->
  trim_scan src rows width extra x rtrim b <> OutOfFuel.
Proof.
  funelim (trim_scan src rows width extra x rtrim b); intros Hrows;
    try discriminate; try (apply H; exact Hrows).
  exfalso. revert Heq.
  change 0 with (to_ulong (0 * width)) at 1.
  apply column_scan_has_fuel; lia.
Qed.

Lemma trim_to_width_has_fuel alloc_ok bitmap cell_width :
  0 <= bm_rows bitmap ->
  trim_to_width alloc_ok bitmap cell_width <> OutOfFuel.
Proof.
  intros Hrows. unfold trim_to_width, trim_amounts.
  destruct (cell_width <=? _); [ discriminate | ].
  destruct (negb _); [ discriminate | ].
  pose proof (trim_scan_has_fuel (bm_buffer bitmap) (bm_rows bitmap)
                (bm_width bitmap) (to_ulong (bm_width bitmap - cell_width))
                (to_long (bm_width bitmap - 1)) 0 false Hrows) as Hscan.
  destruct (trim_scan _ _ _ _ _ _ _) as [rtrim | e | | ]; cbn [bind];
    try discriminate; [ | contradiction ].
  destruct (run_memcpys _ _ _); cbn [defined bind]; discriminate.
Qed.

(** ** [draw_complex_glyph] has no loop that needs fuel *)

Lemma draw_glyph_has_fuel alloc_ok _load_char i info pos st :
  draw_glyph alloc_ok _load_char i info pos st <> OutOfFuel.
Proof.
  unfold draw_glyph, ensure_space, apply_bitmap.
  destruct (codepoint info =? 0); [ discriminate | ].
  destruct (extent _ _); cbn [defined bind]; [ | discriminate ].
  destruct (extent _ _); cbn [defined bind]; [ | discriminate ].
  destruct (_ && _); cbn [bind negb].
  - destruct (src_origin _); cbn [defined bind]; [ | discriminate ].
    destruct (src_origin _); cbn [defined bind]; [ | discriminate ].
    destruct (dest_origin _); cbn [defined bind]; [ | discriminate ].
    destruct (dest_origin _); cbn [defined bind]; [ | discriminate ].
    destruct (negb _); [ discriminate | ].
    destruct (run_memcpys _ _ _); cbn [defined bind]; discriminate.
  - destruct (calloc _ _); cbn [bind negb]; [ | discriminate ].
    destruct (run_memcpys _ _ _); cbn [defined bind negb]; [ | discriminate ].
    destruct (src_origin _); cbn [defined bind]; [ | discriminate ].
    destruct (src_origin _); cbn [defined bind]; [ | discriminate ].
    destruct (dest_origin _); cbn [defined bind]; [ | discriminate ].
    destruct (dest_origin _); cbn [defined bind]; [ | discriminate ].
    destruct (negb _); [ discriminate | ].
    destruct (run_memcpys _ _ _); cbn [defined bind]; discriminate.
Qed.

Lemma draw_loop_has_fuel alloc_ok _load_char sd : forall i st,
  draw_loop alloc_ok _load_char i sd st <> OutOfFuel.
Proof.
  induction sd as [ | [info pos] rest IH]; intros i st; [ discriminate | ].
  cbn [draw_loop].
  pose proof (draw_glyph_has_fuel alloc_ok _load_char i info pos st) as Hstep.
  destruct (draw_glyph alloc_ok _load_char i info pos st); cbn [bind];
    try discriminate; [ apply IH | contradiction ].
Qed.

Lemma draw_complex_glyph_has_fuel alloc_ok _load_char sd :
  draw_complex_glyph alloc_ok _load_char sd <> OutOfFuel.
Proof.
  unfold draw_complex_glyph.
  pose proof (draw_loop_has_fuel alloc_ok _load_char sd 0 draw_init) as Hloop.
  destruct (draw_loop alloc_ok _load_char 0 sd draw_init) as [st | e | | ];
    cbn [bind]; try discriminate; [ | contradiction ].
  destruct (buf (ds_g st)); [ | discriminate ].
  destruct (_ <=? _); discriminate.
Qed.

(** * The code at sample inputs *)

(** C1.  [apply_bitmap] with a source origin of column 1: two columns are
    copied (the clipped width counts from column 1), but they are the
    bytes of columns 0 and 1 of the source row, not of columns 1 and 2.
    [draw_complex_glyph] reaches this call for a glyph whose [x_offset] is
    one pixel to the left. *)
Theorem apply_bitmap_copies_from_column_0 :
  let dest := canvas 2 1 [0; 0] in
  apply_bitmap_width dest ramp (point 1 0) (point 0 0) = 2 /\
  apply_bitmap dest ramp (point 1 0) (point 0 0)
  = Returns (canvas 2 1 [10; 20]) /\
  slice (bm_buffer ramp) 1 2 = [20; 30] /\
  draw_complex_glyph always_ok (render_as ramp) [glyph_shifted_left 1]
  = Returns {| c_pixels := [10; 20]; c_metrics := sample_metrics;
               c_width := 2; c_height := 1 |}.
Proof. vm_compute. repeat split. Qed.

(** C2.  A run whose first glyph has id 0: the second glyph is the first
    one rasterized, with metrics [sample_metrics], yet the metrics that
    come back are the zeros [GlyphBuffer g = {0}] starts with, because the
    metrics are captured under [if (i == 0)]. *)
Theorem draw_complex_glyph_metrics_after_skipped_glyph :
  draw_complex_glyph always_ok (render_as dot)
    [glyph_at 0 (8 * 64); glyph_at 7 (0 * 64)]
  = Returns {| c_pixels := [255]; c_metrics := zero_metrics;
               c_width := 1; c_height := 1 |} /\
  slot_metrics (render_as dot 7) = sample_metrics /\
  sample_metrics <> zero_metrics.
Proof.
  split; [ vm_compute; reflexivity | ].
  split; [ reflexivity | discriminate ].
Qed.

(** C3, as stated, fails: a bitmap 10 columns wide fitted to a cell width
    of 10 is returned, not refused. *)
Lemma same_width_bitmap_is_returned :
  bm_width scenario_C = 10 /\
  exists out, trim_to_width always_ok scenario_C 10 = Returns out.
Proof.
  split; [ reflexivity | ].
  eexists. vm_compute. reflexivity.
Qed.

(** C7, as stated, fails: a glyph 262144 columns wide with an [x_offset]
    of 1 is placed at the cursor [x = 1/64].  [ceil(x + stride)] is
    262145, but single precision has no number between 262144 and
    262144 + 1/32: the sum is rounded to 262144, and the canvas that
    comes back is 262144 columns wide. *)
Lemma wide_glyph_canvas_below_ceiling :
  returned_size (draw_complex_glyph always_ok (render_as wide_row)
                   [glyph_nudged_right 1])
  = Some (262144, 1) /\
  is_64ths (cursor_add (ds_x draw_init) (x_offset (snd (glyph_nudged_right 1))))
           1 /\
  bm_pitch wide_row = 262144 /\
  ~ ceil64 1 + bm_pitch wide_row <= 262144.
Proof.
  split; [ vm_compute; reflexivity | ].
  split; [ vm_compute; reflexivity | ].
  split; [ reflexivity | ].
  vm_compute. intros H. apply H. reflexivity.
Qed.

(** From 2^24 pixels on the canvas stops short of the glyph itself: at
    the cursor 16777216 a glyph one column wide asks for 16777216 columns
    and is placed at column 16777216, the first one outside. *)
Example cursor_at_2_to_the_24 :
  let x := cursor_add fzero (2 ^ 30) in
  has_value x 16777216 0 /\
  extent x 1 = Some 16777216 /\ dest_origin x = Some 16777216.
Proof. vm_compute. repeat split. Qed.

(** C6, as stated, fails: with the advances [0 * 64] and [8 * 64] in this
    order both glyphs are drawn at column 0 and the canvas is one column
    wide. *)
Lemma scenario_A_as_stated :
  exists c,
    draw_complex_glyph always_ok (render_as dot)
      [glyph_at 1 (0 * 64); glyph_at 2 (8 * 64)] = Returns c /\
    c_width c = 1 /\ c_pixels c = [255] /\
    ~ 9 <= c_width c /\ load (c_pixels c) 8 = None.
Proof.
  eexists. split; [ vm_compute; reflexivity | ].
  cbn [c_width c_pixels].
  split; [ reflexivity | ]. split; [ reflexivity | ].
  split; [ lia | reflexivity ].
Qed.

(** Scenarios B, C and D of the spec. *)
Example scenario_B_trims_right :
  trim_amounts (bm_buffer scenario_B) 1 10 8 = Returns (2, 0) /\
  trim_to_width always_ok scenario_B 8
  = Returns (gray_bitmap 1 8 [0; 0; 0; 255; 0; 0; 0; 0]).
Proof. vm_compute. split; reflexivity. Qed.

Example scenario_C_trims_left :
  trim_amounts (bm_buffer scenario_C) 1 10 8 = Returns (0, 2) /\
  trim_to_width always_ok scenario_C 8
  = Returns (gray_bitmap 1 8 [0; 255; 0; 0; 0; 0; 0; 255]).
Proof. vm_compute. split; reflexivity. Qed.

Example scenario_D_too_large :
  trim_to_width always_ok scenario_B 4 = Raises FreeType_Exception_too_large.
Proof. reflexivity. Qed.

(** * The theorems at sample inputs *)

Lemma trim_to_width_same_width_witness :
  bm_width scenario_C = 10 /\
  trim_amounts (bm_buffer scenario_C) (bm_rows scenario_C) 10 10
  = Returns (0, 0) /\
  trim_to_width always_ok scenario_C 10
  = Returns (gray_bitmap 1 10 [0; 0; 0; 255; 0; 0; 0; 0; 0; 255]).
Proof.
  split; [ reflexivity | ].
  apply (proj2 (trim_to_width_same_width always_ok scenario_C 10 eq_refl));
    by_evaluation.
Defined.

Lemma trim_to_width_window_witness :
  10 < 2 * 8 /\
  trim_amounts (bm_buffer scenario_C) 1 10 8 = Returns (0, 2).
Proof.
  split; [ lia | ].
  apply (trim_to_width_window always_ok scenario_C 8); by_evaluation.
Defined.


Lemma scenario_A_advance_first_witness :
  draw_complex_glyph always_ok (render_as dot)
    [glyph_at 1 (8 * 64); glyph_at 2 (0 * 64)]
  = Returns {| c_pixels := [255; 0; 0; 0; 0; 0; 0; 0; 255];
               c_metrics := sample_metrics; c_width := 9; c_height := 1 |}.
Proof.
  apply (scenario_A_advance_first always_ok (render_as dot) 1 2);
    by_evaluation.
Defined.

Lemma draw_complex_glyph_covers_witness :
  exists before after w h,
    draw_loop always_ok (render_as dot) 0 [glyph_at 1 (8 * 64 + 32)] draw_init
    = Returns before /\
    draw_loop always_ok (render_as dot) 0
      ([glyph_at 1 (8 * 64 + 32)] ++ [glyph_at 2 (0 * 64)]) draw_init
    = Returns after /\
    before = state_dot_and_a_half /\
    let x := cursor_add (ds_x before) 0 in
    is_64ths x (8 * 64 + 32) /\
    extent x 1 = Some w /\
    gb_width (ds_g before) <= gb_width (ds_g after) <= 10 /\
    gb_height (ds_g before) <= gb_height (ds_g after) <= 1 /\
    w = ceil64 (8 * 64 + 32) + 1 /\ ceil64 (8 * 64 + 32) + 1 <= 10 /\
    w = 10 /\ h = 1 /\
    src_origin x = Some 0 /\ dest_origin x = Some 9 /\
    9 + (1 - 0) <= gb_width (ds_g after).
Proof.
  destruct (draw_complex_glyph_covers always_ok (render_as dot)
              [glyph_at 1 (8 * 64 + 32)]
              (fst (glyph_at 2 (0 * 64))) (snd (glyph_at 2 (0 * 64))) []
              {| c_pixels := [255; 0; 0; 0; 0; 0; 0; 0; 0; 255];
                 c_metrics := sample_metrics; c_width := 10; c_height := 1 |})
    as (before & after & w & h & Hb & Ha & H); [ by_evaluation .. | ].
  cbv zeta in H. destruct H as (Ew & Eh & Hw & Hh & _ & _ & Hx & Hy).
  assert (Eb : before = state_dot_and_a_half).
  { vm_compute in Hb. injection Hb as <-. vm_compute. reflexivity. }
  subst before.
  assert (Ix : is_64ths (cursor_add (ds_x state_dot_and_a_half) 0) (8 * 64 + 32))
    by (vm_compute; reflexivity).
  assert (Iy : is_64ths (cursor_sub (ds_y state_dot_and_a_half) 0) 0)
    by (vm_compute; reflexivity).
  destruct (Hx (8 * 64 + 32) Ix) as (W1 & W0 & W2 & W3 & W4);
    [ vm_compute; discriminate | reflexivity | reflexivity | ].
  destruct (Hy 0 Iy) as (H1 & _);
    [ vm_compute; discriminate | reflexivity | reflexivity | ].
  exists state_dot_and_a_half, after, w, h.
  split; [ exact Hb | ]. split; [ exact Ha | ]. split; [ reflexivity | ].
  cbv zeta.
  split; [ exact Ix | ]. split; [ exact Ew | ].
  split; [ exact Hw | ]. split; [ exact Hh | ].
  split; [ exact W1 | ]. split; [ exact W0 | ].
  split; [ rewrite W1; reflexivity | ].
  split; [ rewrite H1; reflexivity | ].
  split; [ exact W2 | ]. split; [ exact W3 | ]. exact W4.
Defined.

Lemma draw_complex_glyph_no_glyphs_witness :
  draw_complex_glyph always_ok (render_as dot)
    [glyph_at 0 (8 * 64); glyph_at 0 (0 * 64)]
  = Raises ValueError_no_glyphs_found.
Proof.
  apply (draw_complex_glyph_no_glyphs always_ok (render_as dot)).
  repeat constructor.
Defined.

Lemma apply_bitmap_writes_inside_witness :
  apply_bitmap wide_canvas dot (point 0 0) (point 8 0)
  = Returns (canvas 9 1 [255; 0; 0; 0; 0; 0; 0; 0; 255]) /\
  forall c p,
    In c (apply_bitmap_calls wide_canvas dot (point 0 0) (point 8 0)) ->
    written c p ->
    exists dy, 0 <= dy < 1 /\
      mc_dst c = 8 + dy * 9 /\
      dy * 9 <= p < (dy + 1) * 9 /\ 0 <= p < 9 * 1.
Proof.
  split; [ reflexivity | ].
  apply (apply_bitmap_writes_inside wide_canvas dot (point 0 0) (point 8 0));
    by_evaluation.
Defined.

Lemma zero_glyph_changes_nothing_witness :
  draw_loop always_ok (render_as dot) 0
    ([glyph_at 1 (8 * 64)] ++ [glyph_at 0 (10 * 64)]) draw_init
  = draw_loop always_ok (render_as dot) 0 [glyph_at 1 (8 * 64)] draw_init.
Proof.
  apply (zero_glyph_changes_nothing always_ok (render_as dot)
           [glyph_at 1 (8 * 64)]
           (fst (glyph_at 0 (10 * 64))) (snd (glyph_at 0 (10 * 64)))
           [glyph_at 2 (0 * 64)] eq_refl).
Defined.

(** * More of the code *)

(** ** [draw_complex_glyph]: what comes back *)

Section DrawMore.
Variable alloc_ok : Z -> bool.
Variable _load_char : Z -> FT_GlyphSlotRec.

Lemma ensure_space_sized g width height g' :
  canvas_sized g ->
  ensure_space alloc_ok g width height = Returns (true, g') ->
  canvas_sized g'.
Proof.
  unfold ensure_space, canvas_sized. intros Hs.
  destruct ((width <=? gb_width g) && (height <=? gb_height g)).
  - intros H. injection H as <-. exact Hs.
  - unfold calloc. destruct (alloc_ok _); [ | discriminate ].
    intros H. apply bind_Returns in H. destruct H as (newbuf & Hrun & H).
    injection H as <-. apply defined_Returns in Hrun.
    cbn [buf block gb_width gb_height].
    rewrite (run_memcpys_len _ _ _ _ Hrun). apply len_zeros.
    apply to_uint_range.
Qed.

Lemma apply_bitmap_sized g bitmap src_start dest_start g' :
  canvas_sized g ->
  apply_bitmap g bitmap src_start dest_start = Returns g' ->
  canvas_sized g'.
Proof.
  unfold canvas_sized. intros Hs H.
  apply apply_bitmap_result in H. destruct H as (newbuf & Hrun & ->).
  pose proof (run_memcpys_len _ _ _ _ Hrun) as Hlen.
  rewrite block_with_block by exact Hlen.
  destruct g as [b w h m]. cbn [with_block gb_width gb_height] in *.
  lia.
Qed.

(** The steps of a glyph that is drawn, one by one. *)
Lemma draw_glyph_steps i info pos st st' :
  codepoint info <> 0 ->
  draw_glyph alloc_ok _load_char i info pos st = Returns st' ->
  let glyph := _load_char (codepoint info) in
  let g0 := if i =? 0
            then {| buf := buf (ds_g st); gb_width := gb_width (ds_g st);
                    gb_height := gb_height (ds_g st);
                    gb_metrics := slot_metrics glyph |}
            else ds_g st in
  exists g1 src_start dest_start,
    ensure_space alloc_ok g0 (ds_width st') (ds_height st') = Returns (true, g1) /\
    bm_pixel_mode (slot_bitmap glyph) = FT_PIXEL_MODE_GRAY /\
    apply_bitmap g1 (slot_bitmap glyph) src_start dest_start
    = Returns (ds_g st') /\
    ds_y st' = float_of_int 0 /\
    src_origin (cursor_add (ds_x st) (x_offset pos)) = Some (pt_x src_start) /\
    src_origin (cursor_sub (ds_y st) (y_offset pos)) = Some (pt_y src_start) /\
    dest_origin (cursor_add (ds_x st) (x_offset pos)) = Some (pt_x dest_start) /\
    dest_origin (cursor_sub (ds_y st) (y_offset pos)) = Some (pt_y dest_start).
Proof.
  intros Hid H glyph g0. unfold draw_glyph in H.
  destruct (Z.eqb_spec (codepoint info) 0) as [Hz | _]; [ contradiction | ].
  fold glyph in H. fold g0 in H.
  apply bind_Returns in H. destruct H as (w & Hw & H).
  apply bind_Returns in H. destruct H as (h & Hh & H).
  apply bind_Returns in H. destruct H as ([ok g1] & Hens & H).
  cbn beta iota zeta in H.
  destruct ok; cbn [negb] in H; [ | discriminate ].
  apply bind_Returns in H. destruct H as (sx & Hsx & H).
  apply bind_Returns in H. destruct H as (sy & Hsy & H).
  apply bind_Returns in H. destruct H as (dx & Hdx & H).
  apply bind_Returns in H. destruct H as (dy & Hdy & H).
  apply defined_Returns in Hsx, Hsy, Hdx, Hdy.
  destruct (Z.eqb_spec (bm_pixel_mode (slot_bitmap glyph)) FT_PIXEL_MODE_GRAY)
    as [Hgray | Hother]; cbn [negb] in H; [ | discriminate ].
  apply bind_Returns in H. destruct H as (g2 & Happ & H).
  injection H as <-. cbn [ds_width ds_height ds_g ds_y].
  exists g1, {| pt_x := sx; pt_y := sy |}, {| pt_x := dx; pt_y := dy |}.
  cbn [pt_x pt_y]. repeat split; assumption.
Qed.

Lemma draw_glyph_sized i info pos st st' :
  canvas_sized (ds_g st) ->
  draw_glyph alloc_ok _load_char i info pos st = Returns st' ->
  canvas_sized (ds_g st').
Proof.
  intros Hs H.
  destruct (Z.eq_dec (codepoint info) 0) as [Hz | Hnz].
  - rewrite draw_glyph_skip in H by exact Hz. injection H as <-. exact Hs.
  - apply draw_glyph_steps in H; [ | exact Hnz ].
    destruct H as (g1 & ss & ds & Hens & _ & Happ & _).
    eapply apply_bitmap_sized; [ | exact Happ ].
    eapply ensure_space_sized; [ | exact Hens ].
    destruct (i =? 0); exact Hs.
Qed.

Lemma draw_loop_sized sd : forall i st st',
  canvas_sized (ds_g st) ->
  draw_loop alloc_ok _load_char i sd st = Returns st' ->
  canvas_sized (ds_g st').
Proof.
  induction sd as [ | [info pos] rest IH]; intros i st st' Hs H.
  - simpl in H. injection H as <-. exact Hs.
  - cbn [draw_loop] in H. apply bind_Returns in H.
    destruct H as (st1 & H1 & H).
    eapply IH; [ | exact H ]. eapply draw_glyph_sized; eassumption.
Qed.

Lemma draw_complex_glyph_Returns sd c :
  draw_complex_glyph alloc_ok _load_char sd = Returns c ->
  exists final b,
    draw_loop alloc_ok _load_char 0 sd draw_init = Returns final /\
    buf (ds_g final) = Some b /\
    c = {| c_pixels :=
             slice b 0 (to_uint (gb_width (ds_g final) * gb_height (ds_g final)));
           c_metrics := gb_metrics (ds_g final);
           c_width := gb_width (ds_g final);
           c_height := gb_height (ds_g final) |}.
Proof.
  unfold draw_complex_glyph. intros H.
  apply bind_Returns in H. destruct H as (final & Hloop & H).
  destruct (buf (ds_g final)) as [b | ] eqn:Hb; [ | discriminate ].
  destruct (_ <=? _); [ | discriminate ].
  injection H as <-. exists final, b. repeat split; assumption.
Qed.

Lemma slice_whole b : slice b 0 (len b) = b.
Proof.
  unfold slice, len. rewrite Nat2Z.id. cbn [Z.to_nat skipn].
  apply firstn_all.
Qed.

(** X5.  When the loop of [draw_complex_glyph] ends with a canvas buffer,
    [PyByteArray_FromStringAndSize(g.buf, g.width * g.height)] reads that
    buffer to its end and not beyond: the buffer has exactly as many
    bytes as the [unsigned int] product the call is given, so the call
    returns, and the pixels it hands to Python are the whole buffer. *)
Theorem draw_complex_glyph_reads_whole_canvas sd final b :
  draw_loop alloc_ok _load_char 0 sd draw_init = Returns final ->
  buf (ds_g final) = Some b ->
  len b = to_uint (gb_width (ds_g final) * gb_height (ds_g final)) /\
  draw_complex_glyph alloc_ok _load_char sd
  = Returns {| c_pixels := b; c_metrics := gb_metrics (ds_g final);
               c_width := gb_width (ds_g final);
               c_height := gb_height (ds_g final) |}.
Proof.
  intros Hloop Hb.
  assert (Hs : canvas_sized (ds_g final)).
  { eapply draw_loop_sized; [ | exact Hloop ]. reflexivity. }
  unfold canvas_sized in Hs. rewrite Hb in Hs. cbn [block] in Hs.
  split; [ exact Hs | ].
  unfold draw_complex_glyph. rewrite Hloop. cbn [bind]. rewrite Hb.
  rewrite <- Hs. rewrite Z.leb_refl, slice_whole. reflexivity.
Qed.

(** X6.  When the first glyph of the run has an id other than 0, the
    metrics returned are the metrics of that glyph. *)
Theorem draw_complex_glyph_first_metrics info pos rest c :
  codepoint info <> 0 ->
  draw_complex_glyph alloc_ok _load_char ((info, pos) :: rest) = Returns c ->
  c_metrics c = slot_metrics (_load_char (codepoint info)).
Proof.
  intros Hid H. apply draw_complex_glyph_Returns in H.
  destruct H as (final & b & Hloop & _ & ->). cbn [c_metrics].
  cbn [draw_loop] in Hloop. apply bind_Returns in Hloop.
  destruct Hloop as (st1 & H1 & Hrest).
  apply draw_loop_keeps_metrics in Hrest; [ | lia ].
  rewrite Hrest.
  apply draw_glyph_Returns in H1; [ | exact Hid ].
  destruct H1 as (w & h & _ & _ & _ & _ & Hm & _). exact Hm.
Qed.

Lemma draw_loop_In sd : forall i st st' info pos,
  draw_loop alloc_ok _load_char i sd st = Returns st' ->
  In (info, pos) sd ->
  exists j before after,
    draw_glyph alloc_ok _load_char j info pos before = Returns after.
Proof.
  induction sd as [ | [info0 pos0] rest IH]; intros i st st' info pos H Hin.
  - contradiction.
  - cbn [draw_loop] in H. apply bind_Returns in H.
    destruct H as (st1 & H1 & H).
    destruct Hin as [Heq | Hin].
    + injection Heq as -> ->. eauto.
    + eapply IH; eassumption.
Qed.

(** X7.  [draw_complex_glyph] returns a bitmap only if every glyph of the
    run with an id other than 0 was rendered in [FT_PIXEL_MODE_GRAY]. *)
Theorem draw_complex_glyph_gray_only sd info pos c :
  In (info, pos) sd -> codepoint info <> 0 ->
  draw_complex_glyph alloc_ok _load_char sd = Returns c ->
  bm_pixel_mode (slot_bitmap (_load_char (codepoint info))) = FT_PIXEL_MODE_GRAY.
Proof.
  intros Hin Hid H. apply draw_complex_glyph_Returns in H.
  destruct H as (final & b & Hloop & _ & _).
  destruct (draw_loop_In _ _ _ _ _ _ Hloop Hin) as (j & before & after & Hstep).
  apply draw_glyph_steps in Hstep; [ | exact Hid ].
  destruct Hstep as (g1 & ss & ds & _ & Hgray & _). exact Hgray.
Qed.

End DrawMore.

Section DrawMore2.
Variable alloc_ok : Z -> bool.
Variable _load_char : Z -> FT_GlyphSlotRec.

(** A canvas gets a buffer only from an allocation that is granted. *)
Lemma ensure_space_stays_null g width height g' :
  (forall n, alloc_ok n = false) -> buf g = None ->
  ensure_space alloc_ok g width height = Returns (true, g') ->
  buf g' = None.
Proof.
  intros Hno Hnull. unfold ensure_space, calloc.
  destruct ((width <=? gb_width g) && (height <=? gb_height g)).
  - intros H. injection H as <-. exact Hnull.
  - rewrite Hno. discriminate.
Qed.

Lemma draw_loop_stays_null sd : forall i st st',
  (forall n, alloc_ok n = false) -> buf (ds_g st) = None ->
  draw_loop alloc_ok _load_char i sd st = Returns st' ->
  buf (ds_g st') = None.
Proof.
  induction sd as [ | [info pos] rest IH]; intros i st st' Hno Hnull H.
  - simpl in H. injection H as <-. exact Hnull.
  - cbn [draw_loop] in H. apply bind_Returns in H.
    destruct H as (st1 & H1 & H).
    apply (IH _ _ _ Hno) in H; [ exact H | ].
    destruct (Z.eq_dec (codepoint info) 0) as [Hz | Hnz].
    + rewrite draw_glyph_skip in H1 by exact Hz. injection H1 as <-. exact Hnull.
    + apply draw_glyph_steps in H1; [ | exact Hnz ].
      destruct H1 as (g1 & ss & ds & Hens & _ & Happ & _).
      apply ensure_space_stays_null in Hens;
        [ | exact Hno | destruct (i =? 0); exact Hnull ].
      apply apply_bitmap_result in Happ. destruct Happ as (nb & _ & Hg).
      rewrite Hg. unfold with_block. cbn [buf]. rewrite Hens. reflexivity.
Qed.

(** X8.  With an allocator that refuses every request
    [draw_complex_glyph] returns no bitmap, whatever the run. *)
Theorem draw_complex_glyph_needs_memory sd c :
  (forall n, alloc_ok n = false) ->
  draw_complex_glyph alloc_ok _load_char sd <> Returns c.
Proof.
  intros Hno H. apply draw_complex_glyph_Returns in H.
  destruct H as (final & b & Hloop & Hb & _).
  apply draw_loop_stays_null in Hloop; [ | exact Hno | reflexivity ].
  congruence.
Qed.

(** The width after a run is the width before it or the extent of one of
    the glyphs drawn. *)
Lemma draw_loop_width_attained sd : forall i st st',
  draw_loop alloc_ok _load_char i sd st = Returns st' ->
  ds_width st' = ds_width st \/
  exists pre info pos post before,
    sd = pre ++ (info, pos) :: post /\ codepoint info <> 0 /\
    draw_loop alloc_ok _load_char i pre st = Returns before /\
    extent (cursor_add (ds_x before) (x_offset pos))
      (bm_pitch (slot_bitmap (_load_char (codepoint info))))
    = Some (ds_width st').
Proof.
  induction sd as [ | [info pos] sd0 IH] using rev_ind; intros i st st' H.
  - simpl in H. injection H as <-. left. reflexivity.
  - rewrite draw_loop_app in H. apply bind_Returns in H.
    destruct H as (mid & Hmid & Hlast).
    cbn [draw_loop] in Hlast. apply bind_Returns in Hlast.
    destruct Hlast as (st1 & Hstep & Hret). injection Hret as <-.
    destruct (Z.eq_dec (codepoint info) 0) as [Hz | Hnz].
    + rewrite draw_glyph_skip in Hstep by exact Hz. injection Hstep as <-.
      destruct (IH _ _ _ Hmid) as [Hsame | (pre & info1 & pos1 & post & before & -> & Hid & Hpre & Hext)].
      * left. exact Hsame.
      * right. exists pre, info1, pos1, (post ++ [(info, pos)]), before.
        rewrite <- app_assoc. repeat split; assumption.
    + pose proof (draw_glyph_Returns _ _ _ _ _ _ _ Hnz Hstep) as Hg.
      cbv zeta in Hg. destruct Hg as (w & h & Ew & _ & Hw & _ & _ & _).
      rewrite MAX_spec in Hw.
      destruct (Z.max_spec (ds_width mid) w) as [(Hlt & Hmax) | (Hge & Hmax)].
      * right. exists sd0, info, pos, [], mid.
        repeat split; try assumption. rewrite Hw, Hmax. exact Ew.
      * destruct (IH _ _ _ Hmid) as [Hsame | (pre & info1 & pos1 & post & before & -> & Hid & Hpre & Hext)].
        -- left. lia.
        -- right. exists pre, info1, pos1, (post ++ [(info, pos)]), before.
           rewrite <- app_assoc. repeat split; try assumption.
           rewrite Hw, Hmax. exact Hext.
Qed.

Lemma draw_loop_height_attained sd : forall i st st',
  draw_loop alloc_ok _load_char i sd st = Returns st' ->
  ds_height st' = ds_height st \/
  exists pre info pos post before,
    sd = pre ++ (info, pos) :: post /\ codepoint info <> 0 /\
    draw_loop alloc_ok _load_char i pre st = Returns before /\
    extent (cursor_sub (ds_y before) (y_offset pos))
      (bm_rows (slot_bitmap (_load_char (codepoint info))))
    = Some (ds_height st').
Proof.
  induction sd as [ | [info pos] sd0 IH] using rev_ind; intros i st st' H.
  - simpl in H. injection H as <-. left. reflexivity.
  - rewrite draw_loop_app in H. apply bind_Returns in H.
    destruct H as (mid & Hmid & Hlast).
    cbn [draw_loop] in Hlast. apply bind_Returns in Hlast.
    destruct Hlast as (st1 & Hstep & Hret). injection Hret as <-.
    destruct (Z.eq_dec (codepoint info) 0) as [Hz | Hnz].
    + rewrite draw_glyph_skip in Hstep by exact Hz. injection Hstep as <-.
      destruct (IH _ _ _ Hmid) as [Hsame | (pre & info1 & pos1 & post & before & -> & Hid & Hpre & Hext)].
      * left. exact Hsame.
      * right. exists pre, info1, pos1, (post ++ [(info, pos)]), before.
        rewrite <- app_assoc. repeat split; assumption.
    + pose proof (draw_glyph_Returns _ _ _ _ _ _ _ Hnz Hstep) as Hg.
      cbv zeta in Hg. destruct Hg as (w & h & _ & Eh & _ & Hh & _ & _).
      rewrite MAX_spec in Hh.
      destruct (Z.max_spec (ds_height mid) h) as [(Hlt & Hmax) | (Hge & Hmax)].
      * right. exists sd0, info, pos, [], mid.
        repeat split; try assumption. rewrite Hh, Hmax. exact Eh.
      * destruct (IH _ _ _ Hmid) as [Hsame | (pre & info1 & pos1 & post & before & -> & Hid & Hpre & Hext)].
        -- left. lia.
        -- right. exists pre, info1, pos1, (post ++ [(info, pos)]), before.
           rewrite <- app_assoc. repeat split; try assumption.
           rewrite Hh, Hmax. exact Hext.
Qed.

(** X9.  The canvas returned is no larger than needed: a width other than
    0 is the extent [(unsigned int)ceilf(x + pitch)] of one of the glyphs
    drawn, a height other than 0 the extent [(unsigned int)ceilf(y + rows)]
    of one of them. *)
Theorem draw_complex_glyph_tight sd c :
  draw_complex_glyph alloc_ok _load_char sd = Returns c ->
  (c_width c <> 0 ->
   exists pre info pos post before,
     sd = pre ++ (info, pos) :: post /\ codepoint info <> 0 /\
     draw_loop alloc_ok _load_char 0 pre draw_init = Returns before /\
     extent (cursor_add (ds_x before) (x_offset pos))
       (bm_pitch (slot_bitmap (_load_char (codepoint info))))
     = Some (c_width c)) /\
  (c_height c <> 0 ->
   exists pre info pos post before,
     sd = pre ++ (info, pos) :: post /\ codepoint info <> 0 /\
     draw_loop alloc_ok _load_char 0 pre draw_init = Returns before /\
     extent (cursor_sub (ds_y before) (y_offset pos))
       (bm_rows (slot_bitmap (_load_char (codepoint info))))
     = Some (c_height c)).
Proof.
  intros H. apply draw_complex_glyph_Returns in H.
  destruct H as (final & b & Hloop & _ & ->). cbn [c_width c_height].
  destruct (draw_loop_tracks _ _ _ _ _ _ tracks_canvas_init Hloop)
    as ((Tw & Th) & _).
  rewrite Tw, Th. split.
  - intros Hpos.
    destruct (draw_loop_width_attained _ _ _ _ Hloop) as [Hsame | Hex];
      [ | exact Hex ].
    cbn in Hsame. contradiction.
  - intros Hpos.
    destruct (draw_loop_height_attained _ _ _ _ Hloop) as [Hsame | Hex];
      [ | exact Hex ].
    cbn in Hsame. contradiction.
Qed.

End DrawMore2.

(** ** [draw_complex_glyph]: a glyph with an empty bitmap *)

Lemma apply_bitmap_no_rows g bitmap src_start dest_start :
  bm_rows bitmap = 0 -> 0 <= pt_y src_start ->
  apply_bitmap g bitmap src_start dest_start = Returns g.
Proof.
  intros Hrows Hsy. unfold apply_bitmap.
  rewrite run_memcpys_nothing.
  - cbn [defined bind]. rewrite with_block_same. reflexivity.
  - intros c Hin. unfold apply_bitmap_calls in Hin.
    apply apply_bitmap_copies_In in Hin.
    destruct Hin as (k & Hk & Hs & _). lia.
Qed.

Section EmptyGlyph.
Variable alloc_ok : Z -> bool.
Variable _load_char : Z -> FT_GlyphSlotRec.

Lemma draw_glyph_empty_bitmap i info pos :
  codepoint info <> 0 -> x_offset pos = 0 -> y_offset pos = 0 ->
  bm_pitch (slot_bitmap (_load_char (codepoint info))) = 0 ->
  bm_rows (slot_bitmap (_load_char (codepoint info))) = 0 ->
  bm_pixel_mode (slot_bitmap (_load_char (codepoint info))) = FT_PIXEL_MODE_GRAY ->
  exists st',
    draw_glyph alloc_ok _load_char i info pos draw_init = Returns st' /\
    buf (ds_g st') = None.
Proof.
  intros Hid Hx Hy Hp Hr Hm. unfold draw_glyph.
  destruct (Z.eqb_spec (codepoint info) 0) as [Hz | _]; [ contradiction | ].
  rewrite Hx, Hy, Hp, Hr, Hm.
  change (extent (cursor_add (ds_x draw_init) 0) 0) with (Some 0).
  change (extent (cursor_sub (ds_y draw_init) 0) 0) with (Some 0).
  cbn [defined bind].
  change (MAX (ds_width draw_init) 0) with 0.
  change (MAX (ds_height draw_init) 0) with 0.
  change (src_origin (cursor_add (ds_x draw_init) 0)) with (Some 0).
  change (src_origin (cursor_sub (ds_y draw_init) 0)) with (Some 0).
  change (dest_origin (cursor_add (ds_x draw_init) 0)) with (Some 0).
  change (dest_origin (cursor_sub (ds_y draw_init) 0)) with (Some 0).
  unfold ensure_space.
  destruct (i =? 0); cbn [gb_width gb_height ds_g draw_init empty_GlyphBuffer];
    change ((0 <=? 0) && (0 <=? 0)) with true; cbn [bind negb defined];
    change (negb (FT_PIXEL_MODE_GRAY =? FT_PIXEL_MODE_GRAY)) with false;
    cbn iota; rewrite apply_bitmap_no_rows by (cbn [pt_y]; lia || exact Hr);
    cbn [bind]; eexists; split; reflexivity.
Qed.

(** X10.  A run whose only glyph with an id other than 0 has no offsets
    and an empty bitmap (no rows, pitch 0), as a space has, raises "No
    glyphs found": [ensure_space] is asked for 0 by 0 and allocates
    nothing, so [g.buf] stays NULL. *)
Theorem draw_complex_glyph_empty_bitmap pre info pos post :
  Forall (fun g => codepoint (fst g) = 0) pre ->
  Forall (fun g => codepoint (fst g) = 0) post ->
  codepoint info <> 0 -> x_offset pos = 0 -> y_offset pos = 0 ->
  bm_pitch (slot_bitmap (_load_char (codepoint info))) = 0 ->
  bm_rows (slot_bitmap (_load_char (codepoint info))) = 0 ->
  bm_pixel_mode (slot_bitmap (_load_char (codepoint info))) = FT_PIXEL_MODE_GRAY ->
  draw_complex_glyph alloc_ok _load_char (pre ++ (info, pos) :: post)
  = Raises ValueError_no_glyphs_found.
Proof.
  intros Hpre Hpost Hid Hx Hy Hp Hr Hm. unfold draw_complex_glyph.
  rewrite draw_loop_app, draw_loop_all_skipped by exact Hpre.
  cbn [bind draw_loop].
  destruct (draw_glyph_empty_bitmap (0 + Z.of_nat (length pre)) info pos
              Hid Hx Hy Hp Hr Hm) as (st' & Hstep & Hnull).
  rewrite Hstep. cbn [bind].
  rewrite draw_loop_all_skipped by exact Hpost. cbn [bind].
  rewrite Hnull. reflexivity.
Qed.

End EmptyGlyph.

(** ** [apply_bitmap] and [ensure_space] once more *)

Lemma to_size_t_row w h r :
  is_uint w -> is_uint h -> 0 <= r < h -> to_size_t (r * w) = r * w.
Proof.
  intros Hw Hh Hr. apply to_size_t_small. apply uint_mul_size_t.
  - unfold is_uint in *. lia.
  - exact Hw.
Qed.

Lemma apply_bitmap_copies_no_overwrite dest_width dest_height src_width
  src_height dest_start_x width sy dy :
  is_uint dest_width -> is_uint dest_height -> 0 <= dy ->
  0 <= dest_start_x -> width <= dest_width - dest_start_x ->
  no_overwrite (apply_bitmap_copies dest_width dest_height src_width src_height
                  dest_start_x width sy dy).
Proof.
  funelim (apply_bitmap_copies dest_width dest_height src_width src_height
             dest_start_x width sy dy);
    intros HW HH Hdy Hdx Hfit; simpl; try exact I.
  split; [ | apply H; try assumption; lia ].
  intros c' p Hin Hw Hw'.
  apply apply_bitmap_copies_In in Hin. destruct Hin as (k & Hk & Hs & Hd & ->).
  unfold written in *. cbn [mc_dst mc_n] in *.
  rewrite (to_size_t_row dest_width dest_height) in Hw, Hw' by (assumption || lia).
  unfold is_uint in HW.
  assert ((dy + 1) * dest_width <= (dy + 1 + k) * dest_width)
    by (apply Z.mul_le_mono_nonneg_r; lia).
  lia.
Qed.

(** X2.  What [apply_bitmap] copies, as the code has it: column [j] of
    the clipped width in row [dy + k] of the canvas receives byte [j] of
    row [sy + k] of the bitmap. *)
Theorem apply_bitmap_pixels dest bitmap src_start dest_start g' :
  is_uint (gb_width dest) -> is_uint (gb_height dest) ->
  is_size_t (pt_x dest_start) -> is_size_t (pt_y dest_start) ->
  is_size_t (pt_y src_start) ->
  is_uint (bm_rows bitmap) -> 0 <= bm_pitch bitmap < 2 ^ (UINT_WIDTH - 1) ->
  apply_bitmap dest bitmap src_start dest_start = Returns g' ->
  forall k j,
    0 <= k -> pt_y src_start + k < bm_rows bitmap ->
    pt_y dest_start + k < gb_height dest ->
    0 <= j < apply_bitmap_width dest bitmap src_start dest_start ->
    pixel g' (pt_x dest_start + j) (pt_y dest_start + k)
    = load (bm_buffer bitmap) ((pt_y src_start + k) * bm_pitch bitmap + j).
Proof.
  intros HW HH Hdx Hdy Hsy Hrows Hpitch Hret k j Hk Hs Hd Hj.
  assert (Hp : is_uint (bm_pitch bitmap)).
  { unfold is_uint, UINT_WIDTH in *.
    change (2 ^ (32 - 1)) with 2147483648 in Hpitch.
    change (2 ^ 32) with 4294967296. lia. }
  apply apply_bitmap_result in Hret. destruct Hret as (newbuf & Erun & ->).
  pose proof (run_memcpys_len _ _ _ _ Erun) as Hlen.
  unfold pixel. rewrite block_with_block by exact Hlen.
  cbn [with_block gb_width].
  assert (Hclip : apply_bitmap_width dest bitmap src_start dest_start
                  <= gb_width dest - pt_x dest_start).
  { unfold apply_bitmap_width in *. rewrite MIN_spec in *.
    pose proof (ZERO_SUB_range (to_size_t (bm_pitch bitmap)) (pt_x src_start)).
    destruct (ZERO_SUB_pos (gb_width dest) (pt_x dest_start)) as [_ Heq];
      [ apply is_uint_size_t; exact HW | exact Hdx | lia | ].
    lia. }
  unfold is_size_t in Hdx, Hdy, Hsy.
  rewrite (run_memcpys_written _ _ _ _
             {| mc_dst := pt_x dest_start
                          + to_size_t ((pt_y dest_start + k) * gb_width dest);
                mc_src := to_size_t ((pt_y src_start + k)
                                     * to_size_t (bm_pitch bitmap));
                mc_n := apply_bitmap_width dest bitmap src_start dest_start |}
             _ Erun).
  - cbn [mc_dst mc_src].
    rewrite (to_size_t_small (bm_pitch bitmap))
      by (apply is_uint_size_t; exact Hp).
    rewrite (to_size_t_row (gb_width dest) (gb_height dest))
      by (assumption || lia).
    rewrite (to_size_t_row (bm_pitch bitmap) (bm_rows bitmap))
      by (assumption || lia).
    f_equal. lia.
  - unfold apply_bitmap_calls.
    apply apply_bitmap_copies_no_overwrite; try assumption; lia.
  - unfold apply_bitmap_calls. apply apply_bitmap_copies_In.
    exists k. repeat split; try assumption.
  - unfold written. cbn [mc_dst mc_n].
    rewrite (to_size_t_row (gb_width dest) (gb_height dest))
      by (assumption || lia).
    lia.
Qed.

Section EnsureSpaceMore.
Variable alloc_ok : Z -> bool.

(** X3.  On a canvas whose buffer has [width * height] bytes, a request
    for dimensions at least the current ones whose product is below 2^32
    ends in one of two ways: [true] with a canvas of exactly the
    requested dimensions, a buffer of that size and the same metrics; or,
    when the canvas had to grow and the allocator refused, [false] with
    the canvas emptied. *)
Theorem ensure_space_outcome g width height :
  wf_GlyphBuffer g -> is_uint width -> is_uint height ->
  gb_width g <= width -> gb_height g <= height ->
  width * height < 2 ^ UINT_WIDTH ->
  (exists g',
     ensure_space alloc_ok g width height = Returns (true, g') /\
     wf_GlyphBuffer g' /\ gb_width g' = width /\ gb_height g' = height /\
     gb_metrics g' = gb_metrics g) \/
  (ensure_space alloc_ok g width height
   = Returns (false, {| buf := None; gb_width := 0; gb_height := 0;
                        gb_metrics := gb_metrics g |}) /\
   alloc_ok (width * height) = false /\
   (gb_width g < width \/ gb_height g < height)).
Proof.
  intros Hwf Huw Huh Hgw Hgh Hb.
  pose proof Hwf as (Hw & Hh & Hlen). unfold is_uint in Hw, Hh.
  assert (H0 : 0 <= width * height) by (apply Z.mul_nonneg_nonneg; lia).
  destruct ((width <=? gb_width g) && (height <=? gb_height g)) eqn:Hcov.
  - left. exists g. apply andb_true_iff in Hcov. destruct Hcov as [Hcw Hch].
    apply Z.leb_le in Hcw, Hch.
    unfold ensure_space. destruct (Z.leb_spec width (gb_width g)); [ | lia ].
    destruct (Z.leb_spec height (gb_height g)); [ | lia ].
    repeat split; try assumption; lia.
  - assert (Hgrow : gb_width g < width \/ gb_height g < height).
    { apply andb_false_iff in Hcov.
      destruct Hcov as [Hc | Hc]; apply Z.leb_gt in Hc; lia. }
    destruct (alloc_ok (width * height)) eqn:Hal.
    + left.
      destruct (ensure_space_succeeds alloc_ok g width height Hwf Hgw Hgh Hb Hal)
        as (g' & E).
      exists g'. split; [ exact E | ].
      assert (Hgs : canvas_sized g).
      { unfold canvas_sized. rewrite Hlen. symmetry. apply to_uint_small.
        unfold is_uint. split; [ apply Z.mul_nonneg_nonneg; lia | ].
        assert (gb_width g * gb_height g <= width * height)
          by (apply Z.mul_le_mono_nonneg; lia).
        lia. }
      pose proof (ensure_space_sized _ _ _ _ _ Hgs E) as Hsized.
      apply ensure_space_Returns in E. destruct E as (Hm & Hd).
      destruct (Hd eq_refl) as [(-> & Hcw & Hch) | (Hgw' & Hgh')]; [ lia | ].
      unfold canvas_sized in Hsized. rewrite Hgw', Hgh' in Hsized.
      rewrite to_uint_small in Hsized by (unfold is_uint; lia).
      unfold wf_GlyphBuffer. rewrite Hgw', Hgh'.
      repeat split; try assumption; apply Huw || apply Huh.
    + right. unfold ensure_space, calloc. rewrite Hcov.
      rewrite to_uint_small by (unfold is_uint; lia). rewrite Hal.
      repeat split; assumption.
Qed.

End EnsureSpaceMore.

(** ** [trim_to_width] once more *)

Lemma In_Zrange lo n y : In y (Zrange lo n) <-> lo <= y < lo + Z.of_nat n.
Proof.
  revert lo. induction n as [ | n IH]; intros lo; cbn [Zrange In].
  - lia.
  - rewrite IH. lia.
Qed.

Lemma blank_column_pixels src rows width x :
  blank_column src rows width x = true <->
  forall y, 0 <= y < rows ->
    exists v, load src (y * width + x) = Some v /\ v <= 200.
Proof.
  unfold blank_column. rewrite forallb_forall. split.
  - intros H y Hy. specialize (H y). rewrite In_Zrange in H.
    specialize (H ltac:(lia)). unfold blank_pixel in H.
    destruct (load src (y * width + x)) as [v | ]; [ | discriminate ].
    exists v. split; [ reflexivity | ]. apply Z.leb_le. exact H.
  - intros H y Hy. rewrite In_Zrange in Hy.
    destruct (H y ltac:(lia)) as (v & Hv & Hle).
    unfold blank_pixel. rewrite Hv. apply Z.leb_le. exact Hle.
Qed.

Lemma ink_column_pixels src rows width x :
  0 <= rows -> rows * width <= len src -> 0 <= x < width ->
  blank_column src rows width x = false ->
  exists y v, 0 <= y < rows /\ load src (y * width + x) = Some v /\ 200 < v.
Proof.
  intros Hrows Hlen Hx H. unfold blank_column in H.
  assert (Hex : exists y, In y (Zrange 0 (Z.to_nat rows)) /\
                          blank_pixel src width x y = false).
  { clear - H. induction (Zrange 0 (Z.to_nat rows)) as [ | a l IH]; [ discriminate | ].
    cbn [forallb] in H. apply andb_false_iff in H. destruct H as [H | H].
    - exists a. split; [ left; reflexivity | exact H ].
    - destruct (IH H) as (y & Hin & Hy). exists y. split; [ right; exact Hin | exact Hy ]. }
  destruct Hex as (y & Hin & Hy). apply In_Zrange in Hin.
  unfold blank_pixel in Hy.
  pose proof (row_offset_bound width rows y x) as Hoff.
  rewrite (Z.mul_comm width rows) in Hoff.
  destruct (load_in_range src (y * width + x)) as [v Hv]; [ lia | ].
  rewrite Hv in Hy. exists y, v. apply Z.leb_gt in Hy.
  repeat split; try assumption; lia.
Qed.

Lemma blank_columns_from_right_le src rows width n :
  blank_columns_from_right src rows width n <= Z.of_nat n.
Proof.
  induction n as [ | n IH]; cbn [blank_columns_from_right]; [ lia | ].
  destruct (blank_column _ _ _ _); lia.
Qed.

Lemma blank_columns_from_right_blank src rows width n x :
  Z.of_nat n - blank_columns_from_right src rows width n <= x < Z.of_nat n ->
  blank_column src rows width x = true.
Proof.
  induction n as [ | n IH]; cbn [blank_columns_from_right]; [ lia | ].
  destruct (blank_column src rows width (Z.of_nat n)) eqn:Hb; [ | lia ].
  intros Hx. destruct (Z.eq_dec x (Z.of_nat n)) as [-> | Hne]; [ exact Hb | ].
  apply IH. lia.
Qed.

Lemma blank_columns_from_right_stop src rows width n :
  blank_columns_from_right src rows width n < Z.of_nat n ->
  blank_column src rows width
    (Z.of_nat n - 1 - blank_columns_from_right src rows width n) = false.
Proof.
  induction n as [ | n IH]; cbn [blank_columns_from_right]; [ lia | ].
  destruct (blank_column src rows width (Z.of_nat n)) eqn:Hb.
  - intros Hlt.
    replace (Z.of_nat (S n) - 1 - (1 + blank_columns_from_right src rows width n))
      with (Z.of_nat n - 1 - blank_columns_from_right src rows width n) by lia.
    apply IH. lia.
  - intros _. replace (Z.of_nat (S n) - 1 - 0) with (Z.of_nat n) by lia. exact Hb.
Qed.

(** The two trims for a cell that the bitmap fits after trimming. *)
Lemma trim_amounts_value src rows width cell_width :
  cell_width <= width -> 0 <= rows -> width < 2 ^ (SIZE_WIDTH - 1) ->
  rows * width < 2 ^ SIZE_WIDTH -> rows * width <= len src ->
  let extra := width - cell_width in
  let rtrim :=
    Z.min extra (blank_columns_from_right src rows width (Z.to_nat width)) in
  0 <= cell_width ->
  trim_amounts src rows width cell_width = Returns (rtrim, extra - rtrim).
Proof.
  intros Hw Hrows Hlong Hov Hlen extra rtrim Hcw.
  pose proof (blank_columns_from_right_nonneg src rows width (Z.to_nat width))
    as Hnn.
  assert (Hsz : 2 ^ (SIZE_WIDTH - 1) < 2 ^ SIZE_WIDTH) by reflexivity.
  assert (Hex : 0 <= extra) by (subst extra; lia).
  assert (Hrt : 0 <= rtrim <= extra) by (subst rtrim; lia).
  unfold trim_amounts.
  replace (to_ulong (width - cell_width)) with extra
    by (symmetry; apply to_ulong_small; unfold is_ulong; subst extra; lia).
  destruct (Z.eq_dec width 0) as [Hw0 | Hw0].
  - assert (extra = 0) by (subst extra; lia).
    rewrite trim_scan_no_budget by lia. cbn [bind].
    rewrite MIN_spec.
    replace (Z.min extra 0) with rtrim by (subst rtrim; lia).
    rewrite to_ulong_small by (unfold is_ulong; lia). reflexivity.
  - rewrite to_long_small by lia.
    rewrite trim_scan_blank_columns; try reflexivity; try lia.
    cbn [bind]. replace (width - 1 + 1) with width by lia.
    rewrite Z.add_0_l. fold rtrim.
    rewrite MIN_spec. rewrite (Z.min_r extra rtrim) by lia.
    rewrite to_ulong_small by (unfold is_ulong; lia).
    reflexivity.
Qed.

Lemma column_scan_no_raise src rows width x e : forall fuel y,
  column_scan fuel src rows width x y <> Raises e.
Proof.
  induction fuel as [ | fuel IH]; intros y; cbn [column_scan].
  - destruct (_ <? _); discriminate.
  - destruct (_ <? _); [ | discriminate ].
    destruct (load src _) as [v | ]; [ | discriminate ].
    destruct (200 <? v); [ discriminate | apply IH ].
Qed.

Lemma trim_scan_no_raise src rows width extra x rtrim b e :
  trim_scan src rows width extra x rtrim b <> Raises e.
Proof.
  funelim (trim_scan src rows width extra x rtrim b);
    try discriminate; try (apply H).
  match goal with
  | Hc : column_scan _ _ _ _ _ _ = Raises _ |- _ =>
      exfalso; revert Hc; apply column_scan_no_raise
  end.
Qed.

Lemma trim_amounts_no_raise src rows width cell_width e :
  trim_amounts src rows width cell_width <> Raises e.
Proof.
  unfold trim_amounts.
  pose proof (trim_scan_no_raise src rows width (to_ulong (width - cell_width))
                (to_long (width - 1)) 0 false e) as H.
  destruct (trim_scan _ _ _ _ _ _ _); cbn [bind]; try discriminate.
  intros Heq. apply H. injection Heq as ->. reflexivity.
Qed.

Section TrimMore.
Variable alloc_ok : Z -> bool.

(** What [trim_to_width] returns, when it returns. *)
Lemma trim_to_width_Returns bitmap cell_width out :
  trim_to_width alloc_ok bitmap cell_width = Returns out ->
  bm_rows out = bm_rows bitmap /\
  bm_width out = cell_width /\ bm_pitch out = cell_width /\
  bm_num_grays out = bm_num_grays bitmap /\
  bm_pixel_mode out = bm_pixel_mode bitmap /\
  bm_palette_mode out = bm_palette_mode bitmap /\
  len (bm_buffer out) = to_ulong (cell_width * bm_rows bitmap) /\
  to_ulong (bm_width bitmap - cell_width) < cell_width.
Proof.
  unfold trim_to_width.
  destruct (Z.leb_spec cell_width (to_ulong (bm_width bitmap - cell_width)))
    as [ | Hextra ]; [ discriminate | ].
  destruct (negb _); [ discriminate | ].
  intros H. apply bind_Returns in H. destruct H as ([rt lt] & _ & H).
  cbn beta iota zeta in H.
  apply bind_Returns in H. destruct H as (abuf & Hrun & H).
  apply defined_Returns in Hrun. injection H as <-.
  cbn [bm_rows bm_width bm_pitch bm_num_grays bm_pixel_mode bm_palette_mode
       bm_buffer].
  repeat split; try assumption.
  rewrite (run_memcpys_len _ _ _ _ Hrun). apply len_zeros.
  apply to_ulong_range.
Qed.

(** X12.  For a cell width of at most 2^63, [trim_to_width] raises "Too
    large for trimming" exactly when the width is not in
    [cell_width .. 2 * cell_width - 1]: also for a bitmap narrower than
    the cell, whose excess wraps around as an [unsigned long]. *)
Theorem trim_to_width_too_large bitmap cell_width :
  is_ulong (bm_width bitmap) -> 0 <= cell_width <= 2 ^ (SIZE_WIDTH - 1) ->
  (trim_to_width alloc_ok bitmap cell_width = Raises FreeType_Exception_too_large
   <-> ~ (cell_width <= bm_width bitmap < 2 * cell_width)).
Proof.
  intros Hw Hcw. unfold is_ulong in Hw.
  assert (Hsz : 2 * 2 ^ (SIZE_WIDTH - 1) = 2 ^ SIZE_WIDTH) by reflexivity.
  unfold trim_to_width, to_ulong.
  destruct (Z_lt_le_dec (bm_width bitmap) cell_width) as [Hlt | Hge].
  - replace ((bm_width bitmap - cell_width) mod 2 ^ SIZE_WIDTH)
      with (bm_width bitmap - cell_width + 2 ^ SIZE_WIDTH)
      by (apply Z.mod_unique with (q := -1); lia).
    destruct (Z.leb_spec cell_width (bm_width bitmap - cell_width + 2 ^ SIZE_WIDTH));
      [ | lia ].
    split; [ lia | reflexivity ].
  - rewrite (Z.mod_small (bm_width bitmap - cell_width)) by lia.
    destruct (Z.leb_spec cell_width (bm_width bitmap - cell_width)).
    + split; [ lia | reflexivity ].
    + split; [ | lia ].
      destruct (negb _); [ discriminate | ].
      pose proof (trim_amounts_no_raise (bm_buffer bitmap) (bm_rows bitmap)
                    (bm_width bitmap) cell_width FreeType_Exception_too_large)
        as Hnr.
      destruct (trim_amounts _ _ _ _) as [[rt lt] | e | | ]; cbn [bind];
        try discriminate;
        [ | intros Heq; exfalso; apply Hnr; injection Heq as ->; reflexivity ].
      destruct (run_memcpys _ _ _); cbn [defined bind]; discriminate.
Qed.

(** X13.  For [0 < cell_width <= width < 2 * cell_width] the call
    returns; [ltrim + cell_width + rtrim = width]; every pixel of the
    [rtrim] columns dropped on the right has an intensity of at most 200;
    and columns are dropped on the left only when the column next to the
    ones dropped on the right has a pixel above 200. *)
Theorem trim_to_width_drops_blank bitmap cell_width :
  let rows := bm_rows bitmap in
  let width := bm_width bitmap in
  let src := bm_buffer bitmap in
  0 < cell_width -> cell_width <= width < 2 * cell_width ->
  0 <= rows -> width < 2 ^ (SIZE_WIDTH - 1) ->
  rows * width < 2 ^ SIZE_WIDTH -> rows * width <= len src ->
  alloc_ok (cell_width * rows) = true ->
  exists rtrim ltrim out,
    trim_amounts src rows width cell_width = Returns (rtrim, ltrim) /\
    trim_to_width alloc_ok bitmap cell_width = Returns out /\
    0 <= rtrim /\ 0 <= ltrim /\ ltrim + cell_width + rtrim = width /\
    (forall x y, width - rtrim <= x < width -> 0 <= y < rows ->
       exists v, load src (y * width + x) = Some v /\ v <= 200) /\
    (0 < ltrim ->
       exists y v, 0 <= y < rows /\
         load src (y * width + (width - 1 - rtrim)) = Some v /\ 200 < v).
Proof.
  intros rows width src Hcw Hw Hrows Hlong Hov Hlen Hal.
  pose proof (trim_amounts_value src rows width cell_width) as Hamounts.
  cbv zeta in Hamounts.
  specialize (Hamounts ltac:(lia) Hrows Hlong Hov Hlen ltac:(lia)).
  set (extra := width - cell_width) in *.
  set (count := blank_columns_from_right src rows width (Z.to_nat width)) in *.
  pose proof (blank_columns_from_right_nonneg src rows width (Z.to_nat width))
    as Hnn. fold count in Hnn.
  pose proof (blank_columns_from_right_le src rows width (Z.to_nat width))
    as Hle. fold count in Hle.
  set (rtrim := Z.min extra count) in *.
  assert (Hrt : 0 <= rtrim <= extra) by (subst rtrim extra; lia).
  assert (Hcr : cell_width * rows <= width * rows)
    by (apply Z.mul_le_mono_nonneg_r; lia).
  assert (Hcr0 : 0 <= cell_width * rows) by (apply Z.mul_nonneg_nonneg; lia).
  assert (Hsz : 2 ^ (SIZE_WIDTH - 1) < 2 ^ SIZE_WIDTH) by reflexivity.
  assert (Hfit : extra - rtrim + cell_width <= width) by (subst extra; lia).
  assert (Hzl : len (zeros (cell_width * rows)) = rows * cell_width)
    by (rewrite len_zeros by lia; lia).
  destruct (trim_copies_result rows width cell_width (extra - rtrim)
              (zeros (cell_width * rows)) src)
    as (abuf & Erun & _ & _); try lia.
  exists rtrim, (extra - rtrim). eexists.
  split; [ exact Hamounts | ]. split.
  { unfold trim_to_width. fold rows width src.
    replace (to_ulong (width - cell_width)) with extra
      by (symmetry; apply to_ulong_small; unfold is_ulong; subst extra; lia).
    destruct (Z.leb_spec cell_width extra); [ subst extra; lia | ].
    rewrite (to_ulong_small (cell_width * rows)) by (unfold is_ulong; lia).
    rewrite Hal. cbn [negb]. rewrite Hamounts. cbn [bind].
    rewrite Erun. cbn [defined bind]. reflexivity. }
  split; [ lia | ]. split; [ lia | ]. split; [ subst extra; lia | ].
  split.
  - intros x y Hx Hy.
    assert (Hb : blank_column src rows width x = true).
    { apply (blank_columns_from_right_blank src rows width (Z.to_nat width)).
      fold count. subst rtrim. lia. }
    apply (proj1 (blank_column_pixels src rows width x) Hb y Hy).
  - intros Hl.
    assert (Hlt : count < extra) by (subst rtrim; lia).
    assert (Hr : rtrim = count) by (subst rtrim; lia).
    pose proof (blank_columns_from_right_stop src rows width (Z.to_nat width))
      as Hstop. fold count in Hstop.
    rewrite Z2Nat.id in Hstop by lia.
    specialize (Hstop ltac:(subst extra; lia)).
    rewrite Hr.
    apply ink_column_pixels; try assumption. subst extra. lia.
Qed.

End TrimMore.

Section TrimTwice.
Variable alloc_ok : Z -> bool.

(** A bitmap that is as wide as the cell and packed comes back as it is. *)
Lemma trim_to_width_packed rows cell_width pixels grays mode palette :
  0 < cell_width < 2 ^ (SIZE_WIDTH - 1) -> 0 <= rows ->
  rows * cell_width < 2 ^ SIZE_WIDTH -> len pixels = rows * cell_width ->
  alloc_ok (cell_width * rows) = true ->
  let b := {| bm_rows := rows; bm_width := cell_width; bm_pitch := cell_width;
              bm_buffer := pixels; bm_num_grays := grays;
              bm_pixel_mode := mode; bm_palette_mode := palette |} in
  trim_to_width alloc_ok b cell_width = Returns b.
Proof.
  intros Hcw Hrows Hov Hlen Hal b.
  pose proof (trim_amounts_value pixels rows cell_width cell_width) as Ham.
  cbv zeta in Ham.
  specialize (Ham ltac:(lia) Hrows ltac:(lia) Hov ltac:(lia) ltac:(lia)).
  rewrite Z.sub_diag in Ham.
  pose proof (blank_columns_from_right_nonneg pixels rows cell_width
                (Z.to_nat cell_width)) as Hnn.
  rewrite Z.min_l in Ham by exact Hnn. rewrite Z.sub_diag in Ham.
  assert (H0 : 0 <= cell_width * rows) by (apply Z.mul_nonneg_nonneg; lia).
  destruct (trim_copies_result rows cell_width cell_width 0
              (zeros (cell_width * rows)) pixels)
    as (abuf & Erun & Hlabuf & Hload); try lia.
  { rewrite len_zeros by lia. lia. }
  unfold trim_to_width. subst b. cbn [bm_rows bm_width bm_buffer bm_num_grays
                                      bm_pixel_mode bm_palette_mode].
  rewrite Z.sub_diag. change (to_ulong 0) with 0.
  destruct (Z.leb_spec cell_width 0); [ lia | ].
  rewrite (to_ulong_small (cell_width * rows)) by (unfold is_ulong; lia).
  rewrite Hal. cbn [negb]. rewrite Ham. cbn [bind].
  rewrite Erun. cbn [defined bind]. do 2 f_equal.
  apply load_ext; [ lia | ].
  intros i Hi. rewrite Hlabuf in Hi.
  assert (Hdiv : i = (i / cell_width) * cell_width + i mod cell_width).
  { rewrite Z.mul_comm. apply Z.div_mod. lia. }
  pose proof (Z.mod_pos_bound i cell_width ltac:(lia)) as Hmod.
  assert (Hq : 0 <= i / cell_width < rows).
  { split; [ apply Z.div_pos; lia | ].
    apply Z.div_lt_upper_bound; lia. }
  rewrite Hdiv at 1. rewrite Hload by lia.
  f_equal. lia.
Qed.

(** X14.  Trimming what [trim_to_width] has returned to the same cell
    width returns it unchanged. *)
Theorem trim_to_width_twice bitmap cell_width out :
  0 < cell_width < 2 ^ (SIZE_WIDTH - 1) -> 0 <= bm_rows bitmap ->
  bm_rows bitmap * cell_width < 2 ^ SIZE_WIDTH ->
  trim_to_width alloc_ok bitmap cell_width = Returns out ->
  trim_to_width alloc_ok out cell_width = Returns out.
Proof.
  intros Hcw Hrows Hov Hret.
  assert (Hal : alloc_ok (cell_width * bm_rows bitmap) = true).
  { unfold trim_to_width in Hret.
    destruct (_ <=? _); [ discriminate | ].
    assert (H0 : 0 <= cell_width * bm_rows bitmap)
      by (apply Z.mul_nonneg_nonneg; lia).
    rewrite (to_ulong_small (cell_width * bm_rows bitmap)) in Hret
      by (unfold is_ulong; lia).
    destruct (alloc_ok _); [ reflexivity | discriminate ]. }
  apply trim_to_width_Returns in Hret.
  destruct Hret as (Hr & Hw & Hp & Hg & Hm & Hpal & Hlen & _).
  destruct out as [r w p b g m pl]. cbn in Hr, Hw, Hp, Hg, Hm, Hpal, Hlen.
  subst r w p.
  assert (H0 : 0 <= cell_width * bm_rows bitmap)
    by (apply Z.mul_nonneg_nonneg; lia).
  rewrite to_ulong_small in Hlen by (unfold is_ulong; lia).
  apply (trim_to_width_packed (bm_rows bitmap) cell_width b g m pl);
    try assumption; lia.
Qed.

End TrimTwice.

(** ** [get_load_flags] *)

(** X15.  [get_load_flags] bit by bit: every bit of [base] stays; bit 1
    ([FT_LOAD_NO_HINTING]) is added exactly when [hinting] is 0; bit 16
    ([FT_LOAD_TARGET_LIGHT]) exactly when [hinting] is on and
    [hintstyle] is 1 or 2; no other bit is touched, so with hinting on a
    [hintstyle] of 0 or less gives the flags of a [hintstyle] of 3 or
    more. *)
Theorem get_load_flags_bits hinting hintstyle base n :
  0 <= n ->
  Z.testbit (get_load_flags hinting hintstyle base) n
  = Z.testbit base n
    || ((n =? 1) && (hinting =? 0))
    || ((n =? 16) && negb (hinting =? 0)
        && (0 <? hintstyle) && (hintstyle <? 3)).
Proof.
  intros Hn. unfold get_load_flags.
  change FT_LOAD_NO_HINTING with (2 ^ 1).
  change FT_LOAD_TARGET_LIGHT with (2 ^ 16).
  change FT_LOAD_TARGET_NORMAL with 0.
  destruct (Z.eqb_spec hinting 0) as [Hh | Hh]; cbn [negb].
  - rewrite Z.lor_spec, Z.pow2_bits_eqb by lia.
    rewrite (Z.eqb_sym 1 n). rewrite !andb_true_r, !andb_false_r, orb_false_r.
    reflexivity.
  - rewrite !andb_false_r, orb_false_r, andb_true_r.
    destruct (Z.leb_spec 3 hintstyle) as [H3 | H3].
    + rewrite Z.lor_0_r.
      destruct (Z.ltb_spec hintstyle 3); [ lia | ].
      rewrite !andb_false_r, orb_false_r. reflexivity.
    + destruct (Z.ltb_spec 0 hintstyle) as [H0 | H0]; cbn [andb].
      * destruct (Z.ltb_spec hintstyle 3); [ | lia ].
        rewrite Z.lor_spec, Z.pow2_bits_eqb by lia.
        rewrite (Z.eqb_sym 16 n), !andb_true_r. reflexivity.
      * rewrite !andb_false_r, orb_false_r. reflexivity.
Qed.

Lemma get_load_flags_lor hinting hintstyle a b :
  get_load_flags hinting hintstyle (Z.lor a b)
  = Z.lor (get_load_flags hinting hintstyle a) b.
Proof.
  unfold get_load_flags.
  destruct (negb (hinting =? 0)).
  - destruct (3 <=? hintstyle).
    + rewrite <- !Z.lor_assoc. f_equal. apply Z.lor_comm.
    + destruct ((0 <? hintstyle) && (hintstyle <? 3)); [ | reflexivity ].
      rewrite <- !Z.lor_assoc. f_equal. apply Z.lor_comm.
  - rewrite <- !Z.lor_assoc. f_equal. apply Z.lor_comm.
Qed.

Lemma _shape_load_flags_values hinting hintstyle :
  _shape_load_flags hinting hintstyle = 0 \/
  _shape_load_flags hinting hintstyle = FT_LOAD_TARGET_LIGHT \/
  _shape_load_flags hinting hintstyle = FT_LOAD_NO_HINTING.
Proof.
  unfold _shape_load_flags, get_load_flags.
  destruct (negb (hinting =? 0)); [ | right; right; reflexivity ].
  destruct (3 <=? hintstyle); [ left; reflexivity | ].
  destruct ((0 <? hintstyle) && (hintstyle <? 3));
    [ right; left; reflexivity | left; reflexivity ].
Qed.

(** X16.  The flags [_load_char] loads a glyph with are the flags
    [_shape] gives HarfBuzz plus [FT_LOAD_RENDER]: the two agree on every
    other bit, and only [_load_char] renders. *)
Theorem load_flags_agree hinting hintstyle :
  _load_char_flags hinting hintstyle
  = Z.lor (_shape_load_flags hinting hintstyle) FT_LOAD_RENDER /\
  Z.testbit (_load_char_flags hinting hintstyle) 2 = true /\
  Z.testbit (_shape_load_flags hinting hintstyle) 2 = false /\
  forall n, 0 <= n -> n <> 2 ->
    Z.testbit (_load_char_flags hinting hintstyle) n
    = Z.testbit (_shape_load_flags hinting hintstyle) n.
Proof.
  assert (Heq : _load_char_flags hinting hintstyle
                = Z.lor (_shape_load_flags hinting hintstyle) FT_LOAD_RENDER).
  { unfold _load_char_flags, _shape_load_flags.
    rewrite <- get_load_flags_lor. reflexivity. }
  assert (Hshape : Z.testbit (_shape_load_flags hinting hintstyle) 2 = false).
  { destruct (_shape_load_flags_values hinting hintstyle) as [-> | [-> | ->]];
      reflexivity. }
  split; [ exact Heq | ]. split; [ | split; [ exact Hshape | ] ].
  - rewrite Heq, Z.lor_spec. apply orb_true_r.
  - intros n Hn Hne. rewrite Heq, Z.lor_spec.
    change FT_LOAD_RENDER with (2 ^ 2). rewrite Z.pow2_bits_eqb by lia.
    destruct (Z.eqb_spec 2 n); [ lia | apply orb_false_r ].
Qed.

(** ** A glyph drawn on a canvas *)

Lemma float_to_size_t_range f n : float_to_size_t f = Some n -> is_size_t n.
Proof.
  intros H. apply float_to_unsigned_range in H.
  unfold is_size_t. destruct H as [H | ->]; [ exact H | ].
  split; [ lia | reflexivity ].
Qed.

Lemma dest_origin_range x n : dest_origin x = Some n -> is_size_t n.
Proof. apply float_to_size_t_range. Qed.

Lemma extent_range x k n : extent x k = Some n -> is_uint n.
Proof. apply float_to_uint_range. Qed.

Section KeepPixels.
Variable alloc_ok : Z -> bool.
Variable _load_char : Z -> FT_GlyphSlotRec.

(** A grow that succeeds: the canvas it leaves. *)
Lemma ensure_space_grown g width height g' :
  wf_GlyphBuffer g -> is_uint width -> is_uint height ->
  gb_width g <= width -> gb_height g <= height ->
  width * height < 2 ^ UINT_WIDTH ->
  ensure_space alloc_ok g width height = Returns (true, g') ->
  wf_GlyphBuffer g' /\ gb_width g' = width /\ gb_height g' = height /\
  forall x y, 0 <= x < width -> 0 <= y < height ->
    pixel g' x y = if (x <? gb_width g) && (y <? gb_height g)
                   then pixel g x y else Some 0.
Proof.
  intros Hwf Huw Huh Hgw Hgh Hb.
  pose proof Hwf as (Hw & Hh & Hlen). unfold is_uint in Hw, Hh.
  unfold ensure_space.
  destruct ((width <=? gb_width g) && (height <=? gb_height g)) eqn:Hcov.
  - apply andb_true_iff in Hcov. destruct Hcov as [Hcw Hch].
    apply Z.leb_le in Hcw, Hch.
    intros E. injection E as <-.
    split; [ exact Hwf | ]. split; [ lia | ]. split; [ lia | ].
    intros x y Hx Hy.
    destruct (Z.ltb_spec x (gb_width g)); [ | lia ].
    destruct (Z.ltb_spec y (gb_height g)); [ reflexivity | lia ].
  - assert (H0 : 0 <= width * height) by (apply Z.mul_nonneg_nonneg; lia).
    rewrite to_uint_small by (unfold is_uint; lia).
    unfold calloc. destruct (alloc_ok (width * height)); [ | discriminate ].
    destruct (run_memcpys (zeros (width * height)) (block (buf g))
                (ensure_space_copies (gb_width g) (gb_height g) width 0))
      as [newbuf | ] eqn:Erun; [ | discriminate ].
    cbn [defined bind]. intros E. injection E as <-.
    assert (Hlen' : len newbuf = width * height).
    { rewrite (run_memcpys_len _ _ _ _ Erun). apply len_zeros. lia. }
    assert (Hb' : width * gb_height g < 2 ^ UINT_WIDTH).
    { assert (width * gb_height g <= width * height)
        by (apply Z.mul_le_mono_nonneg_l; lia). lia. }
    split; [ repeat split; try assumption; apply Huw || apply Huh | ].
    split; [ reflexivity | ]. split; [ reflexivity | ].
    unfold pixel. cbn [buf block gb_width gb_height].
    intros x y Hx Hy.
    destruct (Z.ltb_spec x (gb_width g)) as [Hxo | Hxn];
      [ destruct (Z.ltb_spec y (gb_height g)) as [Hyo | Hyn] | ]; cbn [andb].
    + rewrite (run_memcpys_written _ _ _ _
                 {| mc_dst := to_uint (y * width);
                    mc_src := to_uint (y * gb_width g);
                    mc_n := gb_width g |} _ Erun).
      * cbn [mc_dst mc_src].
        rewrite (to_uint_row width (gb_height g)) by lia.
        assert (gb_width g * gb_height g <= width * gb_height g)
          by (apply Z.mul_le_mono_nonneg_r; lia).
        rewrite (to_uint_row (gb_width g) (gb_height g)) by lia.
        f_equal. lia.
      * apply ensure_space_copies_no_overwrite; lia.
      * apply ensure_space_copies_In. exists y. split; [ lia | reflexivity ].
      * unfold written. cbn [mc_dst mc_n].
        rewrite (to_uint_row width (gb_height g)) by lia. lia.
    + rewrite (run_memcpys_untouched _ _ _ _ _ Erun).
      * apply load_zeros. apply row_offset_bound; lia.
      * intros c Hin Hwr. apply ensure_space_copies_In in Hin.
        destruct Hin as (r' & Hr' & ->).
        unfold written in Hwr. cbn [mc_dst mc_n] in Hwr.
        rewrite (to_uint_row width (gb_height g)) in Hwr by lia.
        apply same_row in Hwr; lia.
    + rewrite (run_memcpys_untouched _ _ _ _ _ Erun).
      * apply load_zeros. apply row_offset_bound; lia.
      * intros c Hin Hwr. apply ensure_space_copies_In in Hin.
        destruct Hin as (r' & Hr' & ->).
        unfold written in Hwr. cbn [mc_dst mc_n] in Hwr.
        rewrite (to_uint_row width (gb_height g)) in Hwr by lia.
        apply same_row in Hwr; lia.
Qed.

(** Left of and above its destination origin [apply_bitmap] changes no
    pixel. *)
Lemma apply_bitmap_keeps_outside g bitmap src_start dest_start g' :
  wf_GlyphBuffer g ->
  is_size_t (pt_x dest_start) -> is_size_t (pt_y dest_start) ->
  apply_bitmap g bitmap src_start dest_start = Returns g' ->
  wf_GlyphBuffer g' /\ gb_width g' = gb_width g /\ gb_height g' = gb_height g /\
  forall x y, 0 <= x < gb_width g -> 0 <= y < gb_height g ->
    x < pt_x dest_start \/ y < pt_y dest_start ->
    pixel g' x y = pixel g x y.
Proof.
  intros (HW & HH & Hlen) Hdx Hdy Hret.
  apply apply_bitmap_result in Hret. destruct Hret as (newbuf & Erun & ->).
  pose proof (run_memcpys_len _ _ _ _ Erun) as Hlen'.
  unfold wf_GlyphBuffer, pixel. rewrite block_with_block by exact Hlen'.
  cbn [with_block gb_width gb_height].
  split; [ repeat split; try assumption; try apply HW; try apply HH; lia | ].
  split; [ reflexivity | ]. split; [ reflexivity | ].
  intros x y Hx Hy Hout.
  eapply run_memcpys_untouched; [ exact Erun | ].
  intros c Hin Hwr. unfold apply_bitmap_calls in Hin.
  apply apply_bitmap_copies_In in Hin. destruct Hin as (k & Hk & Hs & Hd & ->).
  unfold written in Hwr. cbn [mc_dst mc_n] in Hwr.
  unfold is_size_t in Hdx, Hdy.
  rewrite (to_size_t_row (gb_width g) (gb_height g)) in Hwr
    by (assumption || lia).
  assert (Hn : 0 < apply_bitmap_width g bitmap src_start dest_start) by lia.
  unfold apply_bitmap_width in Hn, Hwr. rewrite MIN_spec in Hn, Hwr.
  pose proof (ZERO_SUB_range (to_size_t (bm_pitch bitmap)) (pt_x src_start)).
  destruct (ZERO_SUB_pos (gb_width g) (pt_x dest_start)) as [Hlt Heq];
    [ apply is_uint_size_t; exact HW | exact Hdx | lia | ].
  rewrite Heq in Hwr.
  assert (Hrow : y = pt_y dest_start + k /\ x < gb_width g).
  { apply (same_row (gb_width g) (pt_y dest_start + k) y x (gb_width g));
      lia. }
  lia.
Qed.

(** X4.  One glyph drawn on a canvas of [width * height] bytes, the
    product of the new dimensions below 2^32: left of and above the
    destination origin of the glyph every pixel of the old canvas keeps
    its value at its coordinates and every pixel the grow has added is
    zero; the canvas keeps a buffer of the size of its dimensions. *)
Theorem draw_glyph_keeps_pixels i info pos st st' :
  codepoint info <> 0 ->
  tracks_canvas st -> wf_GlyphBuffer (ds_g st) ->
  ds_width st' * ds_height st' < 2 ^ UINT_WIDTH ->
  draw_glyph alloc_ok _load_char i info pos st = Returns st' ->
  exists dx dy,
    dest_origin (cursor_add (ds_x st) (x_offset pos)) = Some dx /\
    dest_origin (cursor_sub (ds_y st) (y_offset pos)) = Some dy /\
    tracks_canvas st' /\ wf_GlyphBuffer (ds_g st') /\
    forall x y,
      0 <= x < gb_width (ds_g st') -> 0 <= y < gb_height (ds_g st') ->
      x < dx \/ y < dy ->
      pixel (ds_g st') x y
      = if (x <? gb_width (ds_g st)) && (y <? gb_height (ds_g st))
        then pixel (ds_g st) x y else Some 0.
Proof.
  intros Hid Ht Hwf Hb Hret.
  destruct (draw_glyph_tracks _ _ _ _ _ _ _ Ht Hret) as (Ht' & (Hdw & Hdh)).
  pose proof (draw_glyph_Returns _ _ _ _ _ _ _ Hid Hret) as Hg.
  cbv zeta in Hg. destruct Hg as (w & h & Ew & Eh & Hw & Hh & _ & _).
  apply extent_range in Ew, Eh.
  apply draw_glyph_steps in Hret; [ | exact Hid ]. cbv zeta in Hret.
  destruct Hret as (g1 & ss & ds & Hens & _ & Happ & _ & _ & _ & Hdx & Hdy).
  pose proof Hwf as (HW & HH & Hlen).
  destruct Ht as (Tw & Th). rewrite MAX_spec in Hw, Hh.
  unfold is_uint in HW, HH, Ew, Eh.
  set (g0 := if i =? 0 then _ else ds_g st) in Hens.
  assert (Hg0 : wf_GlyphBuffer g0 /\ gb_width g0 = gb_width (ds_g st) /\
                gb_height g0 = gb_height (ds_g st) /\
                forall x y, pixel g0 x y = pixel (ds_g st) x y).
  { subst g0. destruct (i =? 0).
    - unfold wf_GlyphBuffer, pixel, is_uint. cbn [buf gb_width gb_height].
      repeat split; try lia; try reflexivity; try exact Hlen.
    - unfold wf_GlyphBuffer, is_uint.
      repeat split; try lia; try reflexivity; try exact Hlen. }
  destruct Hg0 as (Hwf0 & Hw0 & Hh0 & Hp0).
  apply ensure_space_grown in Hens; try assumption;
    try (unfold is_uint; lia); try lia.
  destruct Hens as (Hwf1 & Hw1 & Hh1 & Hp1).
  apply apply_bitmap_keeps_outside in Happ; try assumption;
    try (eapply dest_origin_range; eassumption).
  destruct Happ as (Hwf2 & Hw2 & Hh2 & Hp2).
  exists (pt_x ds), (pt_y ds).
  split; [ exact Hdx | ]. split; [ exact Hdy | ].
  split; [ exact Ht' | ]. split; [ exact Hwf2 | ].
  intros x y Hx Hy Hout.
  rewrite Hw2, Hw1 in Hx. rewrite Hh2, Hh1 in Hy.
  rewrite Hp2 by (rewrite ?Hw1, ?Hh1; assumption).
  rewrite Hp1 by assumption.
  rewrite Hw0, Hh0, Hp0. reflexivity.
Qed.

End KeepPixels.

(** ** The cursor of [draw_complex_glyph] *)

Section Cursor.

Variable alloc_ok : Z -> bool.
Variable _load_char : Z -> FT_GlyphSlotRec.

(** The cursor a drawn glyph leaves behind. *)
Lemma draw_glyph_cursor i info pos st st' :
  codepoint info <> 0 ->
  draw_glyph alloc_ok _load_char i info pos st = Returns st' ->
  ds_x st' = cursor_add (cursor_add (ds_x st) (x_offset pos)) (x_advance pos) /\
  ds_y st' = float_of_int 0.
Proof.
  intros Hid H. unfold draw_glyph in H.
  destruct (Z.eqb_spec (codepoint info) 0) as [Hz | _]; [ contradiction | ].
  apply bind_Returns in H. destruct H as (w & _ & H).
  apply bind_Returns in H. destruct H as (h & _ & H).
  apply bind_Returns in H. destruct H as ([ok g1] & _ & H).
  cbn beta iota zeta in H.
  destruct ok; cbn [negb] in H; [ | discriminate ].
  apply bind_Returns in H. destruct H as (sx & _ & H).
  apply bind_Returns in H. destruct H as (sy & _ & H).
  apply bind_Returns in H. destruct H as (dx & _ & H).
  apply bind_Returns in H. destruct H as (dy & _ & H).
  destruct (negb (_ =? FT_PIXEL_MODE_GRAY)); [ discriminate | ].
  apply bind_Returns in H. destruct H as (g2 & _ & H).
  injection H as <-. split; reflexivity.
Qed.

Lemma pen_in_range_app sd1 : forall sd2 k,
  pen_in_range k (sd1 ++ sd2) ->
  pen_in_range k sd1 /\ pen_in_range (pen_after k sd1) sd2.
Proof.
  induction sd1 as [ | [info pos] rest IH]; intros sd2 k H.
  - split; [ exact I | exact H ].
  - cbn [app pen_in_range pen_after] in *.
    destruct (codepoint info =? 0); [ apply IH; exact H | ].
    destruct H as (H1 & H2 & H3 & H4 & H5 & H).
    apply IH in H. destruct H as (Ha & Hb).
    split; [ | exact Hb ].
    split; [ exact H1 | ]. split; [ exact H2 | ]. split; [ exact H3 | ].
    split; [ exact H4 | ]. split; [ exact H5 | exact Ha ].
Qed.

(** While the pen stays in range the cursor is the pen: nothing is
    rounded. *)
Lemma draw_loop_cursor sd : forall i st k st',
  is_64ths (ds_x st) k -> is_64ths (ds_y st) 0 -> pen_in_range k sd ->
  draw_loop alloc_ok _load_char i sd st = Returns st' ->
  is_64ths (ds_x st') (pen_after k sd) /\ is_64ths (ds_y st') 0.
Proof.
  induction sd as [ | [info pos] rest IH]; intros i st k st' Hx Hy Hr H.
  - cbn [draw_loop] in H. injection H as <-. split; assumption.
  - cbn [draw_loop] in H. apply bind_Returns in H.
    destruct H as (st1 & H1 & H). cbn [pen_in_range pen_after] in *.
    destruct (Z.eqb_spec (codepoint info) 0) as [Hz | Hnz].
    + rewrite draw_glyph_skip in H1 by exact Hz. injection H1 as <-.
      eapply IH; eassumption.
    + destruct Hr as (Ho & Ha & _ & Hko & Hkoa & Hr).
      apply draw_glyph_cursor in H1; [ | exact Hnz ].
      destruct H1 as (Ex & Ey).
      eapply IH; [ | | exact Hr | exact H ].
      * rewrite Ex. apply cursor_add_exact; [ | exact Ha | exact Hkoa ].
        apply cursor_add_exact; assumption.
      * rewrite Ey. reflexivity.
Qed.

(** X17.  In a run whose offsets, advances and pen positions are all
    below 2^24 64ths in magnitude, nothing is rounded: the glyph after
    the glyphs [pre] is placed at exactly [x = (pen + x_offset) / 64] and
    [y = - y_offset / 64], the pen being the sum of the offsets and
    advances of the glyphs of [pre] with an id other than 0. *)
Theorem draw_complex_glyph_cursor_exact pre info pos before :
  codepoint info <> 0 ->
  pen_in_range 0 (pre ++ [(info, pos)]) ->
  draw_loop alloc_ok _load_char 0 pre draw_init = Returns before ->
  is_64ths (cursor_add (ds_x before) (x_offset pos))
           (pen_after 0 pre + x_offset pos) /\
  is_64ths (cursor_sub (ds_y before) (y_offset pos)) (- y_offset pos) /\
  in_24_bits (pen_after 0 pre + x_offset pos) /\ in_24_bits (- y_offset pos).
Proof.
  intros Hid Hr Hloop.
  apply pen_in_range_app in Hr. destruct Hr as (Hpre & Hlast).
  cbn [pen_in_range] in Hlast.
  destruct (Z.eqb_spec (codepoint info) 0) as [Hz | _]; [ contradiction | ].
  destruct Hlast as (Ho & _ & Hy & Hko & _ & _).
  destruct (draw_loop_cursor pre 0 draw_init 0 before) as (Hx & Hy0);
    [ reflexivity | reflexivity | exact Hpre | exact Hloop | ].
  unfold in_24_bits in *.
  split; [ apply cursor_add_exact; assumption | ].
  split; [ | split; [ exact Hko | lia ] ].
  change (- y_offset pos) with (0 - y_offset pos).
  apply cursor_sub_exact; [ exact Hy0 | exact Hy | lia ].
Qed.

End Cursor.

(** * The further theorems at sample inputs *)

Lemma apply_bitmap_defined_witness :
  wf_GlyphBuffer wide_canvas /\
  exists g', apply_bitmap wide_canvas dot (point 0 0) (point 8 0) = Returns g'.
Proof.
  split; [ by_evaluation | ].
  apply (apply_bitmap_defined wide_canvas dot (point 0 0) (point 8 0));
    by_evaluation.
Defined.

Lemma apply_bitmap_pixels_witness :
  apply_bitmap (canvas 2 1 [0; 0]) ramp (point 1 0) (point 0 0)
  = Returns (canvas 2 1 [10; 20]) /\
  pixel (canvas 2 1 [10; 20]) (0 + 1) (0 + 0)
  = load (bm_buffer ramp) ((0 + 0) * 3 + 1).
Proof.
  split; [ reflexivity | ].
  apply (apply_bitmap_pixels (canvas 2 1 [0; 0]) ramp (point 1 0) (point 0 0)
           (canvas 2 1 [10; 20])); by_evaluation.
Defined.

Lemma ensure_space_outcome_witness :
  (exists g',
     ensure_space always_ok dot_canvas 9 1 = Returns (true, g') /\
     wf_GlyphBuffer g' /\ gb_width g' = 9 /\ gb_height g' = 1 /\
     gb_metrics g' = gb_metrics dot_canvas) \/
  (ensure_space always_ok dot_canvas 9 1
   = Returns (false, {| buf := None; gb_width := 0; gb_height := 0;
                        gb_metrics := gb_metrics dot_canvas |}) /\
   always_ok (9 * 1) = false /\
   (gb_width dot_canvas < 9 \/ gb_height dot_canvas < 1)).
Proof.
  apply (ensure_space_outcome always_ok dot_canvas 9 1); by_evaluation.
Defined.

Lemma draw_glyph_keeps_pixels_witness :
  draw_glyph always_ok (render_as dot) 1
    (fst (glyph_at 2 (0 * 64))) (snd (glyph_at 2 (0 * 64))) state_one_dot
  = Returns state_two_dots /\
  exists dx dy,
    dest_origin (cursor_add (ds_x state_one_dot) 0) = Some dx /\
    dest_origin (cursor_sub (ds_y state_one_dot) 0) = Some dy /\
    tracks_canvas state_two_dots /\ wf_GlyphBuffer (ds_g state_two_dots) /\
    forall x y,
      0 <= x < 9 -> 0 <= y < 1 -> x < dx \/ y < dy ->
      pixel (ds_g state_two_dots) x y
      = if (x <? 1) && (y <? 1)
        then pixel (ds_g state_one_dot) x y else Some 0.
Proof.
  split; [ vm_compute; reflexivity | ].
  apply (draw_glyph_keeps_pixels always_ok (render_as dot) 1
           (fst (glyph_at 2 (0 * 64))) (snd (glyph_at 2 (0 * 64)))
           state_one_dot state_two_dots); by_evaluation.
Defined.

Lemma draw_complex_glyph_reads_whole_canvas_witness :
  len [255; 0; 0; 0; 0; 0; 0; 0; 255] = to_uint (9 * 1) /\
  draw_complex_glyph always_ok (render_as dot)
    [glyph_at 1 (8 * 64); glyph_at 2 (0 * 64)]
  = Returns two_dots.
Proof.
  apply (draw_complex_glyph_reads_whole_canvas always_ok (render_as dot)
           [glyph_at 1 (8 * 64); glyph_at 2 (0 * 64)] state_two_dots
           [255; 0; 0; 0; 0; 0; 0; 0; 255]); by_evaluation.
Defined.

Lemma draw_complex_glyph_first_metrics_witness :
  c_metrics two_dots = slot_metrics (render_as dot 1).
Proof.
  apply (draw_complex_glyph_first_metrics always_ok (render_as dot)
           (fst (glyph_at 1 (8 * 64))) (snd (glyph_at 1 (8 * 64)))
           [glyph_at 2 (0 * 64)] two_dots); by_evaluation.
Defined.

Lemma draw_complex_glyph_gray_only_witness :
  bm_pixel_mode (slot_bitmap (render_as dot 2)) = FT_PIXEL_MODE_GRAY.
Proof.
  apply (draw_complex_glyph_gray_only always_ok (render_as dot)
           [glyph_at 1 (8 * 64); glyph_at 2 (0 * 64)]
           (fst (glyph_at 2 (0 * 64))) (snd (glyph_at 2 (0 * 64))) two_dots).
  - right. left. reflexivity.
  - by_evaluation.
  - vm_compute. reflexivity.
Defined.

Lemma draw_complex_glyph_needs_memory_witness :
  draw_complex_glyph never_ok (render_as dot)
    [glyph_at 1 (8 * 64); glyph_at 2 (0 * 64)] <> Returns two_dots.
Proof.
  apply (draw_complex_glyph_needs_memory never_ok (render_as dot)).
  intros n. reflexivity.
Defined.

Lemma draw_complex_glyph_tight_witness :
  exists pre info pos post before,
    [glyph_at 1 (8 * 64); glyph_at 2 (0 * 64)] = pre ++ (info, pos) :: post /\
    codepoint info <> 0 /\
    draw_loop always_ok (render_as dot) 0 pre draw_init = Returns before /\
    extent (cursor_add (ds_x before) (x_offset pos))
      (bm_pitch (slot_bitmap (render_as dot (codepoint info))))
    = Some 9.
Proof.
  apply (proj1 (draw_complex_glyph_tight always_ok (render_as dot)
                  [glyph_at 1 (8 * 64); glyph_at 2 (0 * 64)] two_dots
                  ltac:(vm_compute; reflexivity))).
  discriminate.
Defined.

Lemma draw_complex_glyph_empty_bitmap_witness :
  draw_complex_glyph always_ok (render_as blank)
    ([] ++ glyph_at 3 (8 * 64) :: [])
  = Raises ValueError_no_glyphs_found.
Proof.
  apply (draw_complex_glyph_empty_bitmap always_ok (render_as blank) []
           (fst (glyph_at 3 (8 * 64))) (snd (glyph_at 3 (8 * 64))) []);
    first [ constructor | by_evaluation ].
Defined.

Lemma trim_to_width_too_large_witness :
  trim_to_width always_ok scenario_B 12 = Raises FreeType_Exception_too_large
  <-> ~ (12 <= 10 < 2 * 12).
Proof.
  apply (trim_to_width_too_large always_ok scenario_B 12); by_evaluation.
Defined.

Lemma trim_to_width_drops_blank_witness :
  exists rtrim ltrim out,
    trim_amounts (bm_buffer scenario_C) 1 10 8 = Returns (rtrim, ltrim) /\
    trim_to_width always_ok scenario_C 8 = Returns out /\
    0 <= rtrim /\ 0 <= ltrim /\ ltrim + 8 + rtrim = 10 /\
    (forall x y, 10 - rtrim <= x < 10 -> 0 <= y < 1 ->
       exists v, load (bm_buffer scenario_C) (y * 10 + x) = Some v /\ v <= 200) /\
    (0 < ltrim ->
       exists y v, 0 <= y < 1 /\
         load (bm_buffer scenario_C) (y * 10 + (10 - 1 - rtrim)) = Some v /\
         200 < v).
Proof.
  apply (trim_to_width_drops_blank always_ok scenario_C 8); by_evaluation.
Defined.

Lemma trim_to_width_twice_witness :
  trim_to_width always_ok (gray_bitmap 1 8 [0; 255; 0; 0; 0; 0; 0; 255]) 8
  = Returns (gray_bitmap 1 8 [0; 255; 0; 0; 0; 0; 0; 255]).
Proof.
  apply (trim_to_width_twice always_ok scenario_C 8); by_evaluation.
Defined.

Lemma get_load_flags_bits_witness :
  Z.testbit (get_load_flags 1 1 FT_LOAD_RENDER) 16
  = Z.testbit FT_LOAD_RENDER 16
    || ((16 =? 1) && (1 =? 0))
    || ((16 =? 16) && negb (1 =? 0) && (0 <? 1) && (1 <? 3)).
Proof.
  apply (get_load_flags_bits 1 1 FT_LOAD_RENDER 16). by_evaluation.
Defined.

Lemma draw_complex_glyph_cursor_exact_witness :
  is_64ths (cursor_add (ds_x state_dot_and_a_half) 0)
           (pen_after 0 [glyph_at 1 (8 * 64 + 32)] + 0) /\
  is_64ths (cursor_sub (ds_y state_dot_and_a_half) 0) (- 0) /\
  in_24_bits (pen_after 0 [glyph_at 1 (8 * 64 + 32)] + 0) /\
  in_24_bits (- 0).
Proof.
  apply (draw_complex_glyph_cursor_exact always_ok (render_as dot)
           [glyph_at 1 (8 * 64 + 32)]
           (fst (glyph_at 2 (0 * 64))) (snd (glyph_at 2 (0 * 64)))
           state_dot_and_a_half).
  - vm_compute. discriminate.
  - vm_compute. repeat split; discriminate.
  - vm_compute. reflexivity.
Defined.
